(** * pdf_translator: the C++ vector-store server (cpp_server/)

    A shallow embedding of [embedder.cpp], [vector_db.cpp] and [server.cpp],
    followed by the properties of the store, of the search and of the
    connection handling that the design document states about them.

    Part I holds the definitions, Part II the lemmas and theorems. *)

From Stdlib Require Import ZArith Ascii String List Floats.SpecFloat.
From Stdlib Require Import Strings.Byte.
From Stdlib Require Import Reals Lra Lia.
From stdpp Require Import gmap strings list fin_maps sorting pretty.

Local Open Scope Z_scope.

Set Warnings "-register-all".

(* ===================================================================== *)
(** * Part I: the program                                                 *)
(* ===================================================================== *)

(** ** [float]: IEEE-754 binary32

    The C++ [float] is modelled by the Standard Library's specification
    floats at precision 24 and maximal exponent 128 (round to nearest,
    ties to even). Every operation is rounded once to binary32: no
    extended precision and no fused multiply-add. *)

Module F32.

Definition prec : Z := 24.
Definition emax : Z := 128.

Definition float := spec_float.

Definition zero : float := S754_zero false.                  (* 0.0f *)
Definition one : float := S754_finite false 8388608 (-23).   (* 1.0f *)

Definition add (x y : float) : float := SFadd prec emax x y.
Definition mul (x y : float) : float := SFmul prec emax x y.
Definition div (x y : float) : float := SFdiv prec emax x y.
Definition sqrt (x : float) : float := SFsqrt prec emax x.

(** [a > b] on floats: false as soon as one side is a NaN. *)
Definition gt (a b : float) : bool := SFltb b a.

Definition is_nan (x : float) : bool :=
  match x with
  | S754_nan => true
  | _ => false
  end.

End F32.

(** ** [nlohmann::json] documents

    The library is not part of the repository; the model keeps the value
    kinds and the few accessors the server calls. An object is an
    association list read by its first binding for a key. A number is an
    integer or a floating-point value (given by sign, mantissa and
    exponent). *)

Inductive json : Type :=
| JNull
| JBool (b : bool)
| JInt (n : Z)
| JFloat (x : spec_float)
| JString (s : string)
| JArray (xs : list json)
| JObject (kvs : list (string * json)).

(** The three exception classes the server meets; [parse_error] and
    [type_error] belong to [nlohmann::json], all derive from
    [std::exception]. *)
Inductive exn : Type :=
| parse_error (what : string)
| type_error (what : string)
| runtime_error (what : string).

Definition what (e : exn) : string :=
  match e with
  | parse_error w | type_error w | runtime_error w => w
  end.

(** How a call ends: it returns a value, it throws, or the process is
    killed in it. The last happens in one place, [write] on a socket
    whose peer is gone: the kernel raises SIGPIPE, which the program
    neither ignores nor handles, so that no handler is run and nothing
    follows. *)
Inductive result (A : Type) : Type :=
| Ok (a : A)
| Throw (e : exn)
| Sigpipe.
Arguments Ok {A} a.
Arguments Throw {A} e.
Arguments Sigpipe {A}.

Module Json.

Fixpoint find (key : string) (kvs : list (string * json)) : option json :=
  match kvs with
  | [] => None
  | (k, v) :: rest => if decide (k = key) then Some v else find key rest
  end.

Definition type_name (j : json) : string :=
  match j with
  | JNull => "null"
  | JBool _ => "boolean"
  | JInt _ | JFloat _ => "number"
  | JString _ => "string"
  | JArray _ => "array"
  | JObject _ => "object"
  end.

(** [j.contains(key)]: false on anything that is not an object. *)
Definition contains (j : json) (key : string) : bool :=
  match j with
  | JObject kvs => bool_decide (is_Some (find key kvs))
  | _ => false
  end.

(** [j[key]] on a const document; the server only reads keys it has
    checked with [contains]. *)
Definition at_key (j : json) (key : string) : json :=
  match j with
  | JObject kvs => default JNull (find key kvs)
  | _ => JNull
  end.

Definition is_string (j : json) : bool :=
  match j with JString _ => true | _ => false end.

(** [j.get_ref<const std::string&>()] *)
Definition get_ref_string (j : json) : result string :=
  match j with
  | JString s => Ok s
  | _ => Throw (type_error
           ("incompatible ReferenceType for get_ref, actual type is "
            +:+ type_name j))
  end.

(** [static_cast<int>] of a 64-bit integer: wrap to 32 bits. *)
Definition to_int (z : Z) : Z := (z + 2 ^ 31) mod 2 ^ 32 - 2 ^ 31.

(** Truncation of a floating-point number toward zero (the conversion is
    left undefined by C++ outside the range of [int]; the model wraps). *)
Definition trunc (x : spec_float) : Z :=
  match x with
  | S754_finite s m e =>
      let a := if 0 <=? e then Z.pos m * 2 ^ e else Z.pos m / 2 ^ (- e) in
      if s then - a else a
  | _ => 0
  end.

(** [j.get<int>()] *)
Definition get_int (j : json) : result Z :=
  match j with
  | JInt n => Ok (to_int n)
  | JFloat x => Ok (to_int (trunc x))
  | JBool b => Ok (if b then 1 else 0)
  | _ => Throw (type_error ("type must be number, but is " +:+ type_name j))
  end.

(** [j.get<std::string>()] *)
Definition get_string (j : json) : result string :=
  match j with
  | JString s => Ok s
  | _ => Throw (type_error ("type must be string, but is " +:+ type_name j))
  end.

(** [j.value(key, default_value)], at the three result types used. *)
Definition value {A} (get : json → result A) (j : json) (key : string)
    (default_value : A) : result A :=
  match j with
  | JObject kvs =>
      match find key kvs with
      | Some v => get v
      | None => Ok default_value
      end
  | _ => Throw (type_error ("cannot use value() with " +:+ type_name j))
  end.

Definition value_json := value (λ v, Ok v).
Definition value_int := value get_int.
Definition value_string := value get_string.


End Json.

(** ** vector_db.hpp / vector_db.cpp *)

Record VectorEntry : Type := mkVectorEntry {
  chunk_id : string;
  doc_id : string;
  text : string;
  metadata : json;
  embedding : list F32.float
}.

(** [vector_db.hpp] declares [SearchResult] with the members [chunk_id],
    [score] and [text]; [VectorDB::search] initialises each result from
    four values, the fourth being the entry's metadata. The model keeps
    the fourth value, so that nothing [search] hands over is dropped by
    the model itself. *)
Record SearchResult : Type := mkSearchResult {
  r_chunk_id : string;
  score : F32.float;
  r_text : string;
  r_metadata : json
}.

Record VectorDB : Type := mkVectorDB {
  (* Primary store: chunk_id -> entry *)
  entries_ : gmap string VectorEntry;
  (* Secondary index: doc_id -> [chunk_ids] *)
  doc_index_ : gmap string (list string)
}.

(** [std::sort(scored.begin(), scored.end(), comp)] with the comparator
    [a.first > b.first]: the algorithm belongs to the library, which
    also chooses the order of equal scores; a parameter of the search.
    What the search may expect of it is [StdSortSpec] below. *)
Class StdSort : Type :=
  std_sort : list (F32.float * VectorEntry) → list (F32.float * VectorEntry).

Module VectorDB.

Definition empty : VectorDB :=
  {| entries_ := ∅; doc_index_ := ∅ |}.

(** [ids.erase(std::remove(ids.begin(), ids.end(), chunk_id), ids.end())] *)
Definition erase_remove (cid : string) (ids : list string) : list string :=
  filter (λ x, x ≠ cid) ids.

(** The first half of [store]: if [cid] overwrites an entry, unlink it
    from the bucket of the old doc_id and erase the bucket when it is
    left empty. [doc_index_[old_doc_id]] creates an empty bucket when
    there is none, which the emptiness test then erases again. *)
Definition unlink_old (cid : string) (db : VectorDB)
    : gmap string (list string) :=
  match entries_ db !! cid with
  | Some it =>
      let old_doc_id := doc_id it in
      let ids := erase_remove cid (default [] (doc_index_ db !! old_doc_id)) in
      match ids with
      | [] => delete old_doc_id (doc_index_ db)
      | _ => <[old_doc_id := ids]> (doc_index_ db)
      end
  | None => doc_index_ db
  end.

Definition store (cid did txt : string) (meta : json)
    (emb : list F32.float) (db : VectorDB) : VectorDB :=
  let index := unlink_old cid db in
  {| entries_ := <[cid := mkVectorEntry cid did txt meta emb]> (entries_ db);
     doc_index_ := <[did := default [] (index !! did) ++ [cid]]> index |}.

Definition dot_product (a b : list F32.float) : F32.float :=
  let n := Nat.min (length a) (length b) in
  fold_left
    (λ sum i, F32.add sum (F32.mul (nth i a F32.zero) (nth i b F32.zero)))
    (seq 0 n) F32.zero.

Definition score_entry (q : list F32.float) (e : VectorEntry)
    : F32.float * VectorEntry :=
  (dot_product q (embedding e), e).

(** The candidates of a search with their scores, before sorting. The
    order in which an [unordered_map] is walked is unspecified; the
    model walks the map in the order of [map_to_list]. *)
Definition scored_candidates (q : list F32.float) (doc_id_filter : string)
    (db : VectorDB) : list (F32.float * VectorEntry) :=
  if negb (bool_decide (doc_id_filter = ""))
  then
    match doc_index_ db !! doc_id_filter with
    | Some ids =>
        omap (λ cid, score_entry q <$> entries_ db !! cid) ids
    | None => []
    end
  else
    (λ kv, score_entry q kv.2) <$> map_to_list (entries_ db).

Definition to_result (p : F32.float * VectorEntry) : SearchResult :=
  {| r_chunk_id := chunk_id p.2;
     score := p.1;
     r_text := text p.2;
     r_metadata := metadata p.2 |}.

(** [top_k] is an [int]; [scored.size()] is cast to [int]. *)
Definition search `{!StdSort} (q : list F32.float) (top_k : Z)
    (doc_id_filter : string) (db : VectorDB) : list SearchResult :=
  let scored := std_sort (scored_candidates q doc_id_filter db) in
  let count := Z.min top_k (Json.to_int (Z.of_nat (length scored))) in
  to_result <$> take (Z.to_nat count) scored.

End VectorDB.

(** ** embedder.hpp / embedder.cpp *)

Definition EMBED_DIM : nat := 4096.

(** [std::isalnum] and [std::tolower] in the "C" locale, the only one the
    program runs in. *)
Definition isalnum (c : ascii) : bool :=
  let n := N_of_ascii c in
  ((48 <=? n) && (n <=? 57) || (65 <=? n) && (n <=? 90)
   || (97 <=? n) && (n <=? 122))%N.

Definition tolower (c : ascii) : ascii :=
  let n := N_of_ascii c in
  if ((65 <=? n) && (n <=? 90))%N then ascii_of_N (n + 32) else c.

Section Embedder.

(** [std::hash<std::string>]: left to the implementation by the
    standard; a parameter of the embedder. *)
Variable hash : string → N.

(** [vec[hash(token) % EMBED_DIM] += 1.0f] *)
Definition count_token (token : string) (vec : list F32.float)
    : list F32.float :=
  let h := N.to_nat (hash token mod N.of_nat EMBED_DIM) in
  alter (λ v, F32.add v F32.one) h vec.

(** The loop over the characters of the text: the token being read and
    the bucket counts so far. *)
Fixpoint scan (s : string) (token : string) (vec : list F32.float)
    : string * list F32.float :=
  match s with
  | EmptyString => (token, vec)
  | String c rest =>
      if isalnum c then scan rest (token +:+ String (tolower c) "") vec
      else if negb (bool_decide (token = ""))
           then scan rest "" (count_token token vec)
           else scan rest token vec
  end.

(** The bucket counts of a text, before normalisation. *)
Definition counts (s : string) : list F32.float :=
  let '(token, vec) := scan s "" (replicate EMBED_DIM F32.zero) in
  if negb (bool_decide (token = "")) then count_token token vec else vec.

Definition sum_squares (vec : list F32.float) : F32.float :=
  fold_left (λ norm v, F32.add norm (F32.mul v v)) vec F32.zero.

Definition normalize (vec : list F32.float) : list F32.float :=
  let norm := sum_squares vec in
  if F32.gt norm F32.zero
  then (λ v, F32.div v (F32.sqrt norm)) <$> vec
  else vec.

Definition embed (s : string) : list F32.float := normalize (counts s).

(** The tokens of a text in the order they are counted (the alphanumeric
    runs, lower-cased). *)
Fixpoint tokens_from (s : string) (token : string) : list string :=
  match s with
  | EmptyString => if negb (bool_decide (token = "")) then [token] else []
  | String c rest =>
      if isalnum c then tokens_from rest (token +:+ String (tolower c) "")
      else if negb (bool_decide (token = ""))
           then token :: tokens_from rest ""
           else tokens_from rest token
  end.

Definition tokens (s : string) : list string := tokens_from s "".

End Embedder.

(** ** server.hpp / server.cpp

    The server's code threads two things through its calls: the state it
    works on and the C++ exception that may be in flight. [M S A] is a
    computation on a state [S] that returns an [A] or throws. *)

Definition M (S A : Type) : Type := S → result A * S.

#[export] Instance M_ret {S} : MRet (M S) := λ A a s, (Ok a, s).

#[export] Instance M_bind {S} : MBind (M S) := λ A B f m s,
  match m s with
  | (Ok a, s') => f a s'
  | (Throw e, s') => (Throw e, s')
  | (Sigpipe, s') => (Sigpipe, s')
  end.

#[export] Instance M_throw {S} : MThrow exn (M S) := λ A e s, (Throw e, s).

(** [try { m } catch (e) { handler e }] *)
Definition try_catch {S A} (m : M S A) (handler : exn → M S A) : M S A :=
  λ s, match m s with
       | (Throw e, s') => handler e s'
       | r => r
       end.

(** A call that reads no state, with the exception it may throw. *)
Definition call {S A} (r : result A) : M S A := λ s, (r, s).

(** ** [std::unordered_map] with string keys, as [VectorDB] uses it

    The operations of the map the two methods call, as computations on
    the map: [find] and the walk read it; [operator[]] creates the
    binding it is asked for when there is none, and hands out a
    reference through which the caller changes the value; [erase]
    removes a binding. *)
Module UMap.

Section Operations.

Context {V : Type}.

(** [m.find(k)] *)
Definition find (k : string) : M (gmap string V) (option V) :=
  λ m, (Ok (m !! k), m).

(** [for (const auto& [k, v] : m)]: the bindings in the order of the
    walk, which the standard leaves to the implementation; the model
    walks in the order of [map_to_list]. *)
Definition bindings : M (gmap string V) (list (string * V)) :=
  λ m, (Ok (map_to_list m), m).

(** [m[k]], with what the caller does to the value through the
    reference: the value is [dflt], value-initialised, when the key is
    new. The computation returns the value left under [k]. *)
Definition at_index (k : string) (dflt : V) (change : V → V)
    : M (gmap string V) V :=
  λ m, let v := change (default dflt (m !! k)) in (Ok v, <[k := v]> m).

(** [m.erase(k)] *)
Definition erase (k : string) : M (gmap string V) unit :=
  λ m, (Ok (), delete k m).

End Operations.

End UMap.

(** A computation on one of the two maps of the store. *)
Definition on_entries {A} (m : M (gmap string VectorEntry) A)
    : M VectorDB A :=
  λ db, let '(r, entries) := m (entries_ db) in
        (r, {| entries_ := entries; doc_index_ := doc_index_ db |}).

Definition on_index {A} (m : M (gmap string (list string)) A)
    : M VectorDB A :=
  λ db, let '(r, index) := m (doc_index_ db) in
        (r, {| entries_ := entries_ db; doc_index_ := index |}).

(** The state of an accepted client socket, as the server sees it: the
    bytes the peer delivers before the stream ends, the number of bytes
    the peer still takes before [write] fails, the bytes written, and
    what a failing [write] does: [tx_errors] is the number of failing
    calls that still return an error ([ECONNRESET] after a reset,
    [EINTR], ...); the failing call after them is the write to a socket
    the kernel knows to be dead: [EPIPE], and with it SIGPIPE. *)
Record Conn : Type := mkConn {
  rx : list Byte.byte;
  tx_room : nat;
  tx : list Byte.byte;
  tx_errors : nat
}.

(** The object [handle_connection] runs on: the store of the [Server]
    and the client socket. *)
Record State : Type := mkState {
  db_ : VectorDB;
  client_fd : Conn
}.

Definition on_db {A} (m : M VectorDB A) : M State A := λ st,
  let '(r, db) := m (db_ st) in (r, {| db_ := db; client_fd := client_fd st |}).

Definition on_fd {A} (m : M Conn A) : M State A := λ st,
  let '(r, c) := m (client_fd st) in (r, {| db_ := db_ st; client_fd := c |}).

Definition byte_val (b : Byte.byte) : Z := Z.of_N (Byte.to_N b).

Definition byte_of_Z (z : Z) : Byte.byte :=
  default Byte.x00 (Byte.of_N (Z.to_N z)).

Module Server.

(** [while (total < n) { n = read(fd, ...); if (n <= 0) throw ...; }]:
    the loop returns once [n] bytes have arrived and throws when the
    stream ends before. *)
Definition read_loop (n : nat) (failure : string) : M Conn (list Byte.byte) :=
  λ c,
    if decide (n ≤ length (rx c))%nat
    then (Ok (take n (rx c)),
          {| rx := drop n (rx c); tx_room := tx_room c; tx := tx c;
             tx_errors := tx_errors c |})
    else (Throw (runtime_error failure),
          {| rx := []; tx_room := tx_room c; tx := tx c;
             tx_errors := tx_errors c |}).

(** [while (total < size) { n = write(fd, ...); if (n <= 0) throw ...; }]:
    the loop returns once the peer has taken the data. When the peer
    takes no more, the call of [write] that fails either returns an
    error, and the loop throws, or raises SIGPIPE, and the process is
    killed inside the call. *)
Definition write_loop (data : list Byte.byte) (failure : string) : M Conn unit :=
  λ c,
    if decide (length data ≤ tx_room c)%nat
    then (Ok (),
          {| rx := rx c; tx_room := (tx_room c - length data)%nat;
             tx := tx c ++ data; tx_errors := tx_errors c |})
    else
      match tx_errors c with
      | S errors =>
          (Throw (runtime_error failure),
           {| rx := rx c; tx_room := 0%nat;
              tx := tx c ++ take (tx_room c) data; tx_errors := errors |})
      | O =>
          (Sigpipe,
           {| rx := rx c; tx_room := 0%nat;
              tx := tx c ++ take (tx_room c) data; tx_errors := 0%nat |})
      end.

Definition MAX_LENGTH : Z := 10 * 1024 * 1024.

(** The 4-byte big-endian length header. *)
Definition decode_length (len_buf : list Byte.byte) : Z :=
  let b i := byte_val (nth i len_buf Byte.x00) in
  Z.lor (Z.lor (Z.lor (Z.shiftl (b 0%nat) 24) (Z.shiftl (b 1%nat) 16))
               (Z.shiftl (b 2%nat) 8))
        (b 3%nat).

Definition read_message : M Conn string :=
  len_buf ← read_loop 4 "Failed to read message length";
  let length := decode_length len_buf in
  if (length =? 0) || (length >? MAX_LENGTH)
  then mthrow (runtime_error ("Invalid message length: " +:+ pretty length))
  else
    payload ← read_loop (Z.to_nat length) "Failed to read message payload";
    mret (string_of_list_byte payload).

Definition encode_length (size : nat) : list Byte.byte :=
  let length := Z.of_nat size mod 2 ^ 32 in
  [ byte_of_Z (Z.land (Z.shiftr length 24) 255);
    byte_of_Z (Z.land (Z.shiftr length 16) 255);
    byte_of_Z (Z.land (Z.shiftr length 8) 255);
    byte_of_Z (Z.land length 255) ].

Definition write_message (msg : string) : M Conn unit :=
  write_loop (encode_length (String.length msg))
             "Failed to write message length";;
  write_loop (list_byte_of_string msg) "Failed to write message payload".

Definition error_response (message : string) : json :=
  JObject [("status", JString "error"); ("message", JString message)].

Definition result_json (r : SearchResult) : json :=
  JObject [("chunk_id", JString (r_chunk_id r));
           ("score", JFloat (score r));
           ("text", JString (r_text r))].

Section Handlers.

Context `{std : !StdSort}.

Variable hash : string → N.

(** [db_.store(...)]: [VectorDB::store], statement by statement, on the
    store as the state (vector_db.cpp, lines 5 to 23). *)
Definition db_store (cid did txt : string) (meta : json)
    (emb : list F32.float) : M VectorDB unit :=
  it ← on_entries (UMap.find cid);
  match it with
  | Some old =>
      let old_doc_id := doc_id old in
      ids ← on_index (UMap.at_index old_doc_id []
                        (VectorDB.erase_remove cid));
      match ids with
      | [] => on_index (UMap.erase old_doc_id)
      | _ => mret ()
      end
  | None => mret ()
  end;;
  on_entries (UMap.at_index cid (mkVectorEntry "" "" "" JNull [])
                (λ _, mkVectorEntry cid did txt meta emb));;
  on_index (UMap.at_index did [] (λ ids, ids ++ [cid]));;
  mret ().

(** The loop [for (const auto& cid : it->second)] of the filtered
    search, with the vector [scored] it fills. *)
Fixpoint score_ids (query_embedding : list F32.float) (ids : list string)
    (scored : list (F32.float * VectorEntry))
    : M VectorDB (list (F32.float * VectorEntry)) :=
  match ids with
  | [] => mret scored
  | cid :: rest =>
      eit ← on_entries (UMap.find cid);
      match eit with
      | Some entry =>
          let score := VectorDB.dot_product query_embedding
                         (embedding entry) in
          score_ids query_embedding rest (scored ++ [(score, entry)])
      | None => score_ids query_embedding rest scored
      end
  end.

(** [db_.search(...)]: [VectorDB::search], statement by statement, on
    the store as the state (vector_db.cpp, lines 25 to 67). The method
    is [const]; what it calls on the two maps is [find] and the walk. *)
Definition db_search (query_embedding : list F32.float) (top_k : Z)
    (doc_id_filter : string) : M VectorDB (list SearchResult) :=
  scored ←
    (if negb (bool_decide (doc_id_filter = ""))
     then
       it ← on_index (UMap.find doc_id_filter);
       match it with
       | Some ids => score_ids query_embedding ids []
       | None => mret []
       end
     else
       entries ← on_entries UMap.bindings;
       mret ((λ kv : string * VectorEntry,
                (VectorDB.dot_product query_embedding (embedding kv.2),
                 kv.2)) <$> entries));
  let sorted := std_sort scored in
  let count := Z.min top_k (Json.to_int (Z.of_nat (length sorted))) in
  mret (VectorDB.to_result <$> take (Z.to_nat count) sorted).

Definition handle_store (request : json) : M VectorDB json :=
  if negb (Json.contains request "chunk_id")
     || negb (Json.contains request "doc_id")
     || negb (Json.contains request "text")
  then mret (error_response "store requires chunk_id, doc_id, and text")
  else
    chunk_id ← call (Json.get_ref_string (Json.at_key request "chunk_id"));
    doc_id ← call (Json.get_ref_string (Json.at_key request "doc_id"));
    text ← call (Json.get_ref_string (Json.at_key request "text"));
    metadata ← call (Json.value_json request "metadata" (JObject []));
    let embedding := embed hash text in
    db_store chunk_id doc_id text metadata embedding;;
    mret (JObject [("status", JString "ok")]).

Definition handle_search (request : json) : M VectorDB json :=
  if negb (Json.contains request "query")
  then mret (error_response "search requires query")
  else
    query ← call (Json.get_ref_string (Json.at_key request "query"));
    top_k ← call (Json.value_int request "top_k" 5);
    doc_id_filter ← call (Json.value_string request "doc_id" "");
    let query_embedding := embed hash query in
    results ← db_search query_embedding top_k doc_id_filter;
    let result_array := JArray (result_json <$> results) in
    mret (JObject [("status", JString "ok"); ("results", result_array)]).

Definition dispatch (request : json) : M VectorDB json :=
  if negb (Json.contains request "action")
     || negb (Json.is_string (Json.at_key request "action"))
  then mret (error_response "Missing or invalid 'action' field")
  else
    action ← call (Json.get_ref_string (Json.at_key request "action"));
    if bool_decide (action = "store") then handle_store request
    else if bool_decide (action = "search") then handle_search request
    else mret (error_response ("Unknown action: " +:+ action)).

(** [nlohmann::json::parse] and [json::dump], of the library: [parse]
    throws a [parse_error] on a body that is no JSON text, [dump]
    throws a [type_error] on a string that is not UTF-8. *)
Variable parse : string → result json.
Variable dump : json → result string.

Definition handle_connection : M State unit :=
  try_catch
    (msg ← on_fd read_message;
     request ← call (parse msg);
     response ← on_db (dispatch request);
     out ← call (dump response);
     on_fd (write_message out))
    (λ e,
       match e with
       | parse_error w =>
           let err := error_response ("JSON parse error: " +:+ w) in
           out ← call (dump err);
           on_fd (write_message out)
       | _ =>
           let err := error_response (what e) in
           try_catch
             (out ← call (dump err);
              on_fd (write_message out))
             (λ _,
                (* Client may have disconnected; ignore write failure *)
                mret ())
       end).

End Handlers.

End Server.

(** ** The accept loop of [Server::run]

    What the loop meets, one event per turn: a signal (the handler sets
    [shutdown_requested], the loop condition then fails), what [select]
    and [accept] return, or a client socket. The signal handlers and
    [setup_socket] come before the loop; [run] is the loop itself. *)

Inductive event : Type :=
| ev_signal
| ev_select_timeout
| ev_select_eintr
| ev_select_error
| ev_accept_eintr
| ev_accept_error
| ev_client (rx : list Byte.byte) (tx_room : nat) (tx_errors : nat).

Inductive status : Type :=
| Accepting          (* the events are used up: the loop waits in select *)
| ShutDown           (* the loop was left, [run] returns to [main] *)
| Fatal (e : exn)    (* an exception left [run]: [main] prints it, exit code 1 *)
| Killed.            (* SIGPIPE in a [write]: the process is gone *)

Record Run : Type := mkRun {
  run_status : status;
  run_db : VectorDB;
  (* what was written to each client socket, in the order of the accepts *)
  run_replies : list (list Byte.byte)
}.

Section Run.

Context `{std : !StdSort}.

Variable hash : string → N.
Variable parse : string → result json.
Variable dump : json → result string.

Fixpoint run (events : list event) (db : VectorDB) : Run :=
  match events with
  | [] => mkRun Accepting db []
  | ev_signal :: _ => mkRun ShutDown db []
  | ev_select_error :: _ => mkRun ShutDown db []
  | ev_select_timeout :: rest
  | ev_select_eintr :: rest
  | ev_accept_eintr :: rest
  | ev_accept_error :: rest => run rest db
  | ev_client rx tx_room tx_errors :: rest =>
      match Server.handle_connection hash parse dump
              (mkState db (mkConn rx tx_room [] tx_errors))
      with
      | (Ok _, st) =>
          let r := run rest (db_ st) in
          mkRun (run_status r) (run_db r) (tx (client_fd st) :: run_replies r)
      | (Throw e, st) => mkRun (Fatal e) (db_ st) [tx (client_fd st)]
      | (Sigpipe, st) => mkRun Killed (db_ st) [tx (client_fd st)]
      end
  end.

End Run.

(** ** Vocabulary of the statements *)

(** One call of [store], and the store reached from the empty one by a
    sequence of calls. *)
Record store_op : Type := mkOp {
  op_chunk_id : string;
  op_doc_id : string;
  op_text : string;
  op_metadata : json;
  op_embedding : list F32.float
}.

Definition apply_op (db : VectorDB) (op : store_op) : VectorDB :=
  VectorDB.store (op_chunk_id op) (op_doc_id op) (op_text op)
                 (op_metadata op) (op_embedding op) db.

Definition after (ops : list store_op) : VectorDB :=
  fold_left apply_op ops VectorDB.empty.

(** The chunk_ids registered under a doc_id (none when there is no
    bucket). *)
Definition bucket (db : VectorDB) (d : string) : list string :=
  default [] (doc_index_ db !! d).

(** The entries stored under a given chunk_id field. *)
Definition entries_with_chunk_id (db : VectorDB) (c : string)
    : list (string * VectorEntry) :=
  filter (λ kv, chunk_id kv.2 = c) (map_to_list (entries_ db)).

(** "Sorted by score descending": no result has a strictly greater score
    than a result before it. *)
Definition not_below (r1 r2 : SearchResult) : Prop :=
  F32.gt (score r2) (score r1) = false.

Definition sorted_desc (rs : list SearchResult) : Prop :=
  StronglySorted not_below rs.

Definition score_not_below {B} (x y : F32.float * B) : Prop :=
  F32.gt y.1 x.1 = false.

(** What is taken of [std::sort]. It moves the elements of the range
    and neither adds nor drops one: this is taken of every call. When
    the comparator is a strict weak ordering of the elements, which
    [a.first > b.first] is unless a score is a NaN, the result is
    sorted: no element is put by the comparator before an element in
    front of it. With a NaN among the scores the standard promises no
    order, and none is taken. *)
Class StdSortSpec `{std : !StdSort} : Prop := {
  std_sort_Permutation l : std_sort l ≡ₚ l;
  std_sort_sorted l :
    Forall (λ p, F32.is_nan p.1 = false) l →
    StronglySorted score_not_below (std_sort l)
}.

(** The range of the C++ [int]. *)
Definition is_int (z : Z) : Prop := - 2 ^ 31 ≤ z < 2 ^ 31.

(** The candidate set of a search call: the chunk_ids of the entries it
    scores. *)
Definition candidate_ids (q : list F32.float) (doc_id_filter : string)
    (db : VectorDB) : list string :=
  (λ p, chunk_id p.2) <$> VectorDB.scored_candidates q doc_id_filter db.

(** The chunks of a document: the keys of the entries stored under the
    doc_id. *)
Definition chunk_ids_of_doc (db : VectorDB) (d : string) : list string :=
  fst <$> filter (λ kv, doc_id kv.2 = d) (map_to_list (entries_ db)).

Definition same_chunks (l1 l2 : list string) : Prop :=
  ∀ c, c ∈ l1 ↔ c ∈ l2.

(** "No search call has exactly the chunks of document [d] as its
    candidate set." *)
Definition no_search_selects (db : VectorDB) (d : string) : Prop :=
  ¬ ∃ q doc_id_filter,
      same_chunks (candidate_ids q doc_id_filter db) (chunk_ids_of_doc db d).

(** A named field of a request document. *)
Definition field (request : json) (key : string) : option json :=
  match request with
  | JObject kvs => Json.find key kvs
  | _ => None
  end.

(** The invariant that ties the entry map to the doc index. *)
Record consistent (db : VectorDB) : Prop := mkConsistent {
  key_is_chunk_id :
    ∀ c e, entries_ db !! c = Some e → chunk_id e = c;
  index_sound :
    ∀ d c, c ∈ bucket db d → ∃ e, entries_ db !! c = Some e ∧ doc_id e = d;
  index_complete :
    ∀ c e, entries_ db !! c = Some e → c ∈ bucket db (doc_id e);
  no_empty_bucket :
    ∀ d ids, doc_index_ db !! d = Some ids → ids ≠ [];
  bucket_NoDup :
    ∀ d, NoDup (bucket db d)
}.

(** ** The real value of a [float]

    Vocabulary for the accuracy of the embedder: the real number a
    binary32 float stands for, and the floats that hold bucket counts. *)

Section RealValues.

Local Open Scope R_scope.

(** [2^e] *)
Definition bpow (e : Z) : R := powerRZ 2 e.

Definition val (x : spec_float) : R :=
  match x with
  | S754_finite s m e => (if s then -1 else 1) * IZR (Z.pos m) * bpow e
  | _ => 0
  end.

Definition exponent (x : spec_float) : Z :=
  match x with
  | S754_finite _ _ e => e
  | _ => 0%Z
  end.

(** A positive normal binary32 number: 24 significant bits, exponent in
    range. *)
Definition pos_normal (x : spec_float) : Prop :=
  ∃ m e, x = S754_finite false m e
         ∧ Z.pos (digits2_pos m) = 24%Z ∧ (-149 ≤ e ≤ 104)%Z.

(** The relative error of one rounded operation is at most [eps]. *)
Definition eps : R := bpow (-23).

(** The float that holds the bucket count [k]; a count saturates at
    [2^24], where adding [1.0f] no longer changes the float. *)
Definition natfloat (k : Z) (x : spec_float) : Prop :=
  (k = 0%Z ∧ x = F32.zero)
  ∨ ((1 ≤ k ≤ 2 ^ 24)%Z ∧ pos_normal x ∧ val x = IZR k).

(** The count after one more token, and the integer sum of squares of a
    vector of counts. *)
Definition bump_z (k : Z) : Z := Z.min (k + 1) (2 ^ 24).

Definition sumsq_z (ks : list Z) : Z := foldr (λ k a, (k * k + a)%Z) 0%Z ks.

(** The running sum of squares after [n] components whose integer
    squares add up to [S]. *)
Definition sum_inv (S : Z) (n : nat) (acc : spec_float) : Prop :=
  (0 ≤ S ≤ Z.of_nat n * 2 ^ 48)%Z
  ∧ ((S = 0%Z ∧ acc = F32.zero)
     ∨ ((1 ≤ S)%Z ∧ pos_normal acc
        ∧ IZR S * (1 - eps) ^ n <= val acc <= IZR S * (1 + eps) ^ n)).

(** The squared L2 norm and the L2 norm of a vector of floats, as real
    numbers. *)
Definition sq_sum (l : list spec_float) : R :=
  foldr (λ v a, val v * val v + a) 0 l.

Definition l2_norm (l : list spec_float) : R := sqrt (sq_sum l).

End RealValues.

(** ** Sample data for the instances given with the theorems *)

Definition sample_ops : list store_op :=
  [ mkOp "c1" "d1" "cat sat on mat" JNull [F32.one; F32.zero];
    mkOp "c2" "d1" "dog ran in park" JNull [F32.zero; F32.one] ].

Definition sample_two_docs : list store_op :=
  [ mkOp "c1" "d1" "cat sat on mat" JNull [F32.one; F32.zero];
    mkOp "c2" "d2" "dog ran in park" JNull [F32.zero; F32.one] ].

Definition sample_empty_doc : list store_op :=
  [ mkOp "c1" "" "cat sat on mat" JNull [F32.one; F32.zero] ].

Definition sample_mixed_docs : list store_op :=
  [ mkOp "c1" "" "cat sat on mat" JNull [F32.one; F32.zero];
    mkOp "c2" "d2" "dog ran in park" JNull [F32.zero; F32.one] ].

(** Four chunks of one document with the one-component embeddings 1,
    NaN, 3 and 2. *)
Definition sample_nan_scores : list store_op :=
  [ mkOp "c1" "d" "one" JNull [F32.one];
    mkOp "c2" "d" "not a number" JNull [S754_nan];
    mkOp "c3" "d" "three" JNull [S754_finite false 12582912 (-22)];
    mkOp "c4" "d" "two" JNull [S754_finite false 8388608 (-22)] ].

Definition sample_old : VectorEntry :=
  mkVectorEntry "c1" "d1" "cat sat on mat" JNull [F32.one; F32.zero].

(** Two implementations of [std::sort], used in the instances. The
    first sorts by insertion from the back. The second is libstdc++'s
    [std::__insertion_sort], which is all that its [std::sort] runs on
    a vector of at most 16 elements: each element in turn goes to the
    front when the comparator puts it before the first element, and is
    otherwise moved to the left past the elements the comparator puts
    it before ([std::__unguarded_linear_insert]). *)
Fixpoint insert_desc {B} (x : F32.float * B) (l : list (F32.float * B))
    : list (F32.float * B) :=
  match l with
  | [] => [x]
  | y :: l' => if F32.gt x.1 y.1 then x :: l else y :: insert_desc x l'
  end.

Definition insertion_sort {B} (l : list (F32.float * B))
    : list (F32.float * B) :=
  foldr insert_desc [] l.

(** [left] holds the elements to the left of the hole, nearest first;
    the result is in the same order. *)
Fixpoint unguarded_linear_insert {B} (val : F32.float * B)
    (left : list (F32.float * B)) : list (F32.float * B) :=
  match left with
  | next :: left' =>
      if F32.gt val.1 next.1
      then next :: unguarded_linear_insert val left'
      else val :: left
  | [] => [val]
  end.

Definition linear_insert {B} (sorted : list (F32.float * B))
    (val : F32.float * B) : list (F32.float * B) :=
  match sorted with
  | first :: _ =>
      if F32.gt val.1 first.1 then val :: sorted
      else rev (unguarded_linear_insert val (rev sorted))
  | [] => [val]
  end.

Definition libstdcxx_insertion_sort {B} (l : list (F32.float * B))
    : list (F32.float * B) :=
  fold_left linear_insert l [].

(** The sort the instances run with, unless they name another. *)
#[export] Instance sample_std_sort : StdSort := insertion_sort.

(** Stand-ins for what lies outside the repository ([std::hash],
    [json::parse], [json::dump]), used only in the instances: a string
    hash, a parser that knows one document, and a serialiser that prints
    the kind of the value. *)
Definition sample_hash (s : string) : N := N.of_nat (String.length s).

Definition sample_search_request : json :=
  JObject [("action", JString "search"); ("query", JString "cat")].

Definition sample_store_request : json :=
  JObject [("action", JString "store"); ("chunk_id", JString "c1");
           ("doc_id", JString "d1"); ("text", JString "cat sat on mat")].

Definition sample_parse (s : string) : result json :=
  if bool_decide (s = "{}") then Ok (JObject [])
  else Throw (parse_error "syntax error while parsing value").

Definition sample_dump (j : json) : result string := Ok (Json.type_name j).

(** Three frames: a declared length of 0, a declared length of 11 MiB, and
    a one-byte body that is no JSON text. *)
Definition frame_length_zero : list Byte.byte :=
  [Byte.x00; Byte.x00; Byte.x00; Byte.x00].

Definition frame_length_11MiB : list Byte.byte :=
  [Byte.x00; Byte.xb0; Byte.x00; Byte.x00].

Definition frame_not_json : list Byte.byte :=
  [Byte.x00; Byte.x00; Byte.x00; Byte.x01; Byte.x78].

Definition frame_empty_object : list Byte.byte :=
  [Byte.x00; Byte.x00; Byte.x00; Byte.x02; Byte.x7b; Byte.x7d].

(** The bytes of one message on the wire: the 4-byte header, then the
    payload. *)
Definition frame (msg : string) : list Byte.byte :=
  Server.encode_length (String.length msg) ++ list_byte_of_string msg.

(** A store request whose chunk_id is a number, and a stand-in parser
    that knows three request bodies. *)
Definition sample_bad_store_request : json :=
  JObject [("action", JString "store"); ("chunk_id", JInt 1);
           ("doc_id", JString "d1"); ("text", JString "cat sat on mat")].

Definition sample_parse_requests (s : string) : result json :=
  if bool_decide (s = "store") then Ok sample_store_request
  else if bool_decide (s = "search") then Ok sample_search_request
  else if bool_decide (s = "bad") then Ok sample_bad_store_request
  else Throw (parse_error "syntax error while parsing value").

(** A body that is no UTF-8 text; a stand-in parser whose message quotes
    what it read, as the message of [json::parse] does; and a stand-in
    serialiser that, as [dump] does, throws on a string that holds a
    byte no UTF-8 text has (here the byte 0xFF). *)
Definition body_not_utf8 : string := string_of_list_byte [Byte.xff].

Definition sample_quoting_parse (s : string) : result json :=
  Throw (parse_error ("invalid literal; last read: '" +:+ s +:+ "'")).

Definition sample_utf8_dump (j : json) : result string :=
  match j with
  | JObject [(_, JString _); (_, JString message)] =>
      if existsb (Byte.eqb Byte.xff) (list_byte_of_string message)
      then Throw (type_error "invalid UTF-8 byte")
      else Ok "object"
  | _ => Ok (Json.type_name j)
  end.

(** The entry a call of [store] writes, and the calls still in effect
    after a sequence of calls: for each chunk_id the last call that
    names it, in the order of these last calls. *)
Definition entry_of (op : store_op) : VectorEntry :=
  mkVectorEntry (op_chunk_id op) (op_doc_id op) (op_text op)
                (op_metadata op) (op_embedding op).

Fixpoint live (ops : list store_op) : list store_op :=
  match ops with
  | [] => []
  | op :: rest =>
      if bool_decide (op_chunk_id op ∈ op_chunk_id <$> rest)
      then live rest
      else op :: live rest
  end.

(** A text with every character lower-cased. *)
Fixpoint lower (s : string) : string :=
  match s with
  | EmptyString => EmptyString
  | String c rest => String (tolower c) (lower rest)
  end.

(** ** Vocabulary for the score of a text against itself *)

Section SimilarityValues.

Local Open Scope R_scope.

(** The running sum [sum += a[i] * b[i]] of a vector with itself: after
    [n] components whose real squares add up to [S], the float [acc] is
    [S] up to [n] roundings. *)
Definition rsum_inv (S : R) (n : nat) (acc : spec_float) : Prop :=
  (S = 0 ∧ acc = F32.zero)
  ∨ (0 < S ∧ (1 ≤ n)%nat ∧ pos_normal acc
     ∧ S * (1 - eps) ^ n <= val acc <= S * (1 + eps) ^ n).

(** A component of a normalised embedding: zero, or a positive normal
    float that is neither tiny nor huge. *)
Definition component (v : spec_float) : Prop :=
  v = F32.zero ∨ (pos_normal v ∧ (-60 ≤ exponent v ≤ 10)%Z).

(** The running sum [sum += a[i] * b[i]] of two embeddings: after [n]
    components the float [acc] is zero or a positive normal number, far
    below the overflow threshold. *)
Definition dsum_inv (n : nat) (acc : spec_float) : Prop :=
  acc = F32.zero
  ∨ (pos_normal acc ∧ val acc <= INR n * bpow 69 * (1 + eps) ^ n).

End SimilarityValues.

(** Every stored embedding is the embedding of the stored text. *)
Definition embedded (hash : string → N) (db : VectorDB) : Prop :=
  ∀ c e, entries_ db !! c = Some e → embedding e = embed hash (text e).

(** ** main.cpp

    [main] reads the command line, builds the [Server] and calls
    [Server::run], which sets up the listening socket and enters the
    accept loop. *)

(** What the loop over [argv] arrives at. *)
Inductive cmdline : Type :=
| Usage                              (* the usage line is printed, [return 1] *)
| BadPort                            (* [std::stoi] throws *)
| Config (host : string) (port : Z). (* the loop is left normally *)

(** How the process ends. [std::stoi] is called outside the [try] block
    of [main]: what it throws reaches no handler and the process is
    terminated. *)
Inductive outcome : Type :=
| Exit (code : Z)   (* [main] returns *)
| Terminated        (* an uncaught exception: [std::terminate] *)
| Signalled         (* SIGPIPE in a [write]: the process is killed *)
| Serving.          (* the events are used up: the loop waits in select *)

Section Main.

Context `{std : !StdSort}.

Variable hash : string → N.
Variable parse : string → result json.
Variable dump : json → result string.

(** [std::stoi]: the [int] the string starts with, or nothing when it
    throws ([std::invalid_argument], [std::out_of_range]). *)
Variable stoi : string → option Z.

(** [Server::setup_socket] for a host and a port: what the operating
    system makes of [socket], [getaddrinfo], [bind] and [listen]; a
    failure is thrown as a [std::runtime_error], whose text is given. *)
Variable setup_socket : string → Z → option string.

(** The loop [for (int i = 1; i < argc; ++i)], on the arguments after
    [argv[0]]. *)
Fixpoint parse_args (argv : list string) (host : string) (port : Z)
    : cmdline :=
  match argv with
  | [] => Config host port
  | arg :: rest =>
      match rest with
      | value :: rest' =>
          if bool_decide (arg = "--host") then parse_args rest' value port
          else if bool_decide (arg = "--port") then
            match stoi value with
            | Some p => parse_args rest' host p
            | None => BadPort
            end
          else Usage
      | [] => Usage
      end
  end.

(** [Server server(host, port); server.run();] on a fresh store. *)
Definition server_run (host : string) (port : Z) (events : list event)
    : Run :=
  match setup_socket host port with
  | Some failure => mkRun (Fatal (runtime_error failure)) VectorDB.empty []
  | None => run hash parse dump events VectorDB.empty
  end.

Definition main (argv : list string) (events : list event) : outcome :=
  match parse_args argv "localhost" 50051 with
  | Usage => Exit 1
  | BadPort => Terminated
  | Config host port =>
      match run_status (server_run host port events) with
      | ShutDown => Exit 0
      | Fatal _ => Exit 1
      | Killed => Signalled
      | Accepting => Serving
      end
  end.

End Main.

(** Stand-ins for [std::stoi] and for the operating system, used only
    in the instances. *)
Definition sample_stoi (s : string) : option Z :=
  if bool_decide (s = "8080") then Some 8080 else None.

Definition sample_setup_socket (host : string) (port : Z) : option string :=
  None.

(* ===================================================================== *)
(** * Part II: properties                                                 *)
(* ===================================================================== *)

(** ** The store: [VectorDB::store] keeps the two maps consistent *)

Section StoreInvariant.

Implicit Types (db : VectorDB) (cid did d c : string).

Lemma erase_remove_elem cid (ids : list string) c :
  c ∈ VectorDB.erase_remove cid ids ↔ c ≠ cid ∧ c ∈ ids.
Proof. unfold VectorDB.erase_remove. by rewrite list_elem_of_filter. Qed.

Lemma erase_remove_absent cid (ids : list string) :
  cid ∉ ids → VectorDB.erase_remove cid ids = ids.
Proof.
  intros Hn. unfold VectorDB.erase_remove.
  induction ids as [|x ids IH]; [done|].
  rewrite filter_cons. apply not_elem_of_cons in Hn as [Hx Hids].
  rewrite decide_True by congruence. by rewrite IH.
Qed.

Lemma bucket_lookup db d ids :
  doc_index_ db !! d = Some ids → bucket db d = ids.
Proof. unfold bucket. by intros ->. Qed.

Lemma bucket_nil_lookup db d :
  consistent db → bucket db d = [] → doc_index_ db !! d = None.
Proof.
  intros Hc Hb. unfold bucket in Hb.
  destruct (doc_index_ db !! d) as [ids|] eqn:E; [|done].
  simpl in Hb. subst. by apply (no_empty_bucket _ Hc) in E.
Qed.

(** Under the invariant, the first half of [store] removes [cid] from
    every bucket and leaves no empty bucket behind. *)
Lemma unlink_old_lookup db cid d :
  consistent db →
  VectorDB.unlink_old cid db !! d =
    match VectorDB.erase_remove cid (bucket db d) with
    | [] => None
    | ids => Some ids
    end.
Proof.
  intros Hc. unfold VectorDB.unlink_old.
  assert (Hother : ∀ d', cid ∉ bucket db d' →
            doc_index_ db !! d' =
              match VectorDB.erase_remove cid (bucket db d') with
              | [] => None
              | ids => Some ids
              end).
  { intros d' Hn. rewrite erase_remove_absent by done.
    unfold bucket. destruct (doc_index_ db !! d') as [ids|] eqn:E; [|done].
    simpl. destruct ids; [by apply (no_empty_bucket _ Hc) in E|done]. }
  destruct (entries_ db !! cid) as [it|] eqn:Hit.
  - fold (bucket db (doc_id it)).
    destruct (decide (d = doc_id it)) as [->|Hne].
    + destruct (VectorDB.erase_remove cid (bucket db (doc_id it))) eqn:E.
      * by rewrite lookup_delete_eq.
      * by rewrite lookup_insert_eq.
    + assert (cid ∉ bucket db d) as Hn.
      { intros Hin. destruct (index_sound _ Hc _ _ Hin) as (e & He & Hd).
        congruence. }
      destruct (VectorDB.erase_remove cid (bucket db (doc_id it))) eqn:E.
      * rewrite lookup_delete_ne by done. by apply Hother.
      * rewrite lookup_insert_ne by done. by apply Hother.
  - apply Hother. intros Hin.
    destruct (index_sound _ Hc _ _ Hin) as (e & He & _). congruence.
Qed.

Lemma bucket_store db cid did txt meta emb d :
  consistent db →
  bucket (VectorDB.store cid did txt meta emb db) d =
    VectorDB.erase_remove cid (bucket db d)
    ++ (if decide (d = did) then [cid] else []).
Proof.
  intros Hc. unfold bucket at 1. simpl.
  destruct (decide (d = did)) as [->|Hne].
  - rewrite lookup_insert_eq. simpl. rewrite unlink_old_lookup by done.
    by destruct (VectorDB.erase_remove cid (bucket db did)).
  - rewrite lookup_insert_ne by done. rewrite unlink_old_lookup by done.
    rewrite app_nil_r.
    by destruct (VectorDB.erase_remove cid (bucket db d)).
Qed.

Lemma doc_index_store db cid did txt meta emb d :
  consistent db →
  doc_index_ (VectorDB.store cid did txt meta emb db) !! d =
    match bucket (VectorDB.store cid did txt meta emb db) d with
    | [] => None
    | ids => Some ids
    end.
Proof.
  intros Hc. rewrite bucket_store by done. simpl.
  destruct (decide (d = did)) as [->|Hne].
  - rewrite lookup_insert_eq. rewrite unlink_old_lookup by done.
    by destruct (VectorDB.erase_remove cid (bucket db did)).
  - rewrite lookup_insert_ne by done. rewrite unlink_old_lookup by done.
    rewrite app_nil_r.
    by destruct (VectorDB.erase_remove cid (bucket db d)).
Qed.

Lemma consistent_empty : consistent VectorDB.empty.
Proof.
  split; unfold bucket; simpl.
  - intros c e. by rewrite lookup_empty.
  - intros d c. rewrite lookup_empty. simpl. by intros ?%elem_of_nil.
  - intros c e. by rewrite lookup_empty.
  - intros d ids. by rewrite lookup_empty.
  - intros d. rewrite lookup_empty. constructor.
Qed.

Lemma consistent_store db cid did txt meta emb :
  consistent db → consistent (VectorDB.store cid did txt meta emb db).
Proof.
  intros Hc. split.
  - intros c e. simpl. destruct (decide (c = cid)) as [->|Hne].
    + rewrite lookup_insert_eq. by intros [= <-].
    + rewrite lookup_insert_ne by done. apply (key_is_chunk_id _ Hc).
  - intros d c. rewrite bucket_store by done.
    rewrite elem_of_app, erase_remove_elem. intros [[Hne Hin]|Hin].
    + destruct (index_sound _ Hc _ _ Hin) as (e & He & Hd).
      exists e. simpl. by rewrite lookup_insert_ne.
    + destruct (decide (d = did)) as [->|]; [|by apply elem_of_nil in Hin].
      apply list_elem_of_singleton in Hin as ->.
      eexists. simpl. by rewrite lookup_insert_eq.
  - intros c e. simpl. rewrite bucket_store by done.
    rewrite elem_of_app, erase_remove_elem.
    destruct (decide (c = cid)) as [->|Hne].
    + rewrite lookup_insert_eq. intros [= <-]. simpl. right.
      rewrite decide_True by done. apply list_elem_of_singleton. done.
    + rewrite lookup_insert_ne by done. intros He. left.
      split; [done|]. by apply (index_complete _ Hc).
  - intros d ids. rewrite doc_index_store by done.
    destruct (bucket (VectorDB.store cid did txt meta emb db) d); [done|].
    by intros [= <-].
  - intros d. rewrite bucket_store by done. apply NoDup_app. split_and!.
    + apply NoDup_filter, (bucket_NoDup _ Hc).
    + intros c [Hne _]%erase_remove_elem Hin.
      destruct (decide (d = did)); [|by apply elem_of_nil in Hin].
      by apply list_elem_of_singleton in Hin.
    + destruct (decide (d = did)); [apply NoDup_singleton|constructor].
Qed.

Lemma after_snoc ops op : after (ops ++ [op]) = apply_op (after ops) op.
Proof. unfold after. by rewrite fold_left_app. Qed.

Lemma consistent_after ops : consistent (after ops).
Proof.
  induction ops as [|op ops IH] using rev_ind.
  - apply consistent_empty.
  - rewrite after_snoc. by apply consistent_store.
Qed.

End StoreInvariant.

(** Under the invariant a chunk_id is the [chunk_id] field of at most one
    stored entry: the one it keys. *)
Lemma entries_with_chunk_id_lookup (db : VectorDB) (c : string) :
  consistent db →
  entries_with_chunk_id db c =
    match entries_ db !! c with
    | Some e => [(c, e)]
    | None => []
    end.
Proof.
  intros Hc.
  assert (Hnd : NoDup (entries_with_chunk_id db c)).
  { apply NoDup_filter, NoDup_map_to_list. }
  assert (Hin : ∀ kv, kv ∈ entries_with_chunk_id db c ↔
                      kv.1 = c ∧ entries_ db !! c = Some kv.2).
  { intros [k e]. unfold entries_with_chunk_id.
    rewrite list_elem_of_filter, elem_of_map_to_list. simpl. split.
    - intros [Hk He]. pose proof (key_is_chunk_id _ Hc _ _ He). by subst.
    - intros [-> He]. split; [|done]. by apply (key_is_chunk_id _ Hc). }
  destruct (entries_ db !! c) as [e|] eqn:He.
  - apply Permutation_singleton_r, NoDup_Permutation;
      [done|apply NoDup_singleton|].
    intros [k e']. rewrite Hin, list_elem_of_singleton. simpl.
    split; [by intros [-> [= ->]]|by intros [= -> ->]].
  - apply elem_of_nil_inv. intros kv [_ ?]%Hin. done.
Qed.

(** C3. After every sequence of store operations: a chunk_id is carried
    by at most one entry; every chunk_id listed in the doc index under a
    doc_id has an entry whose [doc_id] field is that doc_id; no bucket of
    the doc index is empty. Storing a chunk_id that is already present
    overwrites its entry (exactly one entry carries the chunk_id, the
    number of entries is unchanged); when the doc_id is a different one,
    the chunk_id leaves the old bucket, the old bucket is erased exactly
    when nothing else was in it, and the chunk_id is appended to the
    bucket of the new doc_id. *)
Theorem store_keeps_index_consistent (ops : list store_op) :
  let db := after ops in
  (∀ c, length (entries_with_chunk_id db c) ≤ 1)%nat
  ∧ (∀ d ids c, doc_index_ db !! d = Some ids → c ∈ ids →
       ∃ e, entries_ db !! c = Some e ∧ doc_id e = d)
  ∧ (∀ d ids, doc_index_ db !! d = Some ids → ids ≠ [])
  ∧ (∀ cid did txt meta emb old,
       entries_ db !! cid = Some old →
       let db' := VectorDB.store cid did txt meta emb db in
       entries_with_chunk_id db' cid = [(cid, mkVectorEntry cid did txt meta emb)]
       ∧ size (entries_ db') = size (entries_ db)
       ∧ (doc_id old ≠ did →
          cid ∈ bucket db (doc_id old)
          ∧ (cid ∉ bucket db' (doc_id old))
          ∧ (doc_index_ db' !! doc_id old = None ↔ bucket db (doc_id old) = [cid])
          ∧ bucket db' did = bucket db did ++ [cid])).
Proof.
  intros db. pose proof (consistent_after ops) as Hc. fold db in Hc.
  split_and!.
  - intros c. rewrite entries_with_chunk_id_lookup by done.
    destruct (entries_ db !! c); simpl; lia.
  - intros d ids c Hd Hin. apply (index_sound _ Hc).
    by rewrite (bucket_lookup _ _ _ Hd).
  - apply (no_empty_bucket _ Hc).
  - intros cid did txt meta emb old Hold db'.
    assert (Hc' : consistent db') by by apply consistent_store.
    split_and!.
    + rewrite entries_with_chunk_id_lookup by done.
      unfold db'. simpl. by rewrite lookup_insert_eq.
    + unfold db'. simpl. by eapply map_size_insert_Some.
    + intros Hne.
      assert (Hold_in : cid ∈ bucket db (doc_id old))
        by (by apply (index_complete _ Hc)).
      assert (Hnew_out : cid ∉ bucket db did).
      { intros Hin. destruct (index_sound _ Hc _ _ Hin) as (e & He & Hd).
        congruence. }
      assert (Hb : bucket db' (doc_id old)
                   = VectorDB.erase_remove cid (bucket db (doc_id old))).
      { unfold db'. rewrite bucket_store by done.
        rewrite decide_False by done. by rewrite app_nil_r. }
      split_and!.
      * done.
      * rewrite Hb, erase_remove_elem. by intros [? _].
      * unfold db'. rewrite doc_index_store by done. fold db'. rewrite Hb.
        split.
        -- intros Hnone.
           assert (Hnil : VectorDB.erase_remove cid (bucket db (doc_id old)) = []).
           { by destruct (VectorDB.erase_remove cid (bucket db (doc_id old))). }
           pose proof (bucket_NoDup _ Hc (doc_id old)) as Hnd.
           apply Permutation_singleton_r, NoDup_Permutation;
             [done|apply NoDup_singleton|].
           intros c. rewrite list_elem_of_singleton. split; [|by intros ->].
           intros Hin. destruct (decide (c = cid)) as [|Hcne]; [done|].
           assert (c ∈ VectorDB.erase_remove cid (bucket db (doc_id old)))
             as Hin' by (by apply erase_remove_elem).
           rewrite Hnil in Hin'. by apply elem_of_nil in Hin'.
        -- intros ->. unfold VectorDB.erase_remove.
           rewrite filter_cons, decide_False by (intros ?; done). done.
      * unfold db'. rewrite bucket_store by done.
        rewrite decide_True by done. by rewrite erase_remove_absent.
Qed.

(** An instance of C3: "c1" and "c2" are stored under "d1", then "c1" is
    stored again under "d2". *)
Lemma store_keeps_index_consistent_witness :
  entries_ (after sample_ops) !! "c1" = Some sample_old
  ∧ doc_id sample_old ≠ "d2"
  ∧ ("c1" ∉ bucket (VectorDB.store "c1" "d2" "cat" JNull [] (after sample_ops)) "d1")
  ∧ bucket (VectorDB.store "c1" "d2" "cat" JNull [] (after sample_ops)) "d2"
    = bucket (after sample_ops) "d2" ++ ["c1"].
Proof.
  assert (H1 : entries_ (after sample_ops) !! "c1" = Some sample_old)
    by (vm_compute; reflexivity).
  assert (H2 : doc_id sample_old ≠ "d2") by (simpl; discriminate).
  split; [exact H1|]. split; [exact H2|].
  destruct (store_keeps_index_consistent sample_ops) as (_ & _ & _ & H).
  destruct (H "c1" "d2" "cat" JNull [] sample_old H1) as (_ & _ & H3).
  destruct (H3 H2) as (_ & H4 & _ & H5).
  split; [exact H4|exact H5].
Defined.

(** ** Order of the scores *)

Section FloatOrder.

Local Ltac order_cases :=
  repeat match goal with
    | |- context [Z.compare ?a ?b] => destruct (Z.compare_spec a b)
    | |- context [Pos.compare ?a ?b] => destruct (Pos.compare_spec a b)
    end;
  simpl; try done; try lia.

Lemma SFltb_trans (x y z : spec_float) :
  SFltb x y = true → SFltb y z = true → SFltb x z = true.
Proof.
  unfold SFltb, SFcompare.
  destruct x as [sx|sx| |sx mx ex], y as [sy|sy| |sy my ey],
           z as [sz|sz| |sz mz ez];
    try destruct sx; try destruct sy; try destruct sz; simpl; try done.
  all: change (Pos.compare_cont Eq) with Pos.compare.
  all: order_cases.
Qed.

Lemma SFltb_irrefl (x : spec_float) : SFltb x x = false.
Proof.
  unfold SFltb, SFcompare.
  destruct x as [sx|sx| |sx mx ex]; try destruct sx; simpl; try done.
  all: change (Pos.compare_cont Eq) with Pos.compare.
  all: rewrite Z.compare_refl, Pos.compare_refl; done.
Qed.

Lemma gt_trans (a b c : F32.float) :
  F32.gt a b = true → F32.gt b c = true → F32.gt a c = true.
Proof. unfold F32.gt. intros H1 H2. by apply (SFltb_trans c b a). Qed.

Lemma gt_asym (a b : F32.float) : F32.gt a b = true → F32.gt b a = false.
Proof.
  intros H. destruct (F32.gt b a) eqn:E; [|done].
  pose proof (gt_trans _ _ _ H E) as Hr. unfold F32.gt in Hr.
  by rewrite SFltb_irrefl in Hr.
Qed.

End FloatOrder.

(** ** The search: scoring, ranking, truncation *)

Section Ranking.

Context {B : Type}.
Implicit Types (x y : F32.float * B) (l : list (F32.float * B)).

Lemma insert_desc_Permutation x l : insert_desc x l ≡ₚ x :: l.
Proof.
  induction l as [|y l IH]; simpl; [done|].
  destruct (F32.gt x.1 y.1); [done|].
  rewrite IH. apply Permutation_swap.
Qed.

Lemma insertion_sort_Permutation l : insertion_sort l ≡ₚ l.
Proof.
  induction l as [|x l IH]; simpl; [done|].
  by rewrite insert_desc_Permutation, IH.
Qed.

Lemma insert_desc_sorted x l :
  StronglySorted score_not_below l →
  StronglySorted score_not_below (insert_desc x l).
Proof.
  induction 1 as [|y l Hl IH Hy]; simpl.
  - repeat constructor.
  - destruct (F32.gt x.1 y.1) eqn:Hxy.
    + constructor; [by constructor|].
      constructor; [by apply gt_asym|].
      eapply Forall_impl; [exact Hy|]. intros z Hz.
      unfold score_not_below in *.
      destruct (F32.gt z.1 x.1) eqn:Hzx; [|done].
      by rewrite (gt_trans _ _ _ Hzx Hxy) in Hz.
    + constructor; [done|].
      rewrite insert_desc_Permutation. by constructor.
Qed.

Lemma insertion_sort_sorted l : StronglySorted score_not_below (insertion_sort l).
Proof.
  induction l as [|x l IH]; simpl; [constructor|by apply insert_desc_sorted].
Qed.

Lemma StronglySorted_take (R : relation (F32.float * B)) n l :
  StronglySorted R l → StronglySorted R (take n l).
Proof.
  intros H. rewrite <- (take_drop n l) in H.
  by apply StronglySorted_app_1_l in H.
Qed.

End Ranking.

(** The insertion sort meets the contract of [std::sort] (and sorts
    whatever the scores are). *)
#[export] Instance sample_std_sort_spec : @StdSortSpec sample_std_sort.
Proof.
  split.
  - apply insertion_sort_Permutation.
  - intros l _. apply insertion_sort_sorted.
Qed.

Section SearchFacts.

Context `{std : !StdSort, std_spec : !StdSortSpec}.

Implicit Types (q : list F32.float) (db : VectorDB) (top_k : Z).

Lemma to_int_small (z : Z) : is_int z → Json.to_int z = z.
Proof.
  unfold is_int, Json.to_int. intros H.
  rewrite Z.mod_small by lia. lia.
Qed.

Lemma to_int_range (z : Z) : is_int (Json.to_int z).
Proof.
  unfold is_int, Json.to_int.
  pose proof (Z.mod_pos_bound (z + 2 ^ 31) (2 ^ 32) ltac:(lia)). lia.
Qed.

(** What [dot_product] computes depends on the two vectors only up to
    the length of the shorter one. *)
Lemma dot_product_shorter (a b : list F32.float) :
  let n := Nat.min (length a) (length b) in
  VectorDB.dot_product a b = VectorDB.dot_product (take n a) (take n b).
Proof.
  intros n. unfold VectorDB.dot_product.
  rewrite !length_take. fold n.
  replace (Nat.min (n `min` length a) (n `min` length b)) with n
    by (unfold n; lia).
  assert (Hgen : ∀ (l : list nat) acc,
    Forall (λ i, i < n)%nat l →
    fold_left (λ sum i, F32.add sum
                 (F32.mul (nth i a F32.zero) (nth i b F32.zero))) l acc
    = fold_left (λ sum i, F32.add sum
                   (F32.mul (nth i (take n a) F32.zero)
                            (nth i (take n b) F32.zero))) l acc).
  { induction l as [|i l IH]; intros acc Hl; [done|].
    apply Forall_cons in Hl as [Hi Hl]. simpl.
    rewrite IH by done. do 3 f_equal.
    - rewrite !nth_lookup. by rewrite lookup_take_lt.
    - rewrite !nth_lookup. by rewrite lookup_take_lt. }
  apply Hgen. apply Forall_forall. intros i Hi.
  apply elem_of_seq in Hi. lia.
Qed.

Lemma search_elem q top_k f db r :
  r ∈ VectorDB.search q top_k f db →
  ∃ p, p ∈ VectorDB.scored_candidates q f db ∧ r = VectorDB.to_result p.
Proof.
  unfold VectorDB.search. intros Hr.
  apply list_elem_of_fmap in Hr as (p & -> & Hp).
  exists p. split; [|done].
  apply subseteq_take in Hp. by rewrite std_sort_Permutation in Hp.
Qed.

Lemma scored_candidates_score q f db p :
  p ∈ VectorDB.scored_candidates q f db →
  p.1 = VectorDB.dot_product q (embedding p.2).
Proof.
  unfold VectorDB.scored_candidates.
  destruct (negb (bool_decide (f = ""))).
  - destruct (doc_index_ db !! f) as [ids|]; [|by intros ?%elem_of_nil].
    intros (cid & _ & H)%list_elem_of_omap.
    destruct (entries_ db !! cid); simpl in H; [|done].
    by injection H as <-.
  - intros (kv & -> & _)%list_elem_of_fmap. done.
Qed.

Lemma search_sorted q top_k f db :
  Forall (λ p, F32.is_nan p.1 = false) (VectorDB.scored_candidates q f db) →
  sorted_desc (VectorDB.search q top_k f db).
Proof.
  intros Hnan. unfold sorted_desc, VectorDB.search.
  apply (StronglySorted_fmap _ score_not_below); [by intros ??|].
  by apply StronglySorted_take, std_sort_sorted.
Qed.

Lemma search_length q top_k f db :
  (length (VectorDB.search q top_k f db) ≤ Z.to_nat top_k)%nat.
Proof.
  unfold VectorDB.search. rewrite length_fmap, length_take. lia.
Qed.

Lemma search_all q top_k f db :
  is_int top_k →
  Z.of_nat (length (VectorDB.scored_candidates q f db)) ≤ top_k →
  VectorDB.search q top_k f db
  ≡ₚ VectorDB.to_result <$> VectorDB.scored_candidates q f db.
Proof.
  intros Hint Hk. unfold VectorDB.search.
  pose proof (std_sort_Permutation (VectorDB.scored_candidates q f db)) as Hp.
  pose proof (Permutation_length Hp) as Hlen.
  rewrite to_int_small by (unfold is_int in *; lia).
  rewrite take_ge by lia. by rewrite Hp.
Qed.

(** [dot_product] as one pass over the pairs of components: the loop
    stops with the shorter vector. *)
Lemma dot_product_zip (a b : list F32.float) :
  VectorDB.dot_product a b
  = fold_left (λ sum xy, F32.add sum (F32.mul xy.1 xy.2)) (zip a b) F32.zero.
Proof.
  unfold VectorDB.dot_product.
  assert (Hgen : ∀ (a b pa pb : list F32.float) acc,
    length pa = length pb →
    fold_left (λ sum i, F32.add sum
                 (F32.mul (nth i (pa ++ a) F32.zero)
                          (nth i (pb ++ b) F32.zero)))
      (seq (length pa) (Nat.min (length a) (length b))) acc
    = fold_left (λ sum xy, F32.add sum (F32.mul xy.1 xy.2)) (zip a b) acc).
  { clear a b. induction a as [|x a IH]; intros b pa pb acc Hlen; [done|].
    destruct b as [|y b]; [done|].
    cbn [length Nat.min seq fold_left zip zip_with fst snd].
    rewrite (nth_middle pa).
    replace (nth (length pa) (pb ++ y :: b) F32.zero) with y
      by (rewrite Hlen; symmetry; apply nth_middle).
    specialize (IH b (pa ++ [x]) (pb ++ [y])
                  (F32.add acc (F32.mul x y))).
    rewrite <- !app_assoc, !length_app in IH. cbn [length app] in IH.
    rewrite Nat.add_1_r in IH. apply IH. lia. }
  exact (Hgen a b [] [] F32.zero eq_refl).
Qed.

(** The candidates of a search: every entry when the filter is empty,
    and otherwise the entries found for the chunk_ids of the bucket of
    the filter, in the order of the bucket. *)
Lemma unfiltered_candidates q db :
  (VectorDB.scored_candidates q "" db).*2 = (map_to_list (entries_ db)).*2.
Proof.
  unfold VectorDB.scored_candidates. simpl.
  by rewrite <- list_fmap_compose.
Qed.

Lemma filtered_candidates q f db :
  f ≠ "" →
  (VectorDB.scored_candidates q f db).*2
  = omap (λ cid, entries_ db !! cid) (bucket db f).
Proof.
  intros Hf. unfold VectorDB.scored_candidates, bucket.
  rewrite bool_decide_eq_false_2 by done. cbn [negb].
  destruct (doc_index_ db !! f) as [ids|]; [|done]. simpl.
  induction ids as [|cid ids IH]; [done|].
  cbn [omap list_omap].
  destruct (entries_ db !! cid) as [e|];
    cbn [fmap option_fmap option_map]; [|exact IH].
  rewrite fmap_cons. f_equal. exact IH.
Qed.

End SearchFacts.

(** C6. For every search, with a [std::sort] that keeps its contract.
    The candidates are all the entries when the filter is empty, and
    the entries of the bucket of the filter otherwise; the score of a
    candidate is the dot product of the query embedding and the
    candidate's stored embedding, one pass over the pairs of components
    that stops with the shorter vector. Every result is a candidate
    with its score; there are at most [top_k] results; [top_k <= 0]
    gives the empty list; an [int] [top_k] that is at least the number
    of candidates gives all the candidates; the empty store gives the
    empty list. The results are sorted by score, descending, when no
    score is a NaN (a score that is a NaN voids the contract of
    [std::sort]: see the counterexample below). *)
Theorem search_ranks_and_truncates `{std : !StdSort, std_spec : !StdSortSpec}
    (q : list F32.float) (top_k : Z) (f : string) (db : VectorDB) :
  let results := VectorDB.search q top_k f db in
  let scored := VectorDB.scored_candidates q f db in
  (f = "" → scored.*2 = (map_to_list (entries_ db)).*2)
  ∧ (f ≠ "" → scored.*2 = omap (λ cid, entries_ db !! cid) (bucket db f))
  ∧ (∀ s e, (s, e) ∈ scored → s = VectorDB.dot_product q (embedding e))
  ∧ (∀ a b : list F32.float,
       VectorDB.dot_product a b
       = fold_left (λ sum xy, F32.add sum (F32.mul xy.1 xy.2)) (zip a b)
                   F32.zero)
  ∧ (∀ a b : list F32.float,
       VectorDB.dot_product a b
       = VectorDB.dot_product (take (Nat.min (length a) (length b)) a)
                              (take (Nat.min (length a) (length b)) b))
  ∧ (∀ r, r ∈ results →
       ∃ e s, (s, e) ∈ scored ∧ r = VectorDB.to_result (s, e)
              ∧ score r = VectorDB.dot_product q (embedding e))
  ∧ (Forall (λ p, F32.is_nan p.1 = false) scored → sorted_desc results)
  ∧ (length results ≤ Z.to_nat top_k)%nat
  ∧ (top_k ≤ 0 → results = [])
  ∧ (is_int top_k → Z.of_nat (length scored) ≤ top_k →
     results ≡ₚ VectorDB.to_result <$> scored)
  ∧ VectorDB.search q top_k f VectorDB.empty = [].
Proof.
  intros results scored. split_and!.
  - intros ->. apply unfiltered_candidates.
  - apply filtered_candidates.
  - intros s e Hp. by apply scored_candidates_score in Hp.
  - apply dot_product_zip.
  - intros a b. apply dot_product_shorter.
  - intros r Hr. apply search_elem in Hr as ([s e] & Hp & ->).
    exists e, s. split_and!; [done..|].
    by apply scored_candidates_score in Hp.
  - apply search_sorted.
  - apply search_length.
  - intros Hk. pose proof (search_length q top_k f db) as Hlen.
    fold results in Hlen. destruct results; [done|]. simpl in Hlen. lia.
  - apply search_all.
  - unfold VectorDB.search, VectorDB.scored_candidates. simpl.
    rewrite lookup_empty, map_to_list_empty.
    assert (std_sort [] = []) as Hnil
      by (apply Permutation_nil_r, std_sort_Permutation).
    destruct (negb (bool_decide (f = ""))); simpl;
      by rewrite Hnil, take_nil.
Qed.

(** An instance of C6: two entries, [top_k = 5], sorted by insertion:
    all the candidates are returned, best first; the scores are 1, the
    dot product of (0, 1) with the embedding (0, 1) of "c2", and 0, that
    of (0, 1) with the embedding (1, 0) of "c1". *)
Lemma search_ranks_and_truncates_witness :
  (VectorDB.scored_candidates [F32.zero; F32.one] "" (after sample_two_docs)).*2
  = (map_to_list (entries_ (after sample_two_docs))).*2
  ∧ (λ r, (r_chunk_id r, score r))
      <$> VectorDB.search [F32.zero; F32.one] 5 "" (after sample_two_docs)
    = [("c2", F32.one); ("c1", F32.zero)]
  ∧ (∀ s e, (s, e) ∈ VectorDB.scored_candidates [F32.zero; F32.one] ""
                       (after sample_two_docs) →
            s = VectorDB.dot_product [F32.zero; F32.one] (embedding e))
  ∧ sorted_desc (VectorDB.search [F32.zero; F32.one] 5 ""
                   (after sample_two_docs))
  ∧ VectorDB.search [F32.zero; F32.one] 5 "" (after sample_two_docs)
    ≡ₚ VectorDB.to_result
         <$> VectorDB.scored_candidates [F32.zero; F32.one] ""
               (after sample_two_docs).
Proof.
  assert (H1 : is_int 5) by (unfold is_int; lia).
  assert (H2 : Z.of_nat (length (VectorDB.scored_candidates
                 [F32.zero; F32.one] "" (after sample_two_docs))) ≤ 5)
    by (vm_compute; discriminate).
  assert (H3 : Forall (λ p : F32.float * VectorEntry, F32.is_nan p.1 = false)
                 (VectorDB.scored_candidates [F32.zero; F32.one] ""
                    (after sample_two_docs)))
    by (vm_compute; repeat constructor).
  destruct (search_ranks_and_truncates [F32.zero; F32.one] 5 ""
              (after sample_two_docs))
    as (Hc & _ & Hscore & _ & _ & _ & Hs & _ & _ & H & _).
  split; [exact (Hc eq_refl)|].
  split; [vm_compute; reflexivity|].
  split; [exact Hscore|]. split; [exact (Hs H3)|].
  exact (H H1 H2).
Defined.

(** The counterexample of C6: four chunks of one document whose scores
    against the query (1) are 1, NaN, 3 and 2, sorted as libstdc++
    sorts at most 16 elements. The result is (3, 1, NaN, 2): the last
    result has a strictly greater score than the second. *)
Lemma search_with_a_nan_score_is_not_sorted :
  score <$> @VectorDB.search libstdcxx_insertion_sort [F32.one] 4 "d"
              (after sample_nan_scores)
  = [S754_finite false 12582912 (-22); F32.one; S754_nan;
     S754_finite false 8388608 (-22)]
  ∧ ¬ sorted_desc (@VectorDB.search libstdcxx_insertion_sort [F32.one] 4 "d"
                     (after sample_nan_scores)).
Proof.
  split; [vm_compute; reflexivity|].
  intros Hs. unfold sorted_desc in Hs.
  assert (Hin : ∀ r1 r2 r3 r4 : SearchResult,
            StronglySorted not_below [r1; r2; r3; r4] → not_below r2 r4).
  { intros r1 r2 r3 r4 H.
    apply StronglySorted_inv in H as [H _].
    apply StronglySorted_inv in H as [_ H].
    apply Forall_cons in H as [_ H]. by apply Forall_cons in H as [H _]. }
  revert Hs. vm_compute. intros Hs.
  specialize (Hin _ _ _ _ Hs). vm_compute in Hin. discriminate Hin.
Qed.

Example search_top_1 :
  r_chunk_id <$> VectorDB.search [F32.zero; F32.one] 1 "" (after sample_two_docs)
  = ["c2"].
Proof. vm_compute. reflexivity. Qed.

Example search_negative_top_k :
  VectorDB.search [F32.zero; F32.one] (-3) "" (after sample_two_docs) = [].
Proof. vm_compute. reflexivity. Qed.

(** ** Filtered search *)

Section Filtered.

Implicit Types (q : list F32.float) (db : VectorDB) (D : string).

Lemma filtered_candidates_elem q D db p :
  D ≠ "" → consistent db →
  p ∈ VectorDB.scored_candidates q D db →
  entries_ db !! chunk_id p.2 = Some p.2 ∧ doc_id p.2 = D.
Proof.
  intros HD Hc. unfold VectorDB.scored_candidates.
  rewrite bool_decide_eq_false_2 by done. simpl.
  destruct (doc_index_ db !! D) as [ids|] eqn:Hids;
    [|by intros ?%elem_of_nil].
  intros (cid & Hcid & H)%list_elem_of_omap.
  destruct (entries_ db !! cid) as [e|] eqn:He; simpl in H; [|done].
  injection H as <-. simpl.
  rewrite <- (bucket_lookup _ _ _ Hids) in Hcid.
  destruct (index_sound _ Hc _ _ Hcid) as (e' & He' & Hd).
  assert (e' = e) as -> by congruence.
  by rewrite (key_is_chunk_id _ Hc _ _ He).
Qed.

Lemma unknown_doc_no_bucket db D :
  consistent db →
  (∀ c e, entries_ db !! c = Some e → doc_id e ≠ D) →
  doc_index_ db !! D = None.
Proof.
  intros Hc Hnone.
  destruct (doc_index_ db !! D) as [ids|] eqn:Hids; [|done].
  pose proof (no_empty_bucket _ Hc _ _ Hids) as Hne.
  destruct ids as [|c ids]; [done|].
  assert (c ∈ bucket db D) as Hin.
  { rewrite (bucket_lookup _ _ _ Hids). apply list_elem_of_here. }
  destruct (index_sound _ Hc _ _ Hin) as (e & He & Hd).
  by destruct (Hnone _ _ He).
Qed.

End Filtered.

(** C5. In every store state reached by store operations, a search with a
    non-empty doc_id filter [D] returns only chunk_ids of entries whose
    stored doc_id is [D]; when no entry is stored under [D], the result
    is the empty list. *)
Theorem filtered_search_stays_in_document
    `{std : !StdSort, std_spec : !StdSortSpec}
    (ops : list store_op) (q : list F32.float) (top_k : Z) (D : string) :
  D ≠ "" →
  let db := after ops in
  (∀ r, r ∈ VectorDB.search q top_k D db →
     ∃ e, entries_ db !! r_chunk_id r = Some e ∧ doc_id e = D)
  ∧ ((∀ c e, entries_ db !! c = Some e → doc_id e ≠ D) →
     VectorDB.search q top_k D db = []).
Proof.
  intros HD db. pose proof (consistent_after ops) as Hc. fold db in Hc.
  split.
  - intros r Hr. apply search_elem in Hr as (p & Hp & ->).
    exists p.2. simpl. by apply (filtered_candidates_elem q D db).
  - intros Hnone. unfold VectorDB.search, VectorDB.scored_candidates.
    rewrite bool_decide_eq_false_2 by done. simpl.
    rewrite (unknown_doc_no_bucket db D) by done. simpl.
    assert (std_sort [] = []) as ->
      by (apply Permutation_nil_r, std_sort_Permutation).
    by rewrite take_nil.
Qed.

(** An instance of C5: the query is closest to "c2" of document "d2"; the
    search filtered by "d1" returns "c1" only. *)
Lemma filtered_search_stays_in_document_witness :
  "d1" ≠ ""
  ∧ (∀ r, r ∈ VectorDB.search [F32.zero; F32.one] 1 "d1" (after sample_two_docs) →
       ∃ e, entries_ (after sample_two_docs) !! r_chunk_id r = Some e
            ∧ doc_id e = "d1").
Proof.
  assert (H1 : "d1" ≠ "") by discriminate.
  split; [exact H1|].
  exact (proj1 (filtered_search_stays_in_document sample_two_docs
                  [F32.zero; F32.one] 1 "d1" H1)).
Defined.

Example filtered_search_ignores_better_scores :
  r_chunk_id <$> VectorDB.search [F32.zero; F32.one] 1 "" (after sample_two_docs)
    = ["c2"]
  ∧ r_chunk_id <$> VectorDB.search [F32.zero; F32.one] 1 "d1" (after sample_two_docs)
    = ["c1"]
  ∧ VectorDB.search [F32.zero; F32.one] 1 "d9" (after sample_two_docs) = [].
Proof. vm_compute. done. Qed.

(** ** The empty doc_id *)

Section EmptyDocId.

Implicit Types (q : list F32.float) (db : VectorDB) (c d : string).

Lemma elem_of_chunk_ids_of_doc db d c :
  c ∈ chunk_ids_of_doc db d ↔ ∃ e, entries_ db !! c = Some e ∧ doc_id e = d.
Proof.
  unfold chunk_ids_of_doc. rewrite list_elem_of_fmap. split.
  - intros ([k e] & -> & [Hd He%elem_of_map_to_list]%list_elem_of_filter).
    by exists e.
  - intros (e & He & Hd). exists (c, e). split; [done|].
    apply list_elem_of_filter. split; [done|].
    by apply elem_of_map_to_list.
Qed.

Lemma unfiltered_scored db q :
  VectorDB.scored_candidates q "" db
  = (λ kv, VectorDB.score_entry q kv.2) <$> map_to_list (entries_ db).
Proof. done. Qed.

Lemma elem_of_unfiltered_candidates db q c :
  consistent db →
  c ∈ candidate_ids q "" db ↔ is_Some (entries_ db !! c).
Proof.
  intros Hc. unfold candidate_ids. rewrite unfiltered_scored.
  rewrite list_elem_of_fmap. split.
  - intros (p & -> & ([k e] & -> & He%elem_of_map_to_list)%list_elem_of_fmap).
    simpl. rewrite (key_is_chunk_id _ Hc _ _ He). by exists e.
  - intros [e He]. exists (VectorDB.score_entry q e). split.
    + simpl. by rewrite (key_is_chunk_id _ Hc _ _ He).
    + apply list_elem_of_fmap. exists (c, e). split; [done|].
      by apply elem_of_map_to_list.
Qed.

Lemma elem_of_filtered_candidates db q d c :
  d ≠ "" → consistent db →
  c ∈ candidate_ids q d db →
  ∃ e, entries_ db !! c = Some e ∧ doc_id e = d.
Proof.
  intros Hd Hc (p & -> & Hp)%list_elem_of_fmap.
  exists p.2. by apply (filtered_candidates_elem q d db).
Qed.

End EmptyDocId.

(** C9, as the claim states it, fails in a store whose entries all carry
    the empty doc_id: the unfiltered search has exactly the chunks of the
    empty-string document as its candidates. *)
Lemma empty_doc_id_selected_when_alone :
  chunk_ids_of_doc (after sample_empty_doc) "" = ["c1"]
  ∧ candidate_ids [] "" (after sample_empty_doc) = ["c1"]
  ∧ ¬ no_search_selects (after sample_empty_doc) "".
Proof.
  assert (H1 : chunk_ids_of_doc (after sample_empty_doc) "" = ["c1"])
    by (vm_compute; reflexivity).
  assert (H2 : candidate_ids [] "" (after sample_empty_doc) = ["c1"])
    by (vm_compute; reflexivity).
  split_and!; [done..|].
  intros Hno. apply Hno. exists [], "". unfold same_chunks.
  intros c. by rewrite H1, H2.
Qed.

(** C9, amended. An entry can be stored under the empty doc_id and is
    then a candidate of every unfiltered search, returned as soon as
    [top_k] covers the candidates. No filtered search selects it by its
    doc_id: a search whose filter is the empty string is the unfiltered
    search, its candidates are all the stored entries; and a search
    whose filter is not empty has no entry of the empty doc_id among
    its candidates or its results. In every store state that holds an
    entry of the empty doc_id and an entry of another doc_id, no search
    call has exactly the chunks of the empty-string document as its
    candidate set. *)
Theorem empty_doc_id_is_the_no_filter_sentinel
    `{std : !StdSort, std_spec : !StdSortSpec}
    (ops : list store_op) (q : list F32.float) :
  let db := after ops in
  (∀ cid txt meta emb top_k,
     let db' := VectorDB.store cid "" txt meta emb db in
     entries_ db' !! cid = Some (mkVectorEntry cid "" txt meta emb)
     ∧ cid ∈ candidate_ids q "" db'
     ∧ (is_int top_k →
        Z.of_nat (length (VectorDB.scored_candidates q "" db')) ≤ top_k →
        cid ∈ r_chunk_id <$> VectorDB.search q top_k "" db'))
  ∧ (∀ c, c ∈ candidate_ids q "" db ↔ is_Some (entries_ db !! c))
  ∧ (∀ f c e, f ≠ "" → c ∈ candidate_ids q f db →
       entries_ db !! c = Some e → doc_id e = f ∧ doc_id e ≠ "")
  ∧ (∀ f top_k r e, f ≠ "" → r ∈ VectorDB.search q top_k f db →
       entries_ db !! r_chunk_id r = Some e → doc_id e = f ∧ doc_id e ≠ "")
  ∧ ((∃ c e, entries_ db !! c = Some e ∧ doc_id e = "") →
     (∃ c e, entries_ db !! c = Some e ∧ doc_id e ≠ "") →
     no_search_selects db "").
Proof.
  intros db. pose proof (consistent_after ops) as Hc. fold db in Hc.
  split_and!.
  - intros cid txt meta emb top_k db'.
    assert (Hc' : consistent db') by (by apply consistent_store).
    assert (He : entries_ db' !! cid = Some (mkVectorEntry cid "" txt meta emb)).
    { unfold db'. simpl. by rewrite lookup_insert_eq. }
    assert (Hin : cid ∈ candidate_ids q "" db').
    { apply elem_of_unfiltered_candidates; [done|]. by eexists. }
    split_and!; [done..|].
    intros Hint Hk. rewrite (search_all q top_k "" db' Hint Hk).
    rewrite <- list_fmap_compose. exact Hin.
  - intros c. by apply elem_of_unfiltered_candidates.
  - intros f c e Hf Hin He.
    apply elem_of_filtered_candidates in Hin as (e' & He' & Hd); [|done..].
    assert (e' = e) as -> by congruence. split; congruence.
  - intros f top_k r e Hf Hr He.
    apply search_elem in Hr as (p & Hp & ->).
    destruct (filtered_candidates_elem q f db p Hf Hc Hp) as [He' Hd].
    simpl in He. assert (p.2 = e) as <- by congruence. split; congruence.
  - intros (c1 & e1 & He1 & Hd1) (c2 & e2 & He2 & Hd2) (q' & f & Hsame).
    destruct (decide (f = "")) as [->|Hf].
    + assert (c2 ∈ candidate_ids q' "" db) as Hin.
      { apply elem_of_unfiltered_candidates; [done|]. by eexists. }
      apply Hsame, elem_of_chunk_ids_of_doc in Hin as (e & He & Hd).
      congruence.
    + assert (c1 ∈ chunk_ids_of_doc db "") as Hin.
      { apply elem_of_chunk_ids_of_doc. by exists e1. }
      apply Hsame in Hin.
      apply elem_of_filtered_candidates in Hin as (e & He & Hd); [|done..].
      congruence.
Qed.

(** An instance of amended C9: one entry under the empty doc_id, one under
    "d2". *)
Lemma empty_doc_id_is_the_no_filter_sentinel_witness :
  (∃ c e, entries_ (after sample_mixed_docs) !! c = Some e ∧ doc_id e = "")
  ∧ (∃ c e, entries_ (after sample_mixed_docs) !! c = Some e ∧ doc_id e ≠ "")
  ∧ no_search_selects (after sample_mixed_docs) "".
Proof.
  assert (H1 : ∃ c e, entries_ (after sample_mixed_docs) !! c = Some e
                      ∧ doc_id e = "").
  { exists "c1", (mkVectorEntry "c1" "" "cat sat on mat" JNull [F32.one; F32.zero]).
    split; vm_compute; reflexivity. }
  assert (H2 : ∃ c e, entries_ (after sample_mixed_docs) !! c = Some e
                      ∧ doc_id e ≠ "").
  { exists "c2", (mkVectorEntry "c2" "d2" "dog ran in park" JNull [F32.zero; F32.one]).
    split; [vm_compute; reflexivity|simpl; discriminate]. }
  split; [exact H1|]. split; [exact H2|].
  destruct (empty_doc_id_is_the_no_filter_sentinel sample_mixed_docs [])
    as (_ & _ & _ & _ & H).
  exact (H H1 H2).
Defined.

Example empty_doc_id_selected_when_absent :
  chunk_ids_of_doc (after sample_ops) "" = []
  ∧ candidate_ids [] "d9" (after sample_ops) = [].
Proof. vm_compute. done. Qed.

(** ** The two methods of the store, as functions of the store *)

Section Methods.

Context `{std : !StdSort}.

Implicit Types (q : list F32.float) (db : VectorDB).

Lemma score_ids_eq q ids scored db :
  Server.score_ids q ids scored db
  = (Ok (scored
         ++ omap (λ cid, VectorDB.score_entry q <$> entries_ db !! cid) ids),
     db).
Proof.
  revert scored. induction ids as [|cid ids IH]; intros scored.
  - cbn [Server.score_ids omap list_omap]. rewrite app_nil_r. reflexivity.
  - cbn [Server.score_ids omap list_omap].
    unfold mbind, M_bind, on_entries, UMap.find. destruct db as [entries index].
    cbn [entries_ doc_index_].
    destruct (entries !! cid) as [entry|]; cbn [fmap option_fmap option_map].
    + rewrite IH. cbn [entries_]. by rewrite <- app_assoc.
    + by rewrite IH.
Qed.

(** [VectorDB::search] returns what the function [VectorDB.search]
    gives and leaves the two maps as they were. *)
Lemma db_search_eq q top_k doc_id_filter db :
  Server.db_search q top_k doc_id_filter db
  = (Ok (VectorDB.search q top_k doc_id_filter db), db).
Proof.
  unfold Server.db_search, VectorDB.search, VectorDB.scored_candidates.
  unfold mbind, M_bind, mret, M_ret.
  destruct (negb (bool_decide (doc_id_filter = ""))).
  - unfold on_index at 1, UMap.find. destruct db as [entries index].
    cbn [entries_ doc_index_].
    destruct (index !! doc_id_filter) as [ids|]; [|reflexivity].
    by rewrite score_ids_eq.
  - unfold on_entries, UMap.bindings. by destruct db as [entries index].
Qed.

(** [VectorDB::store] leaves the store that the function
    [VectorDB.store] gives. *)
Lemma db_store_eq cid did txt meta emb db :
  Server.db_store cid did txt meta emb db
  = (Ok (), VectorDB.store cid did txt meta emb db).
Proof.
  unfold Server.db_store, VectorDB.store, VectorDB.unlink_old.
  unfold mbind, M_bind, mret, M_ret, on_entries, on_index.
  unfold UMap.find, UMap.at_index, UMap.erase.
  destruct db as [entries index]. cbn [entries_ doc_index_].
  destruct (entries !! cid) as [old|]; [|reflexivity].
  cbn [entries_ doc_index_].
  destruct (VectorDB.erase_remove cid (default [] (index !! doc_id old)))
    as [|c ids]; cbn [entries_ doc_index_]; [|reflexivity].
  by rewrite delete_insert_eq.
Qed.

End Methods.

(** ** The request handlers *)

Ltac unfold_m :=
  unfold mbind, M_bind, mret, M_ret, mthrow, M_throw, call, try_catch,
         on_db, on_fd in *;
  rewrite ?db_search_eq, ?db_store_eq in *;
  simpl in *.

Section Handlers.

Context `{std : !StdSort}.

Variable hash : string → N.
Implicit Types (request : json) (db : VectorDB).

Lemma contains_field request key :
  Json.contains request key = bool_decide (is_Some (field request key)).
Proof. by destruct request. Qed.

Lemma at_key_field request key v :
  field request key = Some v → Json.at_key request key = v.
Proof. destruct request; try done. simpl. by intros ->. Qed.

Lemma contains_true request key v :
  field request key = Some v → Json.contains request key = true.
Proof.
  intros H. rewrite contains_field, H. by apply bool_decide_eq_true_2.
Qed.

Lemma contains_false request key :
  field request key = None → Json.contains request key = false.
Proof.
  intros H. rewrite contains_field, H.
  apply bool_decide_eq_false_2. by intros [? ?].
Qed.

Lemma value_field {A} (get : json → result A) request key dflt v :
  field request "action" = Some v →
  Json.value get request key dflt =
    match field request key with
    | Some x => get x
    | None => Ok dflt
    end.
Proof. by destruct request. Qed.

Lemma handle_search_state request db :
  (Server.handle_search hash request db).2 = db.
Proof.
  unfold Server.handle_search.
  destruct (negb (Json.contains request "query")); [done|].
  unfold mbind, M_bind, call, mret, M_ret.
  destruct (Json.get_ref_string _) as [query|e|]; [|done..].
  destruct (Json.value_int _ _ _) as [top_k|e|]; [|done..].
  destruct (Json.value_string _ _ _) as [doc_id_filter|e|]; [|done..].
  by rewrite db_search_eq.
Qed.

Lemma dispatch_state request db :
  (Server.dispatch hash request db).2 ≠ db →
  field request "action" = Some (JString "store").
Proof.
  unfold Server.dispatch.
  destruct (Json.contains request "action") eqn:Hc; simpl; [|done].
  destruct (Json.at_key request "action") as [| | | |a| |] eqn:Ha;
    simpl; try done.
  unfold_m.
  assert (field request "action" = Some (JString a)) as Hf.
  { rewrite contains_field in Hc. apply bool_decide_eq_true_1 in Hc as [v Hv].
    by rewrite <- (at_key_field _ _ _ Hv), Ha in Hv. }
  case_bool_decide; [by subst|].
  case_bool_decide; [|done].
  intros Hchg. by destruct (Hchg (handle_search_state request db)).
Qed.

End Handlers.

(** C10. A call of [search] leaves the store as it was. The method,
    taken statement by statement on the store as its state, reads the
    doc index and the entry map with [find] and walks the entries; it
    returns what the function [VectorDB.search] gives, and the entry map
    and the doc index after the call are those before it, for every
    sequence of calls of [store] before it and every query, [top_k] and
    filter. At the level of the requests, a search request changes
    nothing, whatever it returns or throws, and a request that changes
    the store has the action "store". *)
Theorem search_leaves_store_unchanged `{std : !StdSort}
    (hash : string → N) (ops : list store_op)
    (q : list F32.float) (top_k : Z) (doc_id_filter : string) :
  let db := after ops in
  Server.db_search q top_k doc_id_filter db
  = (Ok (VectorDB.search q top_k doc_id_filter db), db)
  ∧ entries_ (Server.db_search q top_k doc_id_filter db).2 = entries_ db
  ∧ doc_index_ (Server.db_search q top_k doc_id_filter db).2 = doc_index_ db
  ∧ (∀ request, (Server.handle_search hash request db).2 = db)
  ∧ (∀ request, (Server.dispatch hash request db).2 ≠ db →
                field request "action" = Some (JString "store")).
Proof.
  intros db. split_and!.
  - apply db_search_eq.
  - by rewrite db_search_eq.
  - by rewrite db_search_eq.
  - intros request. apply handle_search_state.
  - intros request. apply dispatch_state.
Qed.

(** An instance of C10: a request that changes the store is a store
    request. *)
Lemma search_leaves_store_unchanged_witness :
  (Server.dispatch sample_hash sample_store_request (after [])).2 ≠ after []
  ∧ field sample_store_request "action" = Some (JString "store").
Proof.
  assert (H1 : (Server.dispatch sample_hash sample_store_request (after [])).2
               ≠ after []).
  { intros Heq. apply (f_equal (λ db, entries_ db !! "c1")) in Heq.
    vm_compute in Heq. discriminate Heq. }
  split; [exact H1|].
  destruct (search_leaves_store_unchanged sample_hash [] [] 5 "")
    as (_ & _ & _ & _ & H).
  exact (H sample_store_request H1).
Defined.

(** What [find] is not: had [search] looked its filter up with
    [operator[]], as [store] does, a search for an unknown document
    would leave an empty bucket behind. *)
Example at_index_creates_the_bucket :
  (on_index (UMap.find "d9") (after sample_ops)).2 = after sample_ops
  ∧ doc_index_ (on_index (UMap.at_index "d9" [] (λ ids, ids)) (after sample_ops)).2
      !! "d9" = Some []
  ∧ doc_index_ (after sample_ops) !! "d9" = None.
Proof. vm_compute. done. Qed.

Section Dispatch.

Context `{std : !StdSort}.

Variable hash : string → N.
Implicit Types (request : json) (db : VectorDB).

Lemma dispatch_no_action request db :
  (∀ a, field request "action" ≠ Some (JString a)) →
  Server.dispatch hash request db
  = (Ok (Server.error_response "Missing or invalid 'action' field"), db).
Proof.
  intros Hno. unfold Server.dispatch.
  destruct (field request "action") as [v|] eqn:Hv.
  - rewrite (contains_true _ _ _ Hv), (at_key_field _ _ _ Hv). simpl.
    destruct v; try done. by destruct (Hno s).
  - by rewrite (contains_false _ _ Hv).
Qed.

Lemma dispatch_action request a db :
  field request "action" = Some (JString a) →
  Server.dispatch hash request db =
    if bool_decide (a = "store") then Server.handle_store hash request db
    else if bool_decide (a = "search") then Server.handle_search hash request db
    else (Ok (Server.error_response ("Unknown action: " +:+ a)), db).
Proof.
  intros Hv. unfold Server.dispatch.
  rewrite (contains_true _ _ _ Hv), (at_key_field _ _ _ Hv). simpl.
  unfold mbind, M_bind, call. simpl.
  by repeat case_bool_decide.
Qed.

Lemma handle_store_missing request db :
  field request "chunk_id" = None ∨ field request "doc_id" = None
  ∨ field request "text" = None →
  Server.handle_store hash request db
  = (Ok (Server.error_response "store requires chunk_id, doc_id, and text"), db).
Proof.
  unfold Server.handle_store.
  intros [H|[H|H]]; rewrite (contains_false _ _ H); simpl;
    rewrite ?orb_true_r; done.
Qed.

Lemma handle_store_ok request db c d t :
  field request "action" = Some (JString "store") →
  field request "chunk_id" = Some (JString c) →
  field request "doc_id" = Some (JString d) →
  field request "text" = Some (JString t) →
  Server.handle_store hash request db
  = (Ok (JObject [("status", JString "ok")]),
     VectorDB.store c d t (default (JObject []) (field request "metadata"))
                    (embed hash t) db).
Proof.
  intros Ha Hc Hd Ht. unfold Server.handle_store.
  rewrite (contains_true _ _ _ Hc), (contains_true _ _ _ Hd),
          (contains_true _ _ _ Ht).
  rewrite (at_key_field _ _ _ Hc), (at_key_field _ _ _ Hd),
          (at_key_field _ _ _ Ht).
  unfold Json.value_json. rewrite (value_field _ _ _ _ _ Ha).
  unfold mbind, M_bind, call, mret, M_ret.
  destruct (field request "metadata"); cbn -[Server.db_store VectorDB.store];
    by rewrite db_store_eq.
Qed.



Lemma handle_search_defaults request db query :
  field request "action" = Some (JString "search") →
  field request "query" = Some (JString query) →
  field request "top_k" = None →
  field request "doc_id" = None →
  Server.handle_search hash request db
  = (Ok (JObject [("status", JString "ok");
                  ("results",
                   JArray (Server.result_json
                             <$> VectorDB.search (embed hash query) 5 "" db))]),
     db).
Proof.
  intros Ha Hq Hk Hd. unfold Server.handle_search.
  rewrite (contains_true _ _ _ Hq), (at_key_field _ _ _ Hq). simpl.
  unfold Json.value_int, Json.value_string.
  rewrite !(value_field _ _ _ _ _ Ha), Hk, Hd.
  unfold mbind, M_bind, call, mret, M_ret.
  cbn -[Server.db_search VectorDB.search]. by rewrite db_search_eq.
Qed.

Lemma scored_candidates_stored (q : list F32.float) (f : string) db p :
  p ∈ VectorDB.scored_candidates q f db →
  ∃ c, entries_ db !! c = Some p.2.
Proof.
  unfold VectorDB.scored_candidates.
  destruct (negb (bool_decide (f = ""))).
  - destruct (doc_index_ db !! f) as [ids|]; [|by intros ?%elem_of_nil].
    intros (cid & _ & H)%list_elem_of_omap.
    destruct (entries_ db !! cid) as [e|] eqn:He; simpl in H; [|done].
    injection H as <-. by exists cid.
  - intros ([c e] & -> & He%elem_of_map_to_list)%list_elem_of_fmap.
    by exists c.
Qed.

End Dispatch.





Example dispatch_rejects_non_object `{std : !StdSort}
    (hash : string → N) (db : VectorDB) :
  Server.dispatch hash (JArray [JString "store"]) db
  = (Ok (Server.error_response "Missing or invalid 'action' field"), db).
Proof. reflexivity. Qed.

Example dispatch_rejects_numeric_action `{std : !StdSort}
    (hash : string → N) (db : VectorDB) :
  Server.dispatch hash (JObject [("action", JInt 7)]) db
  = (Ok (Server.error_response "Missing or invalid 'action' field"), db).
Proof. reflexivity. Qed.

(** ** Framing and the connection handler *)

Lemma length_list_byte_of_string s :
  length (list_byte_of_string s) = String.length s.
Proof.
  unfold list_byte_of_string. rewrite List.length_map.
  induction s as [|a s IH]; simpl; [done|]. by rewrite IH.
Qed.

Lemma length_encode_length n : length (Server.encode_length n) = 4%nat.
Proof. done. Qed.

Lemma length_frame msg : length (frame msg) = (4 + String.length msg)%nat.
Proof.
  unfold frame. by rewrite length_app, length_encode_length,
    length_list_byte_of_string.
Qed.

(** [write_message], call by call: the peer takes the whole frame and
    the function returns; or a [write] fails, the peer has the first
    [tx_room] bytes of the frame, and the failing call either returns an
    error, which the loop throws, or raises SIGPIPE. *)
Lemma write_message_outcome msg c :
  Server.write_message msg c
  = if decide (length (frame msg) ≤ tx_room c)%nat
    then (Ok (), mkConn (rx c) (tx_room c - length (frame msg))
                   (tx c ++ frame msg) (tx_errors c))
    else (match tx_errors c with
          | S _ => Throw (runtime_error
                            (if decide (4 ≤ tx_room c)%nat
                             then "Failed to write message payload"
                             else "Failed to write message length"))
          | O => Sigpipe
          end,
          mkConn (rx c) 0 (tx c ++ take (tx_room c) (frame msg))
            (pred (tx_errors c))).
Proof.
  rewrite length_frame. unfold frame, Server.write_message, Server.write_loop.
  unfold mbind, M_bind. rewrite length_encode_length.
  destruct (decide (4 ≤ tx_room c)%nat) as [H4|H4];
    cbn [fst snd rx tx tx_room tx_errors].
  - rewrite length_list_byte_of_string.
    destruct (decide (String.length msg ≤ tx_room c - 4)%nat) as [Hp|Hp];
      cbn [fst snd rx tx tx_room tx_errors].
    + rewrite decide_True by lia. rewrite <- app_assoc.
      do 2 f_equal. lia.
    + rewrite decide_False by lia.
      rewrite take_app_ge by (rewrite length_encode_length; lia).
      rewrite length_encode_length, <- app_assoc.
      by destruct (tx_errors c).
  - rewrite decide_False by lia.
    rewrite take_app_le by (rewrite length_encode_length; lia).
    by destruct (tx_errors c).
Qed.

Section Connection.

Context `{std : !StdSort}.

Variable hash : string → N.
Variable parse : string → result json.
Variable dump : json → result string.

Implicit Types (db : VectorDB) (c : Conn).

Lemma read_message_bad_length c :
  (4 ≤ length (rx c))%nat →
  Server.decode_length (take 4 (rx c)) = 0
  ∨ Server.decode_length (take 4 (rx c)) > Server.MAX_LENGTH →
  Server.read_message c
  = (Throw (runtime_error
              ("Invalid message length: "
               +:+ pretty (Server.decode_length (take 4 (rx c))))),
     {| rx := drop 4 (rx c); tx_room := tx_room c; tx := tx c;
        tx_errors := tx_errors c |}).
Proof.
  intros Hlen Hbad. unfold Server.read_message, Server.read_loop.
  unfold mbind, M_bind, mthrow, M_throw.
  rewrite decide_True by done.
  assert ((Server.decode_length (take 4 (rx c)) =? 0)
          || (Server.decode_length (take 4 (rx c)) >? Server.MAX_LENGTH) = true)
    as ->; [|done].
  apply orb_true_iff. destruct Hbad as [H0|Hbig].
  - left. by apply Z.eqb_eq.
  - right. apply Z.gtb_lt. lia.
Qed.

(** A failure to read the message is answered by an attempt to write an
    error document inside [try { } catch (...) { }]: an exception of
    [dump] or of the write is dropped there, a signal is not. The store
    is the one the handler started with. *)
Lemma handle_connection_read_failure db c w c' :
  Server.read_message c = (Throw (runtime_error w), c') →
  Server.handle_connection hash parse dump (mkState db c)
  = match dump (Server.error_response w) with
    | Ok out =>
        match Server.write_message out c' with
        | (Sigpipe, c'') => (Sigpipe, mkState db c'')
        | (_, c'') => (Ok (), mkState db c'')
        end
    | Throw _ => (Ok (), mkState db c')
    | Sigpipe => (Sigpipe, mkState db c')
    end.
Proof.
  intros Hr. unfold Server.handle_connection.
  unfold try_catch, mbind, M_bind, on_fd, call, mret, M_ret. simpl.
  rewrite Hr. simpl.
  destruct (dump (Server.error_response w)) as [out|e|]; simpl; [|done..].
  by destruct (Server.write_message out c') as [[[]|e|] c''].
Qed.

(** A body the parser rejects: the outcome of the handler is that of
    the write of the error document, which no [try] surrounds. *)
Lemma handle_connection_parse_error_reply db c msg c' w out :
  Server.read_message c = (Ok msg, c') →
  parse msg = Throw (parse_error w) →
  dump (Server.error_response ("JSON parse error: " +:+ w)) = Ok out →
  Server.handle_connection hash parse dump (mkState db c)
  = ((Server.write_message out c').1,
     mkState db (Server.write_message out c').2).
Proof.
  intros Hr Hp Hd. unfold Server.handle_connection.
  unfold try_catch, mbind, M_bind, on_fd, call, mret, M_ret. simpl.
  rewrite Hr. simpl. rewrite Hp. simpl. rewrite Hd. simpl.
  by destruct (Server.write_message out c').
Qed.

Lemma handle_connection_parse_error_lost_peer db c msg c' w out e c'' :
  Server.read_message c = (Ok msg, c') →
  parse msg = Throw (parse_error w) →
  dump (Server.error_response ("JSON parse error: " +:+ w)) = Ok out →
  Server.write_message out c' = (Throw e, c'') →
  Server.handle_connection hash parse dump (mkState db c)
  = (Throw e, mkState db c'').
Proof.
  intros Hr Hp Hd Hw. unfold Server.handle_connection.
  unfold try_catch, mbind, M_bind, on_fd, call, mret, M_ret. simpl.
  rewrite Hr. simpl. rewrite Hp. simpl. rewrite Hd. simpl. by rewrite Hw.
Qed.

End Connection.

(** C4 fails on the code. A connection whose 4-byte big-endian length
    header declares 0 or more than 10 MiB makes [read_message] throw
    before the body is read; the parser and the dispatcher have no part
    in the outcome and the store (entry map and doc index) is the one
    before the connection, whatever happens next. The handler of
    [std::exception] then writes an error document to the client. When
    the peer takes it, or when the failing [write] returns an error, the
    handler returns and the accept loop goes on with the events that
    follow exactly as if it had started from them. When the peer has
    closed and the failing [write] raises SIGPIPE, which the server never
    ignores or handles, the process is killed inside the handler: the
    connections that follow are not served. *)
Theorem bad_length_reply_to_closed_peer_kills_the_server `{std : !StdSort}
    (hash : string → N) (parse : string → result json)
    (dump : json → result string)
    (received : list Byte.byte) (room errors : nat)
    (db : VectorDB) (rest : list event) :
  (4 ≤ length received)%nat →
  Server.decode_length (take 4 received) = 0
  ∨ Server.decode_length (take 4 received) > 10 * 1024 * 1024 →
  let c := mkConn received room [] errors in
  let w := "Invalid message length: "
           +:+ pretty (Server.decode_length (take 4 received)) in
  let handled := Server.handle_connection hash parse dump (mkState db c) in
  (∃ c', Server.read_message c = (Throw (runtime_error w), c'))
  ∧ (entries_ (db_ handled.2) = entries_ db
     ∧ doc_index_ (db_ handled.2) = doc_index_ db)
  ∧ (∀ hash' parse',
       Server.handle_connection hash' parse' dump (mkState db c) = handled)
  ∧ (∀ e, handled.1 ≠ Throw e)
  ∧ (handled.1 = Ok () →
     ∃ reply,
       run hash parse dump (ev_client received room errors :: rest) db
       = mkRun (run_status (run hash parse dump rest db))
               (run_db (run hash parse dump rest db))
               (reply :: run_replies (run hash parse dump rest db)))
  ∧ (∀ out, dump (Server.error_response w) = Ok out →
            (length (frame out) ≤ room)%nat ∨ (0 < errors)%nat →
            handled.1 = Ok ())
  ∧ (∀ out, dump (Server.error_response w) = Ok out →
            (room < length (frame out))%nat → errors = 0%nat →
            handled
            = (Sigpipe,
               mkState db (mkConn (drop 4 received) 0 (take room (frame out)) 0))
            ∧ run hash parse dump (ev_client received room errors :: rest) db
              = mkRun Killed db [take room (frame out)]).
Proof.
  intros Hlen Hbad c w handled.
  assert (Hr : Server.read_message c
               = (Throw (runtime_error w),
                  mkConn (drop 4 received) room [] errors))
    by exact (read_message_bad_length c Hlen Hbad).
  pose proof (handle_connection_read_failure hash parse dump db _ _ _ Hr)
    as Hh.
  fold handled in Hh.
  assert (Hany : ∀ hash' parse',
            Server.handle_connection hash' parse' dump (mkState db c) = handled).
  { intros hash' parse'. rewrite Hh.
    apply (handle_connection_read_failure hash' parse' dump db _ _ _ Hr). }
  assert (Hdb : db_ handled.2 = db).
  { rewrite Hh. destruct (dump _) as [out|e|]; [|done..].
    by destruct (Server.write_message out _) as [[[]|e|] c'']. }
  split_and!.
  - by eexists.
  - by rewrite Hdb.
  - by rewrite Hdb.
  - exact Hany.
  - intros e. rewrite Hh. destruct (dump _) as [out|e'|]; [|done..].
    by destruct (Server.write_message out _) as [[[]|e'|] c''].
  - intros Hok. exists (tx (client_fd handled.2)).
    cbn [run]. fold c. fold handled.
    destruct handled as [[[]|e|] st]; try done.
    simpl in Hdb. by rewrite Hdb.
  - intros out Hd Hroom. rewrite Hh, Hd, write_message_outcome.
    cbn [rx tx tx_room tx_errors].
    destruct (decide _) as [|Hno]; [done|].
    destruct Hroom as [|Herr]; [done|]. by destruct errors; [lia|].
  - intros out Hd Hroom ->.
    assert (handled
            = (Sigpipe,
               mkState db (mkConn (drop 4 received) 0 (take room (frame out)) 0)))
      as Hk.
    { rewrite Hh, Hd, write_message_outcome.
      cbn [rx tx tx_room tx_errors].
      by rewrite decide_False by lia. }
    split; [exact Hk|].
    cbn [run]. fold c. fold handled. by rewrite Hk.
Qed.

(** The failing input of C4: a client sends a header declaring 0 bytes
    and closes its end; the first [write] of the error reply, the 4-byte
    header, is taken, the second raises SIGPIPE. The client that
    follows, with a well-formed request, is not served. *)
Lemma bad_length_reply_to_closed_peer_kills_the_server_witness :
  (4 ≤ length frame_length_zero)%nat
  ∧ Server.decode_length (take 4 frame_length_zero) = 0
  ∧ sample_dump (Server.error_response "Invalid message length: 0")
    = Ok "object"
  ∧ (4 < length (frame "object"))%nat
  ∧ run sample_hash sample_parse sample_dump
      [ev_client frame_length_zero 4 0; ev_client frame_empty_object 64 0]
      (after sample_ops)
    = mkRun Killed (after sample_ops) [Server.encode_length 6].
Proof.
  assert (H1 : (4 ≤ length frame_length_zero)%nat) by (simpl; lia).
  assert (H2 : Server.decode_length (take 4 frame_length_zero) = 0)
    by reflexivity.
  assert (H3 : sample_dump (Server.error_response "Invalid message length: 0")
               = Ok "object") by reflexivity.
  assert (H4 : (4 < length (frame "object"))%nat) by (simpl; lia).
  split; [exact H1|]. split; [exact H2|]. split; [exact H3|].
  split; [exact H4|].
  destruct (bad_length_reply_to_closed_peer_kills_the_server
              sample_hash sample_parse sample_dump frame_length_zero 4 0
              (after sample_ops) [ev_client frame_empty_object 64 0]
              H1 (or_introl H2))
    as (_ & _ & _ & _ & _ & _ & Hkill).
  destruct (Hkill "object" H3 H4 eq_refl) as [_ Hrun]. exact Hrun.
Defined.

(** ** What leaves the connection handler *)

Section Escapes.

Context `{std : !StdSort}.

Variable hash : string → N.
Variable parse : string → result json.
Variable dump : json → result string.

Lemma read_message_throws c e c' :
  Server.read_message c = (Throw e, c') → ∃ w, e = runtime_error w.
Proof.
  unfold Server.read_message, Server.read_loop.
  unfold mbind, M_bind, mthrow, M_throw, mret, M_ret.
  repeat case_match; intros; simplify_eq; by eexists.
Qed.

Lemma write_message_throws out c e c' :
  Server.write_message out c = (Throw e, c') → ∃ w, e = runtime_error w.
Proof.
  unfold Server.write_message, Server.write_loop.
  unfold mbind, M_bind, mthrow, M_throw, mret, M_ret.
  repeat case_match; intros; simplify_eq; by eexists.
Qed.

Lemma value_throws {A} (get : json → result A) request key dflt e :
  (∀ v e', get v = Throw e' → ∃ w, e' = type_error w) →
  Json.value get request key dflt = Throw e → ∃ w, e = type_error w.
Proof.
  intros Hget. unfold Json.value.
  repeat case_match; intros; simplify_eq; eauto.
Qed.

Lemma get_ref_string_throws v e :
  Json.get_ref_string v = Throw e → ∃ w, e = type_error w.
Proof. destruct v; simpl; intros; simplify_eq; by eexists. Qed.

Lemma get_string_throws v e :
  Json.get_string v = Throw e → ∃ w, e = type_error w.
Proof. destruct v; simpl; intros; simplify_eq; by eexists. Qed.

Lemma get_int_throws v e :
  Json.get_int v = Throw e → ∃ w, e = type_error w.
Proof. destruct v; simpl; intros; simplify_eq; by eexists. Qed.

Lemma handle_store_throws request db e db' :
  Server.handle_store hash request db = (Throw e, db') →
  ∃ w, e = type_error w.
Proof.
  unfold Server.handle_store.
  unfold mbind, M_bind, call, mret, M_ret.
  destruct (negb _ || negb _ || negb _); [done|].
  destruct (Json.get_ref_string (Json.at_key request "chunk_id")) eqn:E1;
    [|intros; simplify_eq; by eapply get_ref_string_throws|done].
  destruct (Json.get_ref_string (Json.at_key request "doc_id")) eqn:E2;
    [|intros; simplify_eq; by eapply get_ref_string_throws|done].
  destruct (Json.get_ref_string (Json.at_key request "text")) eqn:E3;
    [|intros; simplify_eq; by eapply get_ref_string_throws|done].
  destruct (Json.value_json request "metadata" (JObject [])) eqn:E4;
    [by rewrite db_store_eq| |done].
  intros; simplify_eq. eapply value_throws; [|exact E4]. done.
Qed.

Lemma handle_search_throws request db e db' :
  Server.handle_search hash request db = (Throw e, db') →
  ∃ w, e = type_error w.
Proof.
  unfold Server.handle_search.
  unfold mbind, M_bind, call, mret, M_ret.
  destruct (negb _); [done|].
  destruct (Json.get_ref_string (Json.at_key request "query")) eqn:E1;
    [|intros; simplify_eq; by eapply get_ref_string_throws|done].
  destruct (Json.value_int request "top_k" 5) eqn:E2;
    [|intros; simplify_eq; eapply value_throws; [|exact E2];
      apply get_int_throws|done].
  destruct (Json.value_string request "doc_id" "") eqn:E3;
    [by rewrite db_search_eq| |done].
  intros; simplify_eq. eapply value_throws; [|exact E3].
  apply get_string_throws.
Qed.

Lemma dispatch_throws request db e db' :
  Server.dispatch hash request db = (Throw e, db') → ∃ w, e = type_error w.
Proof.
  unfold Server.dispatch.
  unfold mbind, M_bind, call, mret, M_ret.
  destruct (negb _ || negb _); [done|].
  destruct (Json.get_ref_string (Json.at_key request "action")) eqn:E1;
    [|intros; simplify_eq; by eapply get_ref_string_throws|done].
  repeat case_bool_decide; [apply handle_store_throws
                           |apply handle_search_throws|done].
Qed.

(** Every exception but one is absorbed in the handler: unless the
    parser rejects the body (the case of the theorem below), no
    exception leaves it; it returns, or the process is killed by the
    SIGPIPE of a [write] to a peer that is gone. *)
Lemma handle_connection_returns st :
  (∀ j w, dump j ≠ Throw (parse_error w)) →
  (∀ msg w, parse msg ≠ Throw (parse_error w)) →
  (Server.handle_connection hash parse dump st).1 = Ok ()
  ∨ (Server.handle_connection hash parse dump st).1 = Sigpipe.
Proof.
  intros Hdump Hparse.
  remember (Server.handle_connection hash parse dump st) as r0 eqn:Hr0.
  unfold Server.handle_connection in Hr0.
  assert (Hgeneric : ∀ e st1, (∀ w, e ≠ parse_error w) →
    ∀ r, r = (match e with
              | parse_error w =>
                  out ← call (dump (Server.error_response
                                      ("JSON parse error: " +:+ w)));
                  on_fd (Server.write_message out)
              | _ => try_catch
                       (out ← call (dump (Server.error_response (what e)));
                        on_fd (Server.write_message out))
                       (λ _, mret ())
              end) st1 →
         r.1 = Ok () ∨ r.1 = Sigpipe).
  { intros e st1 He r ->. destruct e as [w|w|w]; [by destruct (He w)| |];
      unfold try_catch, mbind, M_bind, on_fd, call, mret, M_ret; simpl;
      (destruct (dump _) as [out|e'|]; simpl; [|by left|by right]);
      (destruct (Server.write_message out (client_fd st1)) as [[[]|e'|] c'']);
      simpl; (by left) || (by right). }
  unfold try_catch at 1 in Hr0.
  destruct ((msg ← on_fd Server.read_message;
             request ← call (parse msg);
             response ← on_db (Server.dispatch hash request);
             out ← call (dump response);
             on_fd (Server.write_message out)) st) as [[[]|e|] st1] eqn:Hbody;
    [subst r0; by left| |subst r0; by right].
  eapply Hgeneric; [|exact Hr0]. intros w ->.
  revert Hbody. unfold mbind, M_bind, on_fd, on_db, call. simpl.
  destruct (Server.read_message (client_fd st)) as [[msg|e1|] c1] eqn:Hr;
    simpl; [| |done].
  2: { intros [= -> _]. by apply read_message_throws in Hr as [? ?]. }
  destruct (parse msg) as [request|e2|] eqn:Hp; simpl; [| |done].
  2: { intros [= -> _]. by destruct (Hparse msg w). }
  destruct (Server.dispatch hash request (db_ st)) as [[response|e3|] db1] eqn:Hd;
    simpl; [| |done].
  2: { intros [= -> _]. by apply dispatch_throws in Hd as [? ?]. }
  destruct (dump response) as [out|e4|] eqn:Ho; simpl; [| |done].
  2: { intros [= -> _]. by destruct (Hdump response w). }
  destruct (Server.write_message out c1) as [[[]|e5|] c2] eqn:Hw; simpl;
    [done| |done].
  intros [= -> _]. by apply write_message_throws in Hw as [? ?].
Qed.

End Escapes.

(** C2 fails on the code. When the parser rejects the body, the handler
    of [parse_error] writes the error document outside any [try]: if that
    write fails because the peer is gone, the exception leaves
    [handle_connection] and then [run], the events that follow are never
    served, and [main] ends the process. (The handler of the other
    exceptions wraps the same write in [try { } catch (...) { }].) *)
Theorem parse_error_reply_failure_is_fatal `{std : !StdSort}
    (hash : string → N) (parse : string → result json)
    (dump : json → result string)
    (rx : list Byte.byte) (tx_room tx_errors : nat)
    (db : VectorDB) (rest : list event)
    (msg : string) (c' : Conn) (w out : string) (e : exn) (c'' : Conn) :
  Server.read_message (mkConn rx tx_room [] tx_errors) = (Ok msg, c') →
  parse msg = Throw (parse_error w) →
  dump (Server.error_response ("JSON parse error: " +:+ w)) = Ok out →
  Server.write_message out c' = (Throw e, c'') →
  Server.handle_connection hash parse dump
    (mkState db (mkConn rx tx_room [] tx_errors))
  = (Throw e, mkState db c'')
  ∧ run hash parse dump (ev_client rx tx_room tx_errors :: rest) db
    = mkRun (Fatal e) db [tx c''].
Proof.
  intros Hr Hp Hd Hw.
  pose proof (handle_connection_parse_error_lost_peer hash parse dump db
                _ _ _ _ _ _ _ Hr Hp Hd Hw) as Hh.
  split; [exact Hh|]. simpl. by rewrite Hh.
Qed.

(** The failing input of C2: a client sends the one-byte body "x" and
    is gone before the reply, the [write] of the reply returns an error
    (the connection was reset); the client that follows is not served. *)
Lemma parse_error_reply_failure_is_fatal_witness :
  Server.read_message (mkConn frame_not_json 0 [] 1)
  = (Ok "x", mkConn [] 0 [] 1)
  ∧ sample_parse "x" = Throw (parse_error "syntax error while parsing value")
  ∧ run sample_hash sample_parse sample_dump
      [ev_client frame_not_json 0 1; ev_client frame_empty_object 64 0]
      (after sample_ops)
    = mkRun (Fatal (runtime_error "Failed to write message length"))
            (after sample_ops) [[]].
Proof.
  assert (H1 : Server.read_message (mkConn frame_not_json 0 [] 1)
               = (Ok "x", mkConn [] 0 [] 1)) by reflexivity.
  assert (H2 : sample_parse "x"
               = Throw (parse_error "syntax error while parsing value"))
    by reflexivity.
  split; [exact H1|]. split; [exact H2|].
  exact (proj2 (parse_error_reply_failure_is_fatal sample_hash sample_parse
                  sample_dump frame_not_json 0 1 (after sample_ops)
                  [ev_client frame_empty_object 64 0]
                  "x" (mkConn [] 0 [] 1) _ "object"
                  (runtime_error "Failed to write message length")
                  (mkConn [] 0 [] 0) H1 H2 eq_refl eq_refl)).
Defined.

(** The same lost peer after a frame that [read_message] rejects: the
    error the [write] returns is absorbed and the next client is
    served. *)
Example lost_peer_after_bad_length_is_absorbed :
  run_status (run sample_hash sample_parse sample_dump
                [ev_client frame_length_zero 0 1;
                 ev_client frame_empty_object 64 0]
                (after sample_ops))
  = Accepting
  ∧ length (run_replies (run sample_hash sample_parse sample_dump
                [ev_client frame_length_zero 0 1;
                 ev_client frame_empty_object 64 0]
                (after sample_ops))) = 2%nat.
Proof. vm_compute. done. Qed.

(** ** The embedder: shape of the result *)

Section EmbedderShape.

Variable hash : string → N.

Lemma count_token_length token (vec : list F32.float) :
  length (count_token hash token vec) = length vec.
Proof. unfold count_token. apply length_alter. Qed.

Lemma scan_counts s token (vec : list F32.float) :
  (let '(token', vec') := scan hash s token vec in
   if negb (bool_decide (token' = "")) then count_token hash token' vec'
   else vec')
  = fold_left (λ v t, count_token hash t v) (tokens_from s token) vec.
Proof.
  revert token vec. induction s as [|c rest IH]; intros token vec; simpl.
  - by destruct (negb (bool_decide (token = ""))).
  - destruct (isalnum c); [apply IH|].
    destruct (negb (bool_decide (token = ""))); simpl; apply IH.
Qed.

(** The bucket counts are those of the tokens, counted one after the
    other from the all-zero vector. *)
Lemma counts_tokens s :
  counts hash s
  = fold_left (λ v t, count_token hash t v) (tokens s)
              (replicate EMBED_DIM F32.zero).
Proof.
  unfold counts, tokens.
  pose proof (scan_counts s "" (replicate EMBED_DIM F32.zero)) as H.
  by destruct (scan hash s "" (replicate EMBED_DIM F32.zero)).
Qed.

Lemma counts_length s : length (counts hash s) = EMBED_DIM.
Proof.
  rewrite counts_tokens.
  assert (∀ ts (vec : list F32.float),
            length (fold_left (λ v t, count_token hash t v) ts vec)
            = length vec) as Hlen.
  { induction ts as [|t ts IH]; intros vec; simpl; [done|].
    by rewrite IH, count_token_length. }
  rewrite Hlen. apply length_replicate.
Qed.

Lemma normalize_length (vec : list F32.float) :
  length (normalize vec) = length vec.
Proof.
  unfold normalize. destruct (F32.gt _ _); [|done]. by rewrite length_fmap.
Qed.

(** [embed] returns [EMBED_DIM] = 4096 components, whatever the text. *)
Lemma embed_length s : length (embed hash s) = 4096%nat.
Proof. unfold embed. rewrite normalize_length. apply counts_length. Qed.

Lemma sum_squares_zeros n : sum_squares (replicate n F32.zero) = F32.zero.
Proof.
  unfold sum_squares. induction n as [|n IH]; [done|].
  cbn [replicate fold_left].
  change (F32.add F32.zero (F32.mul F32.zero F32.zero)) with F32.zero.
  exact IH.
Qed.

(** A text without a token: the result is the all-zero vector; the sum
    of squares is [0], the test [norm > 0.0f] fails and nothing is
    divided. *)
Lemma embed_no_tokens s :
  tokens s = [] →
  sum_squares (counts hash s) = F32.zero
  ∧ embed hash s = replicate EMBED_DIM F32.zero.
Proof.
  intros Ht. unfold embed, normalize.
  rewrite counts_tokens, Ht. cbn [fold_left].
  rewrite sum_squares_zeros. split; reflexivity.
Qed.

End EmbedderShape.

Example embed_empty_text :
  tokens "" = [] ∧ tokens " ,;-- !" = [].
Proof. split; reflexivity. Qed.

Example embed_single_token :
  embed sample_hash "Cat!" = <[3%nat := F32.one]> (replicate EMBED_DIM F32.zero).
Proof. vm_compute. reflexivity. Qed.

(** ** binary32 arithmetic: what one rounded operation computes

    The facts about [SFadd], [SFmul], [SFdiv] and [SFsqrt] at precision
    24 that the accuracy of the embedder rests on, proved from their
    definitions. *)

Section Rounding.

Lemma digits2_pos_bounds (m : positive) :
  2 ^ (Z.pos (digits2_pos m) - 1) ≤ Z.pos m < 2 ^ Z.pos (digits2_pos m).
Proof.
  induction m as [m IH|m IH|]; simpl digits2_pos.
  - rewrite Pos2Z.inj_succ.
    replace (Z.succ (Z.pos (digits2_pos m)) - 1) with (Z.succ (Z.pos (digits2_pos m) - 1)) by lia.
    rewrite !Z.pow_succ_r by lia. lia.
  - rewrite Pos2Z.inj_succ.
    replace (Z.succ (Z.pos (digits2_pos m)) - 1) with (Z.succ (Z.pos (digits2_pos m) - 1)) by lia.
    rewrite !Z.pow_succ_r by lia. lia.
  - simpl. lia.
Qed.

Lemma digits2_pos_unique (m : positive) (k : Z) :
  2 ^ (k - 1) ≤ Z.pos m < 2 ^ k → Z.pos (digits2_pos m) = k.
Proof.
  intros [Hlo Hhi]. pose proof (digits2_pos_bounds m) as [Hlo' Hhi'].
  assert (0 < k).
  { destruct (Z_lt_le_dec 0 k) as [|Hk]; [done|].
    assert (2 ^ k ≤ 2 ^ 0) by (apply Z.pow_le_mono_r; lia).
    simpl in *. lia. }
  destruct (Z.lt_trichotomy (Z.pos (digits2_pos m)) k) as [Hlt|[Heq|Hgt]]; [|done|].
  - assert (2 ^ Z.pos (digits2_pos m) ≤ 2 ^ (k - 1)) by (apply Z.pow_le_mono_r; lia).
    lia.
  - assert (2 ^ k ≤ 2 ^ (Z.pos (digits2_pos m) - 1)) by (apply Z.pow_le_mono_r; lia).
    lia.
Qed.

Lemma iter_pos_nat {A} (f : A → A) (p : positive) (x : A) :
  SpecFloat.iter_pos f p x = Nat.iter (Pos.to_nat p) f x.
Proof.
  revert x. induction p as [p IH|p IH|]; intros x; simpl SpecFloat.iter_pos.
  - rewrite !IH. rewrite Pos2Nat.inj_xI.
    replace (S (2 * Pos.to_nat p))%nat with (Pos.to_nat p + (Pos.to_nat p + 1))%nat by lia.
    rewrite !Nat.iter_add. simpl. done.
  - rewrite !IH. rewrite Pos2Nat.inj_xO.
    replace (2 * Pos.to_nat p)%nat with (Pos.to_nat p + Pos.to_nat p)%nat by lia.
    by rewrite Nat.iter_add.
  - done.
Qed.

Lemma shr_1_m (mrs : shr_record) :
  0 ≤ shr_m mrs → shr_m (shr_1 mrs) = shr_m mrs / 2.
Proof.
  destruct mrs as [m r s]. cbn [shr_m]. intros Hm.
  rewrite <- Z.div2_div.
  destruct m as [|[p|p|]|p]; try reflexivity. lia.
Qed.

Lemma shr_1_exact (m : Z) :
  0 ≤ m → m mod 2 = 0 →
  shr_1 (Build_shr_record m false false) = Build_shr_record (m / 2) false false.
Proof.
  intros Hm Hmod. rewrite <- Z.div2_div.
  destruct m as [|[p|p|]|p]; try reflexivity; try lia.
  - exfalso. rewrite Pos2Z.inj_xI in Hmod.
    replace (2 * Z.pos p + 1) with (1 + Z.pos p * 2) in Hmod by lia.
    rewrite Z_mod_plus_full in Hmod. done.
  - done.
Qed.

Lemma shr_iter_m (k : nat) (mrs : shr_record) :
  0 ≤ shr_m mrs →
  shr_m (Nat.iter k shr_1 mrs) = shr_m mrs / 2 ^ Z.of_nat k.
Proof.
  intros Hm. induction k as [|k IH].
  - simpl. by rewrite Z.div_1_r.
  - rewrite Nat2Z.inj_succ, Z.pow_succ_r by lia.
    change (Nat.iter (S k) shr_1 mrs) with (shr_1 (Nat.iter k shr_1 mrs)).
    rewrite shr_1_m.
    + rewrite IH. rewrite Z.div_div by lia. f_equal. lia.
    + rewrite IH. apply Z.div_pos; lia.
Qed.

Lemma shr_iter_exact (k : nat) (m : Z) :
  0 ≤ m → m mod 2 ^ Z.of_nat k = 0 →
  Nat.iter k shr_1 (Build_shr_record m false false)
  = Build_shr_record (m / 2 ^ Z.of_nat k) false false.
Proof.
  intros Hm. induction k as [|k IH]; intros Hmod.
  - simpl. by rewrite Z.div_1_r.
  - rewrite Nat2Z.inj_succ, Z.pow_succ_r in * by lia.
    change (Nat.iter (S k) shr_1 ?x) with (shr_1 (Nat.iter k shr_1 x)).
    assert (m mod 2 ^ Z.of_nat k = 0) as Hk.
    { apply Z.mod_divide in Hmod; [|lia]. apply Z.mod_divide; [lia|].
      destruct Hmod as [c Hc]. exists (c * 2). lia. }
    rewrite IH by done.
    rewrite shr_1_exact.
    + rewrite Z.div_div by lia. do 2 f_equal. lia.
    + apply Z.div_pos; lia.
    + apply Z.mod_divide in Hmod; [|lia]. destruct Hmod as [c Hc].
      rewrite Hc. replace (c * (2 * 2 ^ Z.of_nat k)) with ((c * 2) * 2 ^ Z.of_nat k) by lia.
      rewrite Z.div_mul by lia. replace (c * 2) with (0 + c * 2) by lia.
      by rewrite Z_mod_plus_full.
Qed.

Lemma fexp32 (k : Z) : fexp 24 128 k = Z.max (k - 24) (-149).
Proof. reflexivity. Qed.

Lemma shr_pos (mrs : shr_record) (e : Z) (n : Z) :
  0 ≤ n → 0 ≤ shr_m mrs →
  shr_m (shr mrs e n).1 = shr_m mrs / 2 ^ n ∧ (shr mrs e n).2 = e + n.
Proof.
  intros Hn Hm. destruct n as [|p|p]; [| |lia]; simpl.
  - split; [by rewrite Z.div_1_r|lia].
  - rewrite iter_pos_nat, shr_iter_m by done.
    by rewrite positive_nat_Z.
Qed.

Lemma shr_exact (m e n : Z) :
  0 ≤ n → 0 ≤ m → m mod 2 ^ n = 0 →
  (shr (Build_shr_record m false false) e n).1
  = Build_shr_record (m / 2 ^ n) false false.
Proof.
  intros Hn Hm Hmod. destruct n as [|p|p]; [| |lia]; simpl.
  - by rewrite Z.div_1_r.
  - rewrite iter_pos_nat.
    rewrite <- (positive_nat_Z p) in Hmod.
    rewrite shr_iter_exact by done. by rewrite positive_nat_Z.
Qed.

Lemma round_nearest_even_cases (m : Z) (l : location) :
  round_nearest_even m l = m ∨ round_nearest_even m l = m + 1.
Proof.
  destruct l as [|[]]; simpl; auto. destruct (Z.even m); auto.
Qed.

Lemma div_pow2_bounds (M d : Z) :
  24 ≤ d → 2 ^ (d - 1) ≤ M < 2 ^ d →
  2 ^ 23 ≤ M / 2 ^ (d - 24) < 2 ^ 24.
Proof.
  intros Hd [Hlo Hhi].
  assert (0 < 2 ^ (d - 24)) by (apply Z.pow_pos_nonneg; lia).
  assert (2 ^ (d - 1) = 2 ^ 23 * 2 ^ (d - 24)) as E1.
  { rewrite <- Z.pow_add_r by lia. f_equal. lia. }
  assert (2 ^ d = 2 ^ 24 * 2 ^ (d - 24)) as E2.
  { rewrite <- Z.pow_add_r by lia. f_equal. lia. }
  split.
  - apply Z.div_le_lower_bound; [done|]. lia.
  - apply Z.div_lt_upper_bound; [done|]. lia.
Qed.

(** The rounding step shared by the four operations, on a mantissa of at
    least 24 bits in the normal range: the result keeps the 24 leading
    bits [m1], or their successor, and keeps [m1] when the input is
    exact and the bits dropped are zero. *)
Lemma binary_round_aux_normal (s : bool) (mp : positive) (e : Z) (l : location) :
  let d := Z.pos (digits2_pos mp) in
  let m1 := Z.pos mp / 2 ^ (d - 24) in
  let e1 := d + e - 24 in
  24 ≤ d → -149 ≤ e1 → e1 < 104 →
  ∃ (m' : positive) (e' : Z) (m2 : Z),
    binary_round_aux 24 128 s (Z.pos mp) e l = S754_finite s m' e'
    ∧ Z.pos (digits2_pos m') = 24
    ∧ -149 ≤ e' ≤ 104
    ∧ (m2 = m1 ∨ m2 = m1 + 1)
    ∧ ((e' = e1 ∧ Z.pos m' = m2) ∨ (e' = e1 + 1 ∧ Z.pos m' * 2 = m2))
    ∧ (l = loc_Exact → Z.pos mp mod 2 ^ (d - 24) = 0 → m2 = m1).
Proof.
  intros d m1 e1 Hd Hlo Hhi.
  pose proof (digits2_pos_bounds mp) as Hdig. fold d in Hdig.
  pose proof (div_pow2_bounds _ _ Hd Hdig) as Hm1. fold m1 in Hm1.
  unfold binary_round_aux, shr_fexp.
  change (Zdigits2 (Z.pos mp)) with d.
  rewrite fexp32.
  replace (Z.max (d + e - 24) (-149) - e) with (d - 24) by lia.
  destruct (shr (shr_record_of_loc (Z.pos mp) l) e (d - 24)) as [mrs' e'] eqn:Hshr.
  assert (shr_m mrs' = m1 ∧ e' = e1) as [Hmrs He'].
  { pose proof (shr_pos (shr_record_of_loc (Z.pos mp) l) e (d - 24)) as Hs.
    rewrite Hshr in Hs. simpl in Hs.
    assert (shr_m (shr_record_of_loc (Z.pos mp) l) = Z.pos mp) as Hrec
      by (by destruct l as [|[]]).
    rewrite Hrec in Hs. destruct Hs as [Hs1 Hs2]; [lia..|].
    split; [done|]. unfold e1. lia. }
  set (m2 := round_nearest_even (shr_m mrs') (loc_of_shr_record mrs')).
  assert (m2 = m1 ∨ m2 = m1 + 1) as Hm2.
  { unfold m2. rewrite <- Hmrs. apply round_nearest_even_cases. }
  assert (l = loc_Exact → Z.pos mp mod 2 ^ (d - 24) = 0 → m2 = m1) as Hex.
  { intros -> Hmod.
    pose proof (shr_exact (Z.pos mp) e (d - 24)) as Hs.
    simpl in Hshr. rewrite Hshr in Hs. simpl in Hs.
    specialize (Hs ltac:(lia) ltac:(lia) Hmod).
    unfold m2. rewrite Hs. done. }
  subst e'.
  destruct (decide (m2 = 2 ^ 24)) as [Hbig|Hsmall].
  - (* the mantissa has grown to 25 bits *)
    rewrite Hbig. change (Zdigits2 (2 ^ 24)) with 25.
    rewrite fexp32.
    replace (Z.max (25 + e1 - 24) (-149) - e1) with 1 by lia.
    simpl shr. cbn [shr_m].
    change (Z.pos (2 ^ 23)%positive) with (2 ^ 23).
    assert ((e1 + 1 <=? 128 - 24) = true) as -> by (apply Z.leb_le; lia).
    exists (2 ^ 23)%positive, (e1 + 1), (2 ^ 24).
    split_and!; [done|reflexivity|lia|lia|lia|right; split; [done|reflexivity]|].
    intros Hl Hmod. specialize (Hex Hl Hmod). lia.
  - assert (2 ^ 23 ≤ m2 < 2 ^ 24) as Hr by lia.
    destruct m2 as [|m2p|m2p] eqn:Em2; [lia| |lia].
    assert (Z.pos (digits2_pos m2p) = 24) as Hd2
      by (apply digits2_pos_unique; lia).
    change (Zdigits2 (Z.pos m2p)) with (Z.pos (digits2_pos m2p)).
    rewrite Hd2, fexp32.
    replace (Z.max (24 + e1 - 24) (-149) - e1) with 0 by lia.
    simpl shr. cbn [shr_m].
    assert ((e1 <=? 128 - 24) = true) as -> by (apply Z.leb_le; lia).
    exists m2p, e1, (Z.pos m2p).
    split_and!; [done|done|lia|lia|lia|left; split; done|done].
Qed.

End Rounding.

Section RealRounding.

Local Open Scope R_scope.

Lemma bpow_pos e : 0 < bpow e.
Proof. unfold bpow. apply powerRZ_lt. lra. Qed.

Lemma bpow_add a b : bpow (a + b) = bpow a * bpow b.
Proof. unfold bpow. apply powerRZ_add. lra. Qed.

Lemma bpow_IZR (p : Z) : (0 ≤ p)%Z → bpow p = IZR (2 ^ p).
Proof.
  intros Hp. unfold bpow.
  rewrite <- (Z2Nat.id p) by done.
  rewrite <- pow_powerRZ, pow_IZR. reflexivity.
Qed.

Lemma bpow_le a b : (a ≤ b)%Z → bpow a <= bpow b.
Proof.
  intros H.
  assert (bpow b = bpow a * bpow (b - a)) as ->
    by (rewrite <- bpow_add; f_equal; lia).
  rewrite (bpow_IZR (b - a)) by lia.
  assert (1 <= IZR (2 ^ (b - a))).
  { apply IZR_le. assert (0 < 2 ^ (b - a))%Z by (apply Z.pow_pos_nonneg; lia). lia. }
  pose proof (bpow_pos a). nra.
Qed.

Lemma bpow_lt a b : (a < b)%Z → bpow a < bpow b.
Proof.
  intros H.
  assert (bpow b = bpow a * bpow (b - a)) as ->
    by (rewrite <- bpow_add; f_equal; lia).
  rewrite (bpow_IZR (b - a)) by lia.
  assert (2 <= IZR (2 ^ (b - a))).
  { apply IZR_le.
    assert (2 ^ 1 ≤ 2 ^ (b - a))%Z by (apply Z.pow_le_mono_r; lia). lia. }
  pose proof (bpow_pos a). nra.
Qed.

Lemma bpow_lt_inv a b : bpow a < bpow b → (a < b)%Z.
Proof.
  intros H. destruct (Z_lt_le_dec a b) as [|Hle]; [done|].
  apply bpow_le in Hle. lra.
Qed.

Lemma pos_normal_val x :
  pos_normal x →
  ∃ m e, x = S754_finite false m e ∧ val x = IZR (Z.pos m) * bpow e
         ∧ bpow (e + 23) <= val x < bpow (e + 24)
         ∧ (-149 ≤ e ≤ 104)%Z ∧ Z.pos (digits2_pos m) = 24%Z.
Proof.
  intros (m & e & -> & Hd & He). exists m, e.
  pose proof (digits2_pos_bounds m) as [Hlo Hhi]. rewrite Hd in Hlo, Hhi.
  simpl val. rewrite Rmult_1_l.
  split_and!; try done; try lia.
  - rewrite bpow_add, (bpow_IZR 23) by lia. rewrite Rmult_comm.
    apply Rmult_le_compat_r; [pose proof (bpow_pos e); lra|].
    apply IZR_le. exact Hlo.
  - rewrite bpow_add, (bpow_IZR 24) by lia. rewrite (Rmult_comm (bpow e)).
    apply Rmult_lt_compat_r; [apply bpow_pos|].
    apply IZR_lt. exact Hhi.
Qed.

Lemma pos_normal_pos x : pos_normal x → 0 < val x.
Proof.
  intros (m & e & -> & Hv & [Hlo _] & _)%pos_normal_val.
  pose proof (bpow_pos (e + 23)). lra.
Qed.

(** Rounding of a positive real that is known up to its floor in units of
    [2^e]: the result is a positive normal number within relative error
    [eps] of the real. *)
Lemma binary_round_aux_pos_normal (mp : positive) (e : Z) (l : location) (x : R) :
  let d := Z.pos (digits2_pos mp) in
  (24 ≤ d)%Z → (-149 ≤ d + e - 24)%Z → (d + e - 24 < 104)%Z →
  IZR (Z.pos mp) * bpow e <= x < (IZR (Z.pos mp) + 1) * bpow e →
  pos_normal (binary_round_aux 24 128 false (Z.pos mp) e l)
  ∧ x * (1 - eps) <= val (binary_round_aux 24 128 false (Z.pos mp) e l)
    <= x * (1 + eps)
  ∧ (d + e - 24 ≤ exponent (binary_round_aux 24 128 false (Z.pos mp) e l)
     ≤ d + e - 23)%Z
  ∧ (l = loc_Exact → (Z.pos mp mod 2 ^ (d - 24) = 0)%Z →
     val (binary_round_aux 24 128 false (Z.pos mp) e l) = IZR (Z.pos mp) * bpow e).
Proof.
  intros d Hd Hlo Hhi [Hx1 Hx2].
  destruct (binary_round_aux_normal false mp e l Hd Hlo Hhi)
    as (m' & e' & m2 & -> & Hd' & He' & Hm2 & Hcase & Hex).
  fold d in Hm2, Hcase, Hex.
  set (m1 := (Z.pos mp / 2 ^ (d - 24))%Z) in *.
  set (e1 := (d + e - 24)%Z) in *.
  pose proof (digits2_pos_bounds mp) as Hdig. fold d in Hdig.
  pose proof (div_pow2_bounds _ _ Hd Hdig) as Hm1. fold m1 in Hm1.
  assert (Hpow : (0 < 2 ^ (d - 24))%Z) by (apply Z.pow_pos_nonneg; lia).
  pose proof (Z.div_mod (Z.pos mp) (2 ^ (d - 24)) ltac:(lia)) as Hdm.
  pose proof (Z.mod_pos_bound (Z.pos mp) (2 ^ (d - 24)) Hpow) as Hr.
  fold m1 in Hdm.
  set (r := (Z.pos mp mod 2 ^ (d - 24))%Z) in *.
  assert (He1 : bpow e1 = IZR (2 ^ (d - 24)) * bpow e).
  { unfold e1. replace (d + e - 24)%Z with ((d - 24) + e)%Z by lia.
    by rewrite bpow_add, bpow_IZR by lia. }
  assert (Hval : val (S754_finite false m' e') = IZR m2 * bpow e1).
  { simpl val. rewrite Rmult_1_l.
    destruct Hcase as [[-> ->]|[-> <-]]; [done|].
    rewrite bpow_add, mult_IZR.
    assert (bpow 1 = 2) as -> by (unfold bpow; simpl; lra). lra. }
  pose proof (bpow_pos e) as Hbe. pose proof (bpow_pos e1) as Hbe1.
  assert (Hfloor : IZR m1 * bpow e1 <= x < (IZR m1 + 1) * bpow e1).
  { rewrite He1. rewrite Hdm in Hx1, Hx2.
    rewrite plus_IZR, mult_IZR in Hx1, Hx2.
    assert (0 <= IZR r) by (apply IZR_le; lia).
    assert (IZR r + 1 <= IZR (2 ^ (d - 24))).
    { rewrite <- plus_IZR. apply IZR_le. lia. }
    split; nra. }
  assert (H23 : bpow 23 <= IZR m1).
  { rewrite bpow_IZR by lia. apply IZR_le. lia. }
  assert (Hu : eps * bpow 23 = 1).
  { unfold eps. rewrite <- bpow_add. reflexivity. }
  assert (Hupos : 0 < eps) by apply bpow_pos.
  assert (Hum : 1 <= eps * IZR m1) by nra.
  assert (Hux : bpow e1 <= eps * x).
  { apply Rle_trans with (eps * (IZR m1 * bpow e1)).
    - rewrite <- Rmult_assoc. nra.
    - apply Rmult_le_compat_l; lra. }
  split_and!.
  - exists m', e'. split_and!; [done|done|lia|lia].
  - rewrite Hval. destruct Hm2 as [->| ->]; [|rewrite plus_IZR]; lra.
  - rewrite Hval. destruct Hm2 as [->| ->]; [|rewrite plus_IZR]; lra.
  - simpl. destruct Hcase as [[-> _]|[-> _]]; lia.
  - simpl. destruct Hcase as [[-> _]|[-> _]]; lia.
  - intros Hl Hmod. rewrite Hval, (Hex Hl Hmod), He1.
    fold r in Hmod.
    assert (E : IZR (Z.pos mp) = IZR (2 ^ (d - 24)) * IZR m1).
    { rewrite <- mult_IZR. apply f_equal. lia. }
    rewrite E. ring.
Qed.

Lemma digits_lower (m : positive) (k : Z) :
  (0 ≤ k)%Z → (2 ^ k ≤ Z.pos m)%Z → (k + 1 ≤ Z.pos (digits2_pos m))%Z.
Proof.
  intros Hk Hm. pose proof (digits2_pos_bounds m) as [_ Hhi].
  destruct (Z_lt_le_dec (Z.pos (digits2_pos m)) (k + 1)) as [Hlt|]; [|done].
  assert (2 ^ Z.pos (digits2_pos m) ≤ 2 ^ k)%Z
    by (apply Z.pow_le_mono_r; lia).
  lia.
Qed.

Lemma digits_upper (m : positive) (k : Z) :
  (0 ≤ k)%Z → (Z.pos m < 2 ^ k)%Z → (Z.pos (digits2_pos m) ≤ k)%Z.
Proof.
  intros Hk Hm. pose proof (digits2_pos_bounds m) as [Hlo _].
  destruct (Z_lt_le_dec k (Z.pos (digits2_pos m))) as [Hlt|]; [|done].
  assert (2 ^ k ≤ 2 ^ (Z.pos (digits2_pos m) - 1))%Z
    by (apply Z.pow_le_mono_r; lia).
  lia.
Qed.

Lemma normal_mantissa (m : positive) :
  Z.pos (digits2_pos m) = 24%Z → (2 ^ 23 ≤ Z.pos m < 2 ^ 24)%Z.
Proof.
  intros Hd. pose proof (digits2_pos_bounds m) as H. by rewrite Hd in H.
Qed.

(** One rounded product, sum, square root and quotient of positive
    normal numbers: a positive normal number within relative error [eps]
    of the exact result, as long as the exponents stay in range. *)
Lemma mul_pos_normal (x y : spec_float) :
  pos_normal x → pos_normal y → (-172 ≤ exponent x + exponent y < 80)%Z →
  pos_normal (F32.mul x y)
  ∧ val x * val y * (1 - eps) <= val (F32.mul x y) <= val x * val y * (1 + eps).
Proof.
  change (F32.mul x y) with (SFmul 24 128 x y).
  intros (mx & ex & -> & Hdx & Hex) (my & ey & -> & Hdy & Hey) He.
  simpl in He. simpl SFmul.
  apply normal_mantissa in Hdx, Hdy.
  assert (2 ^ 46 ≤ Z.pos (mx * my) < 2 ^ 48)%Z as HM.
  { rewrite Pos2Z.inj_mul.
    change (2 ^ 46)%Z with (2 ^ 23 * 2 ^ 23)%Z.
    change (2 ^ 48)%Z with (2 ^ 24 * 2 ^ 24)%Z. nia. }
  pose proof (digits_lower (mx * my) 46 ltac:(lia) (proj1 HM)) as Hd1.
  pose proof (digits_upper (mx * my) 48 ltac:(lia) (proj2 HM)) as Hd2.
  destruct (binary_round_aux_pos_normal (mx * my) (ex + ey) loc_Exact
              (IZR (Z.pos (mx * my)) * bpow (ex + ey)))
    as (Hg & Hv & _); try lia.
  { pose proof (bpow_pos (ex + ey)). split; nra. }
  split; [done|].
  replace (val (S754_finite false mx ex) * val (S754_finite false my ey))
    with (IZR (Z.pos (mx * my)) * bpow (ex + ey)); [done|].
  simpl val. rewrite Pos2Z.inj_mul, mult_IZR, bpow_add. ring.
Qed.

Lemma pos_iter_xO (m : positive) (d : positive) :
  Z.pos (Pos.iter xO m d) = (Z.pos m * 2 ^ Z.pos d)%Z.
Proof.
  induction d as [|d IH] using Pos.peano_ind.
  - simpl. lia.
  - rewrite Pos.iter_succ, Pos2Z.inj_xO, IH.
    rewrite Pos2Z.inj_succ, Z.pow_succ_r by lia. lia.
Qed.

Lemma shl_align_fst (m : positive) (e e' : Z) :
  (e' ≤ e)%Z → Z.pos (shl_align m e e').1 = (Z.pos m * 2 ^ (e - e'))%Z.
Proof.
  intros He. unfold shl_align.
  destruct (e' - e)%Z as [|p|p] eqn:E; simpl.
  - replace (e - e')%Z with 0%Z by lia. lia.
  - lia.
  - rewrite pos_iter_xO. f_equal. f_equal. lia.
Qed.

Lemma shl_align_id (m : positive) (e e' : Z) :
  (e ≤ e')%Z → shl_align m e e' = (m, e).
Proof.
  intros He. unfold shl_align.
  destruct (e' - e)%Z as [|p|p] eqn:E; try done. lia.
Qed.

Lemma sum_bounds (mx my : positive) (a b : Z) :
  Z.pos (digits2_pos mx) = 24%Z → Z.pos (digits2_pos my) = 24%Z →
  (0 ≤ a)%Z → (0 ≤ b)%Z → (a = 0 ∨ b = 0)%Z →
  (2 ^ (23 + Z.max a b) ≤ Z.pos mx * 2 ^ a + Z.pos my * 2 ^ b
   < 2 ^ (25 + Z.max a b))%Z.
Proof.
  intros Hx%normal_mantissa Hy%normal_mantissa Ha Hb Hab.
  assert (0 < 2 ^ a)%Z by (apply Z.pow_pos_nonneg; lia).
  assert (0 < 2 ^ b)%Z by (apply Z.pow_pos_nonneg; lia).
  rewrite !Z.pow_add_r by lia.
  change (2 ^ 25)%Z with (2 * 2 ^ 24)%Z.
  destruct Hab as [-> | ->].
  - rewrite Z.max_r by lia. change (2 ^ 0)%Z with 1%Z. nia.
  - rewrite Z.max_l by lia. change (2 ^ 0)%Z with 1%Z. nia.
Qed.

Lemma add_pos_normal (x y : spec_float) :
  pos_normal x → pos_normal y → (exponent x ≤ 102)%Z → (exponent y ≤ 102)%Z →
  pos_normal (F32.add x y)
  ∧ (val x + val y) * (1 - eps) <= val (F32.add x y)
    <= (val x + val y) * (1 + eps).
Proof.
  change (F32.add x y) with (SFadd 24 128 x y).
  intros (mx & ex & -> & Hdx & Hex) (my & ey & -> & Hdy & Hey) Hx Hy.
  simpl in Hx, Hy. cbn [SFadd cond_Zopp].
  set (ez := Z.min ex ey).
  rewrite !shl_align_fst by (unfold ez; lia).
  pose proof (sum_bounds mx my (ex - ez) (ey - ez) Hdx Hdy
                ltac:(unfold ez; lia) ltac:(unfold ez; lia)
                ltac:(unfold ez; lia)) as HM.
  set (t := Z.max (ex - ez) (ey - ez)) in HM.
  destruct (Z.pos mx * 2 ^ (ex - ez) + Z.pos my * 2 ^ (ey - ez))%Z
    as [|Mp|Mp] eqn:EM.
  { assert (0 < 2 ^ (23 + t))%Z by (apply Z.pow_pos_nonneg; unfold t, ez; lia).
    lia. }
  2: { assert (0 < 2 ^ (23 + t))%Z by (apply Z.pow_pos_nonneg; unfold t, ez; lia).
       lia. }
  pose proof (digits_lower Mp (23 + t) ltac:(unfold t, ez; lia) (proj1 HM)) as Hd1.
  pose proof (digits_upper Mp (25 + t) ltac:(unfold t, ez; lia) (proj2 HM)) as Hd2.
  cbn [binary_normalize]. unfold binary_round.
  rewrite shl_align_id
    by (rewrite fexp32; unfold t, ez in *; lia).
  destruct (binary_round_aux_pos_normal Mp ez loc_Exact (IZR (Z.pos Mp) * bpow ez))
    as (Hg & Hv & _); try (unfold t, ez in *; lia).
  { pose proof (bpow_pos ez). split; nra. }
  split; [done|].
  replace (val (S754_finite false mx ex) + val (S754_finite false my ey))
    with (IZR (Z.pos Mp) * bpow ez); [done|].
  rewrite <- EM. simpl val. rewrite plus_IZR, !mult_IZR.
  rewrite <- !bpow_IZR by (unfold ez; lia).
  replace (bpow ex) with (bpow (ex - ez) * bpow ez)
    by (rewrite <- bpow_add; f_equal; lia).
  replace (bpow ey) with (bpow (ey - ez) * bpow ez)
    by (rewrite <- bpow_add; f_equal; lia).
  ring.
Qed.

Lemma sqrt_pos_normal (x : spec_float) :
  pos_normal x →
  pos_normal (F32.sqrt x)
  ∧ sqrt (val x) * (1 - eps) <= val (F32.sqrt x) <= sqrt (val x) * (1 + eps).
Proof.
  change (F32.sqrt x) with (SFsqrt 24 128 x).
  intros (mx & ex & -> & Hdx & Hex).
  pose proof (normal_mantissa mx Hdx) as Hmx.
  cbn [SFsqrt]. unfold SFsqrt_core_binary.
  change (Zdigits2 (Z.pos mx)) with (Z.pos (digits2_pos mx)). rewrite Hdx.
  rewrite fexp32, !Z.div2_div.
  set (h := ((24 + ex + 1) / 2)%Z).
  assert (2 * h ≤ 25 + ex ≤ 2 * h + 1)%Z as Hh.
  { unfold h. pose proof (Z.div_mod (24 + ex + 1) 2 ltac:(lia)).
    pose proof (Z.mod_pos_bound (24 + ex + 1) 2 ltac:(lia)). lia. }
  assert (2 * (ex / 2) ≤ ex ≤ 2 * (ex / 2) + 1)%Z as Hex2.
  { pose proof (Z.div_mod ex 2 ltac:(lia)).
    pose proof (Z.mod_pos_bound ex 2 ltac:(lia)). lia. }
  replace (Z.min (Z.max (h - 24) (-149)) (ex / 2)) with (h - 24)%Z by lia.
  set (e' := (h - 24)%Z).
  assert (ex - 2 * e' = 23 ∨ ex - 2 * e' = 24)%Z as Hs by (unfold e'; lia).
  set (m' := match (ex - 2 * e')%Z with
             | 0%Z => Z.pos mx
             | Z.pos _ => Z.shiftl (Z.pos mx) (ex - 2 * e')
             | Z.neg _ => 0%Z
             end).
  assert (m' = Z.pos mx * 2 ^ (ex - 2 * e'))%Z as Hm'.
  { unfold m'. destruct Hs as [-> | ->]; by rewrite Z.shiftl_mul_pow2. }
  assert (2 ^ 46 ≤ m' < 2 ^ 48)%Z as Hm'b.
  { rewrite Hm'. destruct Hs as [-> | ->].
    - change (2 ^ 46)%Z with (2 ^ 23 * 2 ^ 23)%Z.
      change (2 ^ 48)%Z with (2 ^ 25 * 2 ^ 23)%Z. lia.
    - change (2 ^ 46)%Z with (2 ^ 22 * 2 ^ 24)%Z.
      change (2 ^ 48)%Z with (2 ^ 24 * 2 ^ 24)%Z. lia. }
  clearbody m'.
  pose proof (Z.sqrtrem_spec m' ltac:(lia)) as Hsq.
  destruct (Z.sqrtrem m') as [q r]. destruct Hsq as [Hq Hr].
  assert (2 ^ 23 ≤ q < 2 ^ 24)%Z as Hqb.
  { change (2 ^ 46)%Z with (2 ^ 23 * 2 ^ 23)%Z in Hm'b.
    change (2 ^ 48)%Z with (2 ^ 24 * 2 ^ 24)%Z in Hm'b. nia. }
  destruct q as [|qp|qp]; [lia| |lia].
  assert (Z.pos (digits2_pos qp) = 24%Z) as Hdq
    by (apply digits2_pos_unique; lia).
  set (l := if (r =? 0)%Z then loc_Exact
            else loc_Inexact (if (r <=? Z.pos qp)%Z then Lt else Gt)).
  clearbody l.
  assert (Hv : val (S754_finite false mx ex) = IZR m' * (bpow e' * bpow e')).
  { simpl val. rewrite Hm', mult_IZR, <- bpow_IZR, <- !bpow_add by lia.
    rewrite Rmult_1_l, Rmult_assoc, <- bpow_add. do 2 f_equal. lia. }
  pose proof (bpow_pos e') as Hbe.
  destruct (binary_round_aux_pos_normal qp e' l (sqrt (val (S754_finite false mx ex))))
    as (Hg & Hb & _); try (rewrite ?Hdq; unfold e'; lia).
  { rewrite Hv. split.
    - rewrite <- (sqrt_square (IZR (Z.pos qp) * bpow e')) at 1.
      + apply sqrt_le_1_alt.
        assert (IZR (Z.pos qp) * IZR (Z.pos qp) <= IZR m').
        { rewrite <- mult_IZR. apply IZR_le. lia. }
        nra.
      + assert (0 < IZR (Z.pos qp)) by (apply IZR_lt; lia). nra.
    - rewrite <- (sqrt_square ((IZR (Z.pos qp) + 1) * bpow e')).
      + apply sqrt_lt_1_alt. split.
        * assert (0 <= IZR m') by (apply IZR_le; lia). nra.
        * assert (IZR m' < (IZR (Z.pos qp) + 1) * (IZR (Z.pos qp) + 1)).
          { rewrite <- plus_IZR, <- mult_IZR. apply IZR_lt. lia. }
          replace ((IZR (Z.pos qp) + 1) * bpow e' * ((IZR (Z.pos qp) + 1) * bpow e'))
            with ((IZR (Z.pos qp) + 1) * (IZR (Z.pos qp) + 1) * (bpow e' * bpow e'))
            by ring.
          apply Rmult_lt_compat_r; [nra|done].
      + assert (0 < IZR (Z.pos qp)) by (apply IZR_lt; lia). nra. }
  done.
Qed.

Lemma div_pos_normal (x y : spec_float) :
  pos_normal x → pos_normal y → (-125 ≤ exponent x - exponent y < 127)%Z →
  pos_normal (F32.div x y)
  ∧ val x / val y * (1 - eps) <= val (F32.div x y)
    <= val x / val y * (1 + eps).
Proof.
  change (F32.div x y) with (SFdiv 24 128 x y).
  intros (mx & ex & -> & Hdx & Hex) (my & ey & -> & Hdy & Hey) He.
  pose proof (normal_mantissa mx Hdx) as Hmx.
  pose proof (normal_mantissa my Hdy) as Hmy.
  simpl in He. cbn [SFdiv xorb]. unfold SFdiv_core_binary.
  change (Zdigits2 (Z.pos mx)) with (Z.pos (digits2_pos mx)).
  change (Zdigits2 (Z.pos my)) with (Z.pos (digits2_pos my)).
  rewrite Hdx, Hdy, fexp32.
  replace (Z.min (Z.max (24 + ex - (24 + ey) - 24) (-149)) (ex - ey))
    with (ex - ey - 24)%Z by lia.
  replace (ex - ey - (ex - ey - 24))%Z with 24%Z by lia.
  cbv iota. rewrite Z.shiftl_mul_pow2 by lia.
  set (e' := (ex - ey - 24)%Z).
  set (m' := (Z.pos mx * 2 ^ 24)%Z).
  pose proof (Z_div_mod m' (Z.pos my) ltac:(lia)) as Hdm.
  destruct (Z.div_eucl m' (Z.pos my)) as [q r]. destruct Hdm as [Hq Hr].
  assert (2 ^ 23 ≤ q < 2 ^ 25)%Z as Hqb.
  { unfold m' in Hq.
    change (2 ^ 25)%Z with (2 * 2 ^ 24)%Z.
    assert (0 < Z.pos my)%Z by lia. 
    split.
    - destruct (Z_lt_le_dec q (2 ^ 23)) as [Hlt|]; [|done]. nia.
    - destruct (Z_lt_le_dec q (2 * 2 ^ 24)) as [|Hge]; [done|]. nia. }
  destruct q as [|qp|qp]; [lia| |lia].
  pose proof (digits_lower qp 23 ltac:(lia) (proj1 Hqb)) as Hd1.
  pose proof (digits_upper qp 25 ltac:(lia) (proj2 Hqb)) as Hd2.
  set (l := new_location (Z.pos my) r). clearbody l.
  assert (Hv : val (S754_finite false mx ex) / val (S754_finite false my ey)
               = IZR m' / IZR (Z.pos my) * bpow e').
  { simpl val. unfold m', e'. rewrite mult_IZR, <- bpow_IZR by lia.
    replace (bpow ex) with (bpow 24 * bpow (ex - ey - 24) * bpow ey)
      by (rewrite <- !bpow_add; f_equal; lia).
    pose proof (bpow_pos ey). 
    assert (0 < IZR (Z.pos my)) by (apply IZR_lt; lia).
    field. split; lra. }
  pose proof (bpow_pos e') as Hbe.
  assert (Hmy0 : 0 < IZR (Z.pos my)) by (apply IZR_lt; lia).
  destruct (binary_round_aux_pos_normal qp e' l
              (val (S754_finite false mx ex) / val (S754_finite false my ey)))
    as (Hg & Hb & _); try (unfold e'; lia).
  { rewrite Hv, Hq, plus_IZR, mult_IZR.
    assert (0 <= IZR r) by (apply IZR_le; lia).
    assert (IZR r < IZR (Z.pos my)) by (apply IZR_lt; lia).
    replace ((IZR (Z.pos my) * IZR (Z.pos qp) + IZR r) / IZR (Z.pos my))
      with (IZR (Z.pos qp) + IZR r / IZR (Z.pos my)) by (field; lra).
    assert (0 <= IZR r / IZR (Z.pos my)).
    { apply Rmult_le_pos; [done|]. left. by apply Rinv_0_lt_compat. }
    assert (IZR r / IZR (Z.pos my) < 1).
    { apply Rmult_lt_reg_r with (IZR (Z.pos my)); [done|].
      unfold Rdiv. rewrite Rmult_assoc, Rinv_l by lra. lra. }
    split; nra. }
  done.
Qed.

Lemma bpow_le_inv a b : bpow a <= bpow b → (a ≤ b)%Z.
Proof.
  intros H. destruct (Z_lt_le_dec b a) as [Hlt|]; [|done].
  apply bpow_lt in Hlt. lra.
Qed.

(** The exponent of a positive normal number, from bounds on its value. *)
Lemma exponent_bounds (x : spec_float) (a b : Z) :
  pos_normal x → bpow a <= val x → val x <= bpow b →
  (a - 23 ≤ exponent x ≤ b - 23)%Z.
Proof.
  intros (m & e & -> & _ & [Hlo Hhi] & _)%pos_normal_val Ha Hb. simpl.
  assert (bpow a < bpow (e + 24)) as H1%bpow_lt_inv by lra.
  assert (bpow (e + 23) <= bpow b) as H2%bpow_le_inv by lra.
  lia.
Qed.

Lemma bpow_0 : bpow 0 = 1.
Proof. reflexivity. Qed.

Lemma pos_normal_one : pos_normal F32.one ∧ val F32.one = 1.
Proof.
  split.
  - exists 8388608%positive, (-23)%Z. split_and!; [done|done|lia|lia].
  - simpl. unfold bpow. simpl. lra.
Qed.

(** [vec[h] += 1.0f] on a bucket count is exact up to [2^24] and leaves
    [2^24] unchanged. *)
Lemma natfloat_incr (k : Z) (x : spec_float) :
  natfloat k x →
  natfloat (Z.min (k + 1) (2 ^ 24)) (F32.add x F32.one).
Proof.
  change (F32.add x F32.one) with (SFadd 24 128 x F32.one).
  intros [[-> ->]|(Hk & Hg & Hv)].
  - right. simpl. destruct pos_normal_one as [? ?]. split_and!; [lia|lia|done|done].
  - right.
    pose proof Hg as (m & e & -> & Hval & Hb & He & Hd)%pos_normal_val.
    rewrite Hv in Hb.
    assert (-23 ≤ e ≤ 1)%Z as He'.
    { pose proof (exponent_bounds (S754_finite false m e) 0 24 Hg) as Hx.
      cbn [exponent] in Hx. rewrite Hv, bpow_0, (bpow_IZR 24) in Hx by lia.
      assert (1 <= IZR k) by (apply IZR_le; lia).
      assert (IZR k <= IZR (2 ^ 24)) by (apply IZR_le; lia).
      specialize (Hx ltac:(done) ltac:(done)). lia. }
    (* the integer equation behind [val x = k] *)
    assert (Z.pos m * 2 ^ (e + 23) = k * 2 ^ 23)%Z as Hint.
    { apply eq_IZR. rewrite !mult_IZR, <- !bpow_IZR by lia.
      rewrite bpow_add, <- Rmult_assoc, <- Hval, Hv. done. }
    destruct (decide (k = 2 ^ 24)%Z) as [->|Hne].
    + (* saturation: 2^24 + 1 rounds back to 2^24 *)
      assert (e = 1%Z) as ->.
      { destruct Hb as [Hb1 Hb2]. rewrite <- (bpow_IZR 24) in Hb1, Hb2 by lia.
        apply bpow_le_inv in Hb1. apply bpow_lt_inv in Hb2. lia. }
      assert (m = 8388608%positive) as -> by (simpl in Hint; lia).
      split_and!; [lia|lia|done|].
      rewrite Z.min_r by lia. vm_compute SFadd. simpl. unfold bpow. simpl. lra.
    + rewrite Z.min_l by lia.
      cbn [SFadd cond_Zopp F32.one].
      replace (Z.min e (-23)) with (-23)%Z by lia.
      rewrite !shl_align_fst by lia.
      replace (-23 - -23)%Z with 0%Z by lia.
      replace (e - -23)%Z with (e + 23)%Z by lia.
      rewrite Hint. change (Z.pos 8388608 * 2 ^ 0)%Z with (2 ^ 23)%Z.
      replace (k * 2 ^ 23 + 2 ^ 23)%Z with ((k + 1) * 2 ^ 23)%Z by lia.
      destruct ((k + 1) * 2 ^ 23)%Z as [|Mp|Mp] eqn:EM; [lia| |lia].
      assert (2 ^ 24 ≤ Z.pos Mp ≤ 2 ^ 47)%Z as HM.
      { rewrite <- EM. change (2 ^ 47)%Z with (2 ^ 24 * 2 ^ 23)%Z. lia. }
      pose proof (digits_lower Mp 24 ltac:(lia) (proj1 HM)) as Hd1.
      assert (Z.pos (digits2_pos Mp) ≤ 48)%Z as Hd2
        by (apply digits_upper; lia).
      cbn [binary_normalize]. unfold binary_round.
      rewrite shl_align_id by (rewrite fexp32; lia).
      destruct (binary_round_aux_pos_normal Mp (-23) loc_Exact
                  (IZR (Z.pos Mp) * bpow (-23)))
        as (Hg' & _ & _ & Hexact); try lia.
      { pose proof (bpow_pos (-23)). split; nra. }
      assert (Hres : val (binary_round_aux 24 128 false (Z.pos Mp) (-23) loc_Exact)
                     = IZR (k + 1)).
      { rewrite Hexact; [|done|].
        - rewrite <- EM, mult_IZR, (Rmult_assoc _ _ (bpow (-23))).
          rewrite <- (bpow_IZR 23), <- bpow_add by lia.
          change (bpow (23 + -23)) with 1. lra.
        - (* [Mp] has enough trailing zeros *)
          destruct (decide (Z.pos (digits2_pos Mp) - 24 ≤ 23)%Z) as [Hj|Hj].
          + rewrite <- EM. apply Z.mod_divide; [apply Z.pow_nonzero; lia|].
            exists ((k + 1) * 2 ^ (23 - (Z.pos (digits2_pos Mp) - 24)))%Z.
            rewrite <- Z.mul_assoc, <- Z.pow_add_r by lia.
            do 2 f_equal. lia.
          + assert (Z.pos (digits2_pos Mp) = 48)%Z as Hd48 by lia.
            pose proof (digits2_pos_bounds Mp) as [Hlo _].
            rewrite Hd48 in Hlo |- *.
            change (48 - 1)%Z with 47%Z in Hlo.
            assert (Z.pos Mp = 2 ^ 47)%Z as -> by lia. reflexivity. }
      split_and!; [lia|lia|done|done].
Qed.

Lemma eps_value : eps = / 8388608.
Proof. unfold eps, bpow. simpl. lra. Qed.

Lemma eps_bounds : 0 < eps < 1 / 1000000.
Proof. rewrite eps_value. lra. Qed.

Lemma pow_1_plus_eps (n : nat) :
  INR n * eps <= 1 / 2 → (1 + eps) ^ n <= 1 + 2 * INR n * eps.
Proof.
  pose proof eps_bounds as Hu.
  induction n as [|n IH]; intros Hn.
  - simpl. lra.
  - rewrite S_INR in Hn |- *. pose proof (pos_INR n) as Hpos.
    assert (INR n * eps <= 1 / 2) as Hn' by nra.
    specialize (IH Hn'). simpl pow.
    assert (0 <= (1 + eps) ^ n) by (apply pow_le; lra).
    nra.
Qed.

Lemma pow_1_minus_eps (n : nat) : 1 - INR n * eps <= (1 - eps) ^ n.
Proof.
  pose proof eps_bounds as Hu.
  induction n as [|n IH].
  - simpl. lra.
  - rewrite S_INR. pose proof (pos_INR n) as Hpos. simpl pow.
    assert ((1 - eps) * (1 - INR n * eps) <= (1 - eps) * (1 - eps) ^ n)
      by (apply Rmult_le_compat_l; lra).
    assert (0 <= INR n * eps * eps)
      by (apply Rmult_le_pos; [apply Rmult_le_pos|]; lra).
    lra.
Qed.

Lemma pow_1_minus_eps_le_1 (n : nat) : 0 < (1 - eps) ^ n <= 1.
Proof.
  pose proof eps_bounds as Hu. split.
  - apply pow_lt. lra.
  - apply Rle_trans with (1 ^ n); [apply pow_incr; lra|rewrite pow1; lra].
Qed.

Lemma pow_1_plus_eps_ge_1 (n : nat) : 1 <= (1 + eps) ^ n.
Proof. pose proof eps_bounds as Hu. apply pow_R1_Rle. lra. Qed.

Lemma pow_1_plus_eps_small (n : nat) :
  (n ≤ 4100)%nat → (1 + eps) ^ n <= 1 + 2 * INR n * eps ∧ (1 + eps) ^ n <= 1 + 1 / 1000.
Proof.
  intros Hn. pose proof eps_bounds as Hu.
  assert (INR n <= 4100) as Hn'.
  { replace 4100 with (INR 4100) by (simpl; lra). by apply le_INR. }
  pose proof (pos_INR n).
  assert (INR n * eps <= 1 / 2) as Hnu by (rewrite eps_value in *; lra).
  apply pow_1_plus_eps in Hnu. rewrite eps_value in *. split; lra.
Qed.

Lemma natfloat_exponent (k : Z) (x : spec_float) :
  (1 ≤ k ≤ 2 ^ 24)%Z → pos_normal x → val x = IZR k → (-23 ≤ exponent x ≤ 1)%Z.
Proof.
  intros Hk Hg Hv.
  pose proof (exponent_bounds x 0 24 Hg) as Hx.
  rewrite Hv, bpow_0, (bpow_IZR 24) in Hx by lia.
  assert (1 <= IZR k) by (apply IZR_le; lia).
  assert (IZR k <= IZR (2 ^ 24)) by (apply IZR_le; lia).
  specialize (Hx ltac:(done) ltac:(done)). lia.
Qed.

Lemma square_pos_normal (k : Z) (x : spec_float) :
  (1 ≤ k ≤ 2 ^ 24)%Z → pos_normal x → val x = IZR k →
  pos_normal (F32.mul x x)
  ∧ IZR (k * k) * (1 - eps) <= val (F32.mul x x) <= IZR (k * k) * (1 + eps).
Proof.
  intros Hk Hg Hv. pose proof (natfloat_exponent k x Hk Hg Hv) as He.
  destruct (mul_pos_normal x x Hg Hg ltac:(lia)) as [Hg' Hb].
  split; [done|]. rewrite mult_IZR, <- Hv. exact Hb.
Qed.

Lemma widen_bounds (s x y l h v : R) :
  0 <= s → 0 < x <= 1 → 1 <= y → 0 < l <= 1 → 1 <= h →
  s * x <= v <= s * y →
  s * (l * x) <= v <= s * (h * y).
Proof.
  intros Hs Hx Hy Hl Hh [Hv1 Hv2].
  assert (0 <= s * x) by (apply Rmult_le_pos; lra).
  assert (0 <= s * y) by (apply Rmult_le_pos; lra).
  replace (s * (l * x)) with (l * (s * x)) by ring.
  replace (s * (h * y)) with (h * (s * y)) by ring.
  split; nra.
Qed.

Lemma first_bounds (k x y l h v : R) :
  0 <= k → 0 < x <= 1 → 1 <= y → 0 < l <= 1 → 1 <= h →
  k * l <= v <= k * h →
  k * (l * x) <= v <= k * (h * y).
Proof.
  intros Hk Hx Hy Hl Hh [Hv1 Hv2].
  assert (0 <= k * l) by (apply Rmult_le_pos; lra).
  assert (0 <= k * h) by (apply Rmult_le_pos; lra).
  replace (k * (l * x)) with (x * (k * l)) by ring.
  replace (k * (h * y)) with (y * (k * h)) by ring.
  split; nra.
Qed.

Lemma add_bounds (s k x y l h va vs w : R) :
  0 <= s → 0 <= k → 0 < x <= l → h <= y → 0 < l <= 1 → 1 <= h →
  s * x <= va <= s * y →
  k * l <= vs <= k * h →
  (va + vs) * l <= w <= (va + vs) * h →
  (s + k) * (l * x) <= w <= (s + k) * (h * y).
Proof.
  intros Hs Hk Hx Hy Hl Hh [Ha1 Ha2] [Hs1 Hs2] [Hw1 Hw2].
  assert (k * x <= k * l) by (apply Rmult_le_compat_l; lra).
  assert (k * h <= k * y) by (apply Rmult_le_compat_l; lra).
  assert ((s + k) * x <= va + vs) by lra.
  assert (va + vs <= (s + k) * y) by lra.
  assert (l * ((s + k) * x) <= l * (va + vs))
    by (apply Rmult_le_compat_l; lra).
  assert (h * (va + vs) <= h * ((s + k) * y))
    by (apply Rmult_le_compat_l; lra).
  split; lra.
Qed.

Lemma pow_succ_le (x : R) (n : nat) : 0 < x <= 1 → (n ≠ 0)%nat → x ^ n <= x.
Proof.
  intros Hx Hn. destruct n as [|n]; [done|]. simpl.
  assert (0 < x ^ n <= 1).
  { split; [apply pow_lt; lra|].
    apply Rle_trans with (1 ^ n); [apply pow_incr; lra|rewrite pow1; lra]. }
  nra.
Qed.

Lemma pow_succ_ge (x : R) (n : nat) : 1 <= x → (n ≠ 0)%nat → x <= x ^ n.
Proof.
  intros Hx Hn. destruct n as [|n]; [done|]. simpl.
  assert (1 <= x ^ n) by (apply pow_R1_Rle; lra).
  nra.
Qed.

(** One turn of the loop [norm += v * v]. *)
Lemma sum_inv_step (S : Z) (n : nat) (acc : spec_float) (k : Z) (v : spec_float) :
  (n < 4096)%nat → sum_inv S n acc → natfloat k v →
  sum_inv (S + k * k) (Datatypes.S n) (F32.add acc (F32.mul v v)).
Proof.
  intros Hn [HS Hacc] Hv. pose proof eps_bounds as Hu.
  pose proof (pow_1_minus_eps_le_1 n) as HL.
  pose proof (pow_1_plus_eps_ge_1 n) as HU.
  assert (HU2 : (1 + eps) ^ n <= 2).
  { destruct (pow_1_plus_eps_small n ltac:(lia)) as [_ ?]. lra. }
  assert (HS0 : 0 <= IZR S) by (apply IZR_le; lia).
  destruct Hv as [[-> ->]|(Hk & Hg & Hval)].
  - (* an empty bucket adds nothing *)
    change (F32.mul F32.zero F32.zero) with F32.zero.
    replace (S + 0 * 0)%Z with S by lia.
    split; [lia|].
    destruct Hacc as [[-> ->]|(HS1 & Hga & Hb)]; [by left|right].
    destruct Hga as (m & e & -> & Hd & He).
    change (F32.add (S754_finite false m e) F32.zero) with (S754_finite false m e).
    split_and!; [done|by exists m, e|..]; simpl pow;
      apply (widen_bounds (IZR S) ((1 - eps) ^ n) ((1 + eps) ^ n) (1 - eps) (1 + eps));
      (done || lra).
  - destruct (square_pos_normal k v Hk Hg Hval) as [Hgs Hbs].
    assert (1 ≤ k * k ≤ 2 ^ 48)%Z as Hkk.
    { change (2 ^ 48)%Z with (2 ^ 24 * 2 ^ 24)%Z. nia. }
    assert (1 <= IZR (k * k) <= IZR (2 ^ 48)) as Hkk'
      by (split; apply IZR_le; lia).
    split; [lia|]. right.
    destruct Hacc as [[-> ->]|(HS1 & Hga & Hb)].
    + (* first non-empty bucket *)
      destruct Hgs as (m & e & Hsq & Hd & He). rewrite Hsq in *.
      change (F32.add F32.zero (S754_finite false m e)) with (S754_finite false m e).
      rewrite Z.add_0_l.
      split_and!; [lia|by exists m, e|..]; simpl pow;
        apply (first_bounds (IZR (k * k)) ((1 - eps) ^ n) ((1 + eps) ^ n) (1 - eps) (1 + eps));
        (done || lra).
    + assert (n ≠ 0)%nat as Hn0 by (intros ->; simpl in HS; lia).
      assert (IZR S <= IZR (4096 * 2 ^ 48)) as HS'.
      { apply IZR_le. nia. }
      assert (exponent acc ≤ 102)%Z as Hea.
      { pose proof (pos_normal_val acc Hga) as (m & e & -> & _ & [Hlo _] & _).
        simpl. 
        assert (val (S754_finite false m e) <= IZR (2 ^ 61)).
        { change (2 ^ 61)%Z with (2 * (4096 * 2 ^ 48))%Z.
          rewrite mult_IZR. nra. }
        rewrite <- (bpow_IZR 61) in * by lia.
        assert (bpow (e + 23) <= bpow 61) as ?%bpow_le_inv by lra. lia. }
      assert (exponent (F32.mul v v) ≤ 102)%Z as Hes.
      { pose proof (pos_normal_val _ Hgs) as (m & e & Hsq & _ & [Hlo _] & _).
        rewrite Hsq in *. simpl.
        assert (val (S754_finite false m e) <= IZR (2 ^ 49)).
        { change (2 ^ 49)%Z with (2 * 2 ^ 48)%Z.
          rewrite mult_IZR. nra. }
        rewrite <- (bpow_IZR 49) in * by lia.
        assert (bpow (e + 23) <= bpow 49) as ?%bpow_le_inv by lra. lia. }
      destruct (add_pos_normal acc (F32.mul v v) Hga Hgs Hea Hes) as [Hgw Hbw].
      split_and!; [lia|done|..]; rewrite plus_IZR; simpl pow;
        apply (add_bounds (IZR S) (IZR (k * k)) ((1 - eps) ^ n) ((1 + eps) ^ n)
                 (1 - eps) (1 + eps) (val acc) (val (F32.mul v v)));
        try done; try lra.
      all: try (split; [lra|apply pow_succ_le; [lra|done]]).
      all: try (apply pow_succ_ge; [lra|done]).
Qed.

Lemma sum_squares_fold (ks : list Z) (vec : list spec_float) :
  Forall2 natfloat ks vec →
  ∀ S n acc,
    sum_inv S n acc → (n + length vec ≤ 4096)%nat →
    sum_inv (S + sumsq_z ks) (n + length vec)
      (fold_left (λ norm v, F32.add norm (F32.mul v v)) vec acc).
Proof.
  induction 1 as [|k v ks vec Hkv _ IH]; intros S n acc Hinv Hlen.
  - simpl. by rewrite Z.add_0_r, Nat.add_0_r.
  - simpl in Hlen. cbn [fold_left sumsq_z foldr length].
    replace (S + (k * k + foldr (λ k a, (k * k + a)%Z) 0%Z ks))%Z
      with ((S + k * k) + sumsq_z ks)%Z by (unfold sumsq_z; lia).
    replace (n + Datatypes.S (length vec))%nat
      with (Datatypes.S n + length vec)%nat by lia.
    apply IH; [|lia]. apply sum_inv_step; [lia|done|done].
Qed.

Lemma sum_squares_inv (ks : list Z) (vec : list spec_float) :
  Forall2 natfloat ks vec → (length vec ≤ 4096)%nat →
  sum_inv (sumsq_z ks) (length vec) (sum_squares vec).
Proof.
  intros Hks Hlen.
  apply (sum_squares_fold ks vec Hks 0%Z 0%nat F32.zero); [|done].
  split; [simpl; lia|by left].
Qed.


Lemma div_natfloat (k : Z) (v D : spec_float) :
  natfloat k v → pos_normal D → (-30 ≤ exponent D ≤ 10)%Z →
  IZR k / val D * (1 - eps) <= val (F32.div v D) <= IZR k / val D * (1 + eps).
Proof.
  intros [[-> ->]|(Hk & Hg & Hv)] HD He.
  - destruct HD as (m & e & -> & _). simpl. lra.
  - pose proof (natfloat_exponent k v Hk Hg Hv) as Hev.
    destruct (div_pos_normal v D Hg HD ltac:(lia)) as [_ Hb].
    by rewrite <- Hv.
Qed.

Lemma div_natfloat_finite (k : Z) (v D : spec_float) :
  natfloat k v → pos_normal D → (-30 ≤ exponent D ≤ 10)%Z →
  F32.div v D = F32.zero ∨ pos_normal (F32.div v D).
Proof.
  intros [[-> ->]|(Hk & Hg & Hv)] HD He.
  - left. by destruct HD as (m & e & -> & _).
  - right. pose proof (natfloat_exponent k v Hk Hg Hv) as Hev.
    by destruct (div_pos_normal v D Hg HD ltac:(lia)) as [? _].
Qed.

Lemma div_all_finite (ks : list Z) (vec : list spec_float) (D : spec_float) :
  Forall2 natfloat ks vec → pos_normal D → (-30 ≤ exponent D ≤ 10)%Z →
  Forall (λ v, v = F32.zero ∨ pos_normal v) ((λ v, F32.div v D) <$> vec).
Proof.
  intros Hks HD He. apply Forall_fmap.
  induction Hks as [|k v ks vec Hkv _ IH]; constructor; [|done].
  simpl. by apply (div_natfloat_finite k).
Qed.

(** After [v /= norm] on every component: the squared L2 norm against
    the integer sum of squares and the divisor. *)
Lemma sq_sum_normalized (ks : list Z) (vec : list spec_float) (D : spec_float) :
  Forall2 natfloat ks vec → pos_normal D → (-30 ≤ exponent D ≤ 10)%Z →
  IZR (sumsq_z ks) / (val D * val D) * ((1 - eps) * (1 - eps))
  <= sq_sum ((λ v, F32.div v D) <$> vec)
  <= IZR (sumsq_z ks) / (val D * val D) * ((1 + eps) * (1 + eps)).
Proof.
  intros Hks HD He. pose proof eps_bounds as Hu.
  pose proof (pos_normal_pos D HD) as HDpos.
  induction Hks as [|k v ks vec Hkv Hks IH].
  - simpl. unfold Rdiv. rewrite !Rmult_0_l. lra.
  - cbn [fmap list_fmap sq_sum foldr sumsq_z].
    fold (sq_sum ((λ v, F32.div v D) <$> vec)). fold (sumsq_z ks).
    pose proof (div_natfloat k v D Hkv HD He) as Hb.
    assert (0 <= IZR k).
    { destruct Hkv as [[-> _]|[? _]]; apply IZR_le; lia. }
    assert (0 <= IZR k / val D).
    { apply Rmult_le_pos; [done|]. left. by apply Rinv_0_lt_compat. }
    set (c := IZR k / val D) in *.
    set (w := val (F32.div v D)) in *.
    assert (c * c * ((1 - eps) * (1 - eps)) <= w * w <= c * c * ((1 + eps) * (1 + eps))).
    { assert (0 <= c * (1 - eps)) by (apply Rmult_le_pos; lra).
      split; nra. }
    rewrite plus_IZR, mult_IZR.
    replace ((IZR k * IZR k + IZR (sumsq_z ks)) / (val D * val D))
      with (c * c + IZR (sumsq_z ks) / (val D * val D))
      by (unfold c; field; lra).
    lra.
Qed.

Lemma natfloat_range (k : Z) (v : spec_float) : natfloat k v → (0 ≤ k ≤ 2 ^ 24)%Z.
Proof. intros [[-> _]|[? _]]; lia. Qed.

Lemma sumsq_z_nonneg (ks : list Z) : (0 ≤ sumsq_z ks)%Z.
Proof. induction ks as [|k ks IH]; simpl; nia. Qed.

Lemma sumsq_z_alter (ks : list Z) (i : nat) :
  Forall (λ k, 0 ≤ k ≤ 2 ^ 24)%Z ks →
  (sumsq_z ks ≤ sumsq_z (alter bump_z i ks))%Z
  ∧ ((i < length ks)%nat → (1 ≤ sumsq_z (alter bump_z i ks))%Z).
Proof.
  intros Hks. revert i. induction Hks as [|k ks Hk Hks IH]; intros i.
  - simpl. split; [lia|]. intros ?. lia.
  - destruct i as [|i]; cbn [alter list_alter sumsq_z foldr length].
    + fold (sumsq_z ks). pose proof (sumsq_z_nonneg ks).
      assert (k ≤ bump_z k ∧ 1 ≤ bump_z k)%Z as [? ?] by (unfold bump_z; lia).
      split; [nia|]. intros _. nia.
    + fold (sumsq_z ks). fold (sumsq_z (alter bump_z i ks)).
      destruct (IH i) as [H1 H2]. split; [lia|].
      intros Hi. specialize (H2 ltac:(lia)). nia.
Qed.

Section CountsInvariant.

Variable hash : string → N.

Lemma count_token_natfloat (ks : list Z) (vec : list spec_float) (t : string) :
  Forall2 natfloat ks vec → length vec = EMBED_DIM →
  ∃ ks', Forall2 natfloat ks' (count_token hash t vec)
         ∧ (sumsq_z ks ≤ sumsq_z ks')%Z ∧ (1 ≤ sumsq_z ks')%Z.
Proof.
  intros Hks Hlen. unfold count_token.
  set (h := N.to_nat (hash t `mod` N.of_nat EMBED_DIM)).
  assert (h < length ks)%nat as Hh.
  { rewrite (Forall2_length _ _ _ Hks), Hlen. unfold h.
    pose proof (N.mod_lt (hash t) (N.of_nat EMBED_DIM)) as Hm.
    assert (N.of_nat EMBED_DIM ≠ 0%N) by (unfold EMBED_DIM; lia).
    specialize (Hm ltac:(done)). lia. }
  exists (alter bump_z h ks).
  assert (Forall (λ k, 0 ≤ k ≤ 2 ^ 24)%Z ks) as Hpos.
  { clear -Hks. induction Hks as [|k v ks vec Hkv _ IH]; constructor; [|done].
    by apply natfloat_range in Hkv. }
  destruct (sumsq_z_alter ks h Hpos) as [H1 H2].
  split_and!; [|done|by apply H2].
  apply Forall2_alter; [done|].
  intros k v _ _ Hkv. by apply natfloat_incr.
Qed.

(** Every bucket holds a count; with a token, one count is positive. *)
Lemma counts_natfloat (s : string) :
  ∃ ks, Forall2 natfloat ks (counts hash s)
        ∧ (tokens s ≠ [] → (1 ≤ sumsq_z ks)%Z).
Proof.
  rewrite counts_tokens.
  assert (Hgen : ∀ ts ks vec,
    Forall2 natfloat ks vec → length vec = EMBED_DIM →
    ∃ ks', Forall2 natfloat ks' (fold_left (λ v t, count_token hash t v) ts vec)
           ∧ (ts ≠ [] → (1 ≤ sumsq_z ks')%Z)
           ∧ (sumsq_z ks ≤ sumsq_z ks')%Z).
  { induction ts as [|t ts IH]; intros ks vec Hks Hlen.
    - exists ks. split_and!; [done|done|lia].
    - cbn [fold_left].
      destruct (count_token_natfloat ks vec t Hks Hlen) as (ks1 & Hks1 & Hle & Hpos).
      destruct (IH ks1 (count_token hash t vec) Hks1) as (ks2 & Hks2 & _ & Hle2).
      { by rewrite count_token_length. }
      exists ks2. split_and!; [done| |lia]. intros _. lia. }
  destruct (Hgen (tokens s) (replicate EMBED_DIM 0%Z) (replicate EMBED_DIM F32.zero))
    as (ks & Hks & Hpos & _).
  - apply Forall2_replicate. by left.
  - apply length_replicate.
  - by exists ks.
Qed.

End CountsInvariant.

Lemma sq_sum_nonneg (l : list spec_float) : 0 <= sq_sum l.
Proof. induction l as [|v l IH]; simpl; [lra|]. fold (sq_sum l). nra. Qed.

Lemma sqrt_near_1 (y : R) :
  1 - 1 / 1000 <= y <= 1 + 1 / 1000 → Rabs (sqrt y - 1) <= 1 / 1000.
Proof.
  intros [Hlo Hhi].
  assert (1 - 1 / 1000 <= sqrt y).
  { rewrite <- (sqrt_square (1 - 1 / 1000)) by lra.
    apply sqrt_le_1_alt. lra. }
  assert (sqrt y <= 1 + 1 / 1000).
  { rewrite <- (sqrt_square (1 + 1 / 1000)) by lra.
    apply sqrt_le_1_alt. lra. }
  apply Rabs_le. lra.
Qed.

Section Normalized.

Variable hash : string → N.

(** The normalisation of a text with a token, and the squared L2 norm
    of the result. *)
Lemma embed_norm_bounds (s : string) :
  tokens s ≠ [] →
  let N := sum_squares (counts hash s) in
  F32.gt N F32.zero = true
  ∧ pos_normal (F32.sqrt N)
  ∧ embed hash s = (λ v, F32.div v (F32.sqrt N)) <$> counts hash s
  ∧ Forall (λ v, v = F32.zero ∨ pos_normal v) (embed hash s)
  ∧ 1 - 1 / 1000 <= sq_sum (embed hash s) <= 1 + 1 / 1000.
Proof.
  intros Ht N. pose proof eps_bounds as Hu.
  destruct (counts_natfloat hash s) as (ks & Hks & Hpos).
  specialize (Hpos Ht).
  pose proof (counts_length hash s) as Hlen.
  assert (length (counts hash s) ≤ 4096)%nat as Hle
    by (rewrite Hlen; unfold EMBED_DIM; lia).
  unfold F32.float in Hlen.
  pose proof (sum_squares_inv ks (counts hash s) Hks Hle) as [HS Hinv].
  rewrite Hlen in HS, Hinv. fold N in Hinv.
  destruct Hinv as [[? _]|(_ & HgN & HbN)]; [lia|].
  set (S := sumsq_z ks) in *.
  assert (HS1 : 1 <= IZR S) by (apply IZR_le; lia).
  assert (HS2 : IZR S <= IZR (2 ^ 60)).
  { apply IZR_le. unfold EMBED_DIM in HS.
    change (2 ^ 60)%Z with (4096 * 2 ^ 48)%Z. lia. }
  (* the powers of 1 - eps and 1 + eps *)
  pose proof (pow_1_minus_eps EMBED_DIM) as HL.
  pose proof (pow_1_minus_eps_le_1 EMBED_DIM) as HL1.
  destruct (pow_1_plus_eps_small EMBED_DIM ltac:(unfold EMBED_DIM; lia)) as [HU _].
  pose proof (pow_1_plus_eps_ge_1 EMBED_DIM) as HU1.
  assert (HD : INR EMBED_DIM = 4096) by (unfold EMBED_DIM; simpl; lra).
  rewrite HD in HL, HU.
  set (Ln := (1 - eps) ^ EMBED_DIM) in *. set (Un := (1 + eps) ^ EMBED_DIM) in *.
  set (vN := val N) in *.
  assert (HvN : 1 / 2 <= vN <= IZR (2 ^ 61)).
  { change (2 ^ 61)%Z with (2 * 2 ^ 60)%Z. rewrite mult_IZR.
    rewrite eps_value in *. split; nra. }
  (* the test [norm > 0.0f] succeeds *)
  assert (Hgt : F32.gt N F32.zero = true).
  { destruct HgN as (m & e & -> & _). reflexivity. }
  (* the square root *)
  destruct (sqrt_pos_normal N HgN) as [HgD HbD].
  change (SFsqrt 24 128 N) with (F32.sqrt N) in HgD, HbD.
  fold vN in HbD.
  set (D := F32.sqrt N) in *. set (vD := val D) in *.
  assert (Hsq : sqrt vN * sqrt vN = vN) by (apply sqrt_sqrt; lra).
  assert (Hsq1 : 1 / 2 <= sqrt vN <= IZR (2 ^ 31)).
  { split.
    - rewrite <- (sqrt_square (1 / 2)) by lra. apply sqrt_le_1_alt. lra.
    - rewrite <- (sqrt_square (IZR (2 ^ 31))) by (apply IZR_le; lia).
      apply sqrt_le_1_alt. rewrite <- mult_IZR.
      apply Rle_trans with (IZR (2 ^ 61)); [lra|]. apply IZR_le. lia. }
  assert (HeD : (-30 ≤ exponent D ≤ 10)%Z).
  { pose proof (exponent_bounds D (-2) 32 HgD) as Hx.
    assert (bpow (-2) <= val D).
    { fold vD. unfold bpow. simpl. rewrite eps_value in *. nra. }
    assert (val D <= bpow 32).
    { fold vD. rewrite (bpow_IZR 32) by lia.
      change (2 ^ 32)%Z with (2 * 2 ^ 31)%Z. rewrite mult_IZR.
      rewrite eps_value in *. nra. }
    specialize (Hx ltac:(done) ltac:(done)). lia. }
  assert (Hembed : embed hash s = (λ v, F32.div v D) <$> counts hash s).
  { unfold embed, normalize. fold N. by rewrite Hgt. }
  assert (Hfin : Forall (λ v, v = F32.zero ∨ pos_normal v) (embed hash s)).
  { rewrite Hembed. by apply (div_all_finite ks). }
  split_and!; [done|done|done|done|..]; rewrite Hembed.
  all: pose proof (sq_sum_normalized ks (counts hash s) D Hks HgD HeD) as [Hlo Hhi].
  all: fold S vD in Hlo, Hhi.
  all: set (Sigma := sq_sum ((λ v, F32.div v D) <$> counts hash s)) in *.
  all: assert (HvD : 0 < vD) by (apply pos_normal_pos; done).
  all: set (t := IZR S / (vD * vD)) in *.
  all: assert (Ht0 : 0 < t)
         by (apply Rmult_lt_0_compat; [lra|apply Rinv_0_lt_compat; nra]).
  all: assert (HtS : t * (vD * vD) = IZR S) by (unfold t; field; lra).
  (* vD^2 between vN (1-eps)^2 and vN (1+eps)^2 *)
  all: assert (HvD2 : vN * ((1 - eps) * (1 - eps)) <= vD * vD <= vN * ((1 + eps) * (1 + eps))).
  all: try (assert (0 <= sqrt vN * (1 - eps)) by (apply Rmult_le_pos; lra);
            rewrite <- Hsq; split; nra).
  - (* lower bound *)
    assert (IZR S <= t * (IZR S * Un * ((1 + eps) * (1 + eps)))).
    { rewrite <- HtS at 1. apply Rmult_le_compat_l; [lra|]. nra. }
    assert (1 <= t * (Un * ((1 + eps) * (1 + eps)))) by nra.
    assert (Un * ((1 + eps) * (1 + eps)) <= 1 + 8200 * eps).
    { rewrite eps_value in *. nra. }
    assert (1 <= t * (1 + 8200 * eps)) by nra.
    rewrite eps_value in *. nra.
  - (* upper bound *)
    assert (t * (IZR S * Ln * ((1 - eps) * (1 - eps))) <= IZR S).
    { rewrite <- HtS at 2. apply Rmult_le_compat_l; [lra|]. nra. }
    assert (t * (Ln * ((1 - eps) * (1 - eps))) <= 1) by nra.
    assert (1 - 4100 * eps <= Ln * ((1 - eps) * (1 - eps))).
    { rewrite eps_value in *. nra. }
    assert (t * (1 - 4100 * eps) <= 1) by nra.
    rewrite eps_value in *. nra.
Qed.

End Normalized.

End RealRounding.

(** C8. For every text, [embed] returns 4096 components. When the text
    has at least one token, the sum of squares is positive, every bucket
    count is divided by the square root of the sum of squares, that
    divisor is a positive normal number (nothing is divided by zero),
    every component of the result is [0] or a positive normal number, and
    the L2 norm of the resulting binary32 vector, taken over the reals,
    is within 1/1000 of 1: the bound holds for every text and every
    string hash, over 4096 rounded accumulations, a rounded square root
    and rounded divisions. When the text has no token, the sum of
    squares is [0], the test [norm > 0.0f] fails, nothing is divided and
    the result is the all-zero vector. *)
Theorem embed_is_normalized (hash : string → N) (s : string) :
  length (embed hash s) = 4096%nat
  ∧ (tokens s ≠ [] →
     let norm := sum_squares (counts hash s) in
     F32.gt norm F32.zero = true
     ∧ embed hash s = (λ v, F32.div v (F32.sqrt norm)) <$> counts hash s
     ∧ pos_normal (F32.sqrt norm)
     ∧ (0 < val (F32.sqrt norm))%R
     ∧ Forall (λ v, v = F32.zero ∨ pos_normal v) (embed hash s)
     ∧ (Rabs (l2_norm (embed hash s) - 1) <= 1 / 1000)%R)
  ∧ (tokens s = [] →
     sum_squares (counts hash s) = F32.zero
     ∧ F32.gt (sum_squares (counts hash s)) F32.zero = false
     ∧ embed hash s = replicate 4096 F32.zero).
Proof.
  split_and!.
  - apply embed_length.
  - intros Ht norm.
    destruct (embed_norm_bounds hash s Ht)
      as (Hgt & Hpos & Hembed & Hfin & Hsum).
    fold norm in Hgt, Hpos, Hembed.
    split_and!; [done|done|done|by apply pos_normal_pos|done|].
    by apply sqrt_near_1.
  - intros Ht. destruct (embed_no_tokens hash s Ht) as [Hsum Hembed].
    split_and!; [done| |done]. by rewrite Hsum.
Qed.

(** An instance of C8: a text of two tokens. *)
Lemma embed_is_normalized_witness :
  tokens "cat sat" ≠ []
  ∧ (Rabs (l2_norm (embed sample_hash "cat sat") - 1) <= 1 / 1000)%R.
Proof.
  assert (H1 : tokens "cat sat" ≠ []) by (vm_compute; discriminate).
  split; [exact H1|].
  destruct (embed_is_normalized sample_hash "cat sat") as (_ & H & _).
  destruct (H H1) as (_ & _ & _ & _ & _ & Hn). exact Hn.
Defined.

(** ** Framing: the length header and the two directions of a message *)

Lemma byte_val_bounds b : 0 ≤ byte_val b < 256.
Proof.
  unfold byte_val. pose proof (Byte.to_N_bounded b). lia.
Qed.

Lemma byte_val_of_Z z : 0 ≤ z < 256 → byte_val (byte_of_Z z) = z.
Proof.
  intros Hz. unfold byte_val, byte_of_Z.
  destruct (Byte.of_N (Z.to_N z)) as [b|] eqn:E; simpl.
  - apply Byte.to_of_N in E. rewrite E. lia.
  - apply Byte.of_N_None_iff in E. lia.
Qed.

Lemma byte_of_Z_val b : byte_of_Z (byte_val b) = b.
Proof.
  unfold byte_val, byte_of_Z. by rewrite N2Z.id, Byte.of_to_N.
Qed.

Lemma land_255_bounds z : 0 ≤ Z.land z 255 < 256.
Proof.
  change 255 with (Z.ones 8). rewrite Z.land_ones by lia.
  apply Z.mod_pos_bound. lia.
Qed.

Lemma testbit_octet z s k :
  0 ≤ s → 0 ≤ k →
  Z.testbit (Z.shiftl (Z.land (Z.shiftr z s) 255) s) k
  = Z.testbit z k && (s <=? k) && (k <? s + 8).
Proof.
  intros Hs Hk. rewrite Z.shiftl_spec by done.
  destruct (Z.leb_spec s k) as [Hle|Hlt].
  - rewrite Z.land_spec, Z.shiftr_spec by lia.
    change 255 with (Z.ones 8). rewrite Z.testbit_ones by lia.
    replace (k - s + s) with k by lia.
    destruct (Z.testbit z k); simpl; [|done].
    destruct (Z.leb_spec 0 (k - s)), (Z.ltb_spec (k - s) 8),
      (Z.ltb_spec k (s + 8)); simpl; try done; lia.
  - rewrite Z.testbit_neg_r by lia. by rewrite andb_false_r.
Qed.

Lemma octets_join z :
  0 ≤ z < 2 ^ 32 →
  Z.lor (Z.lor (Z.lor (Z.shiftl (Z.land (Z.shiftr z 24) 255) 24)
                      (Z.shiftl (Z.land (Z.shiftr z 16) 255) 16))
               (Z.shiftl (Z.land (Z.shiftr z 8) 255) 8))
        (Z.land z 255)
  = z.
Proof.
  intros Hz. apply Z.bits_inj'. intros k Hk.
  rewrite <- (Z.shiftl_0_r (Z.land z 255)).
  rewrite <- (Z.shiftr_0_r z) at 4.
  rewrite !Z.lor_spec, !testbit_octet by lia.
  destruct (Z.ltb_spec k 32) as [Hlt|Hge].
  - destruct (Z.testbit z k); simpl; [|done].
    destruct (Z.leb_spec 24 k), (Z.leb_spec 16 k), (Z.leb_spec 8 k),
      (Z.leb_spec 0 k), (Z.ltb_spec k (24 + 8)), (Z.ltb_spec k (16 + 8)),
      (Z.ltb_spec k (8 + 8)), (Z.ltb_spec k (0 + 8)); simpl; try done; lia.
  - assert (Z.testbit z k = false) as ->; [|done].
    rewrite <- (Z.mod_small z (2 ^ 32)) by lia.
    apply Z.mod_pow2_bits_high. lia.
Qed.

(** The header written for a payload of [n] bytes decodes to [n]
    modulo 2^32 (the cast to [uint32_t]). *)
Lemma decode_encode_length n :
  Server.decode_length (Server.encode_length n) = Z.of_nat n mod 2 ^ 32.
Proof.
  unfold Server.decode_length, Server.encode_length. cbn [nth].
  rewrite !byte_val_of_Z by apply land_255_bounds.
  apply octets_join. apply Z.mod_pos_bound. lia.
Qed.

Lemma lor_shiftl_add a b n :
  0 ≤ n → 0 ≤ b < 2 ^ n → Z.lor (Z.shiftl a n) b = a * 2 ^ n + b.
Proof.
  intros Hn Hb. rewrite <- Z.shiftl_mul_pow2 by done.
  rewrite <- Z.lxor_lor, <- Z.add_nocarry_lxor; try done.
  all: apply Z.bits_inj'; intros k Hk;
    rewrite Z.land_spec, Z.bits_0, Z.shiftl_spec by done;
    destruct (Z.ltb_spec k n) as [Hlt|Hge];
    [ by rewrite Z.testbit_neg_r by lia
    | rewrite <- (Z.mod_small b (2 ^ n)) by done;
      rewrite Z.mod_pow2_bits_high by lia; apply andb_false_r ].
Qed.

Lemma lor_multiple_add a b n :
  0 ≤ n → 0 ≤ b < 2 ^ n → Z.lor (a * 2 ^ n) b = a * 2 ^ n + b.
Proof.
  intros Hn Hb. rewrite <- lor_shiftl_add by done.
  by rewrite Z.shiftl_mul_pow2.
Qed.

(** The header read as a number: big-endian, most significant byte
    first. *)
Lemma decode_length_sum b0 b1 b2 b3 :
  Server.decode_length [b0; b1; b2; b3]
  = byte_val b0 * 2 ^ 24 + byte_val b1 * 2 ^ 16 + byte_val b2 * 2 ^ 8
    + byte_val b3.
Proof.
  unfold Server.decode_length. cbn [nth].
  pose proof (byte_val_bounds b0). pose proof (byte_val_bounds b1).
  pose proof (byte_val_bounds b2). pose proof (byte_val_bounds b3).
  rewrite !Z.shiftl_mul_pow2 by lia.
  rewrite (lor_multiple_add (byte_val b0) (byte_val b1 * 2 ^ 16) 24) by lia.
  replace (byte_val b0 * 2 ^ 24 + byte_val b1 * 2 ^ 16)
    with ((byte_val b0 * 2 ^ 8 + byte_val b1) * 2 ^ 16) by lia.
  rewrite (lor_multiple_add _ (byte_val b2 * 2 ^ 8) 16) by lia.
  replace ((byte_val b0 * 2 ^ 8 + byte_val b1) * 2 ^ 16 + byte_val b2 * 2 ^ 8)
    with (((byte_val b0 * 2 ^ 8 + byte_val b1) * 2 ^ 8 + byte_val b2) * 2 ^ 8)
    by lia.
  rewrite lor_multiple_add by lia. lia.
Qed.

Lemma decode_length_bounds h : 0 ≤ Server.decode_length h < 2 ^ 32.
Proof.
  assert (∃ b0 b1 b2 b3,
            Server.decode_length h = Server.decode_length [b0; b1; b2; b3])
    as (b0 & b1 & b2 & b3 & ->).
  { exists (nth 0 h Byte.x00), (nth 1 h Byte.x00), (nth 2 h Byte.x00),
      (nth 3 h Byte.x00). done. }
  rewrite decode_length_sum.
  pose proof (byte_val_bounds b0). pose proof (byte_val_bounds b1).
  pose proof (byte_val_bounds b2). pose proof (byte_val_bounds b3). lia.
Qed.

(** A 4-byte header is the header written for the length it declares. *)
Lemma encode_decode_length h :
  length h = 4%nat →
  Server.encode_length (Z.to_nat (Server.decode_length h)) = h.
Proof.
  intros Hlen.
  destruct h as [|b0 [|b1 [|b2 [|b3 [|]]]]]; simplify_eq/=.
  pose proof (decode_length_bounds [b0; b1; b2; b3]) as Hb.
  unfold Server.encode_length.
  rewrite Z2Nat.id, Z.mod_small by lia.
  rewrite decode_length_sum.
  pose proof (byte_val_bounds b0). pose proof (byte_val_bounds b1).
  pose proof (byte_val_bounds b2). pose proof (byte_val_bounds b3).
  change 255 with (Z.ones 8). rewrite !Z.land_ones, !Z.shiftr_div_pow2 by lia.
  set (D := byte_val b0 * 2 ^ 24 + byte_val b1 * 2 ^ 16 + byte_val b2 * 2 ^ 8
            + byte_val b3).
  assert ((D / 2 ^ 24) mod 2 ^ 8 = byte_val b0) as ->
    by (subst D; Z.to_euclidean_division_equations; lia).
  assert ((D / 2 ^ 16) mod 2 ^ 8 = byte_val b1) as ->
    by (subst D; Z.to_euclidean_division_equations; lia).
  assert ((D / 2 ^ 8) mod 2 ^ 8 = byte_val b2) as ->
    by (subst D; Z.to_euclidean_division_equations; lia).
  assert (D mod 2 ^ 8 = byte_val b3) as ->
    by (subst D; Z.to_euclidean_division_equations; lia).
  by rewrite !byte_of_Z_val.
Qed.

Lemma length_string_of_list_byte l :
  String.length (string_of_list_byte l) = length l.
Proof.
  unfold string_of_list_byte.
  induction l as [|b l IH]; simpl; [done|]. by rewrite IH.
Qed.

Section Framing.

Implicit Types (c : Conn) (msg : string).

(** X1. [write_message] appends to the socket a prefix of the frame of
    the message and nothing else: the first [tx_room] bytes of it. It
    returns exactly when the peer takes the whole frame; what the peer
    delivers is not touched. *)
Theorem write_message_writes_frame_prefix msg c :
  tx (Server.write_message msg c).2 = tx c ++ take (tx_room c) (frame msg)
  ∧ rx (Server.write_message msg c).2 = rx c
  ∧ tx_room (Server.write_message msg c).2
    = (tx_room c - length (frame msg))%nat
  ∧ ((Server.write_message msg c).1 = Ok ()
     ↔ (length (frame msg) ≤ tx_room c)%nat).
Proof.
  rewrite write_message_outcome.
  destruct (decide (length (frame msg) ≤ tx_room c)%nat) as [Hroom|Hroom];
    cbn [fst snd rx tx tx_room tx_errors].
  - rewrite take_ge by done. done.
  - split_and!; [done|done|lia|]. split; [|done].
    by destruct (tx_errors c).
Qed.

Lemma write_message_ok msg c :
  (4 + String.length msg ≤ tx_room c)%nat →
  Server.write_message msg c
  = (Ok (), mkConn (rx c) (tx_room c - length (frame msg))
              (tx c ++ frame msg) (tx_errors c)).
Proof.
  intros Hroom. rewrite write_message_outcome.
  by rewrite decide_True by (rewrite length_frame; lia).
Qed.

Lemma read_message_frame msg rest room out errors :
  (0 < String.length msg)%nat →
  Z.of_nat (String.length msg) ≤ Server.MAX_LENGTH →
  Server.read_message (mkConn (frame msg ++ rest) room out errors)
  = (Ok msg, mkConn rest room out errors).
Proof.
  intros Hpos Hmax. unfold Server.MAX_LENGTH in Hmax.
  unfold Server.read_message, Server.read_loop, frame.
  unfold mbind, M_bind, mret, M_ret. cbn [rx tx tx_room tx_errors].
  rewrite decide_True
    by (rewrite !length_app, length_encode_length; lia).
  rewrite <- app_assoc.
  rewrite take_app_length' by done. rewrite drop_app_length' by done.
  rewrite decode_encode_length, Z.mod_small by lia.
  assert ((Z.of_nat (String.length msg) =? 0)
          || (Z.of_nat (String.length msg) >? Server.MAX_LENGTH) = false) as ->.
  { apply orb_false_iff. split; [apply Z.eqb_neq; lia|].
    unfold Server.MAX_LENGTH. rewrite Z.gtb_ltb. apply Z.ltb_ge. lia. }
  rewrite Nat2Z.id. cbn [rx tx tx_room tx_errors].
  rewrite decide_True
    by (rewrite length_app, length_list_byte_of_string; lia).
  rewrite take_app_length' by (by rewrite length_list_byte_of_string).
  rewrite drop_app_length' by (by rewrite length_list_byte_of_string).
  by rewrite string_of_list_byte_of_string.
Qed.

(** X2. A message of 1 byte to 10 MiB written by [write_message] to a
    peer that takes it is read back by [read_message] as the same
    message; the reader consumes the frame and leaves what follows it. *)
Theorem frame_round_trip msg c rest room out errors :
  (0 < String.length msg)%nat →
  Z.of_nat (String.length msg) ≤ 10 * 1024 * 1024 →
  (4 + String.length msg ≤ tx_room c)%nat →
  ∃ sent,
    Server.write_message msg c
    = (Ok (), mkConn (rx c) (tx_room c - length sent) (tx c ++ sent)
                (tx_errors c))
    ∧ Server.read_message (mkConn (sent ++ rest) room out errors)
      = (Ok msg, mkConn rest room out errors).
Proof.
  intros Hpos Hmax Hroom. exists (frame msg). split.
  - by apply write_message_ok.
  - by apply read_message_frame.
Qed.

(** An instance of X2: the two-byte message of an empty JSON object,
    followed on the wire by one more byte. *)
Lemma frame_round_trip_witness :
  ∃ sent,
    Server.write_message "{}" (mkConn [] 6 [] 0)
    = (Ok (), mkConn [] (6 - length sent) ([] ++ sent) 0)
    ∧ Server.read_message (mkConn (sent ++ [Byte.x0a]) 0 [] 0)
      = (Ok "{}", mkConn [Byte.x0a] 0 [] 0).
Proof.
  apply (frame_round_trip "{}" (mkConn [] 6 [] 0) [Byte.x0a] 0 [] 0);
    simpl; lia.
Defined.

(** X3. [read_message] returns a message only when the stream starts
    with the frame of that message, the message has 1 byte to 10 MiB,
    and it leaves on the stream exactly what follows the frame; it
    writes nothing. *)
Theorem read_message_accepts_frames_only msg c c' :
  Server.read_message c = (Ok msg, c') →
  rx c = frame msg ++ rx c'
  ∧ (0 < String.length msg)%nat
  ∧ Z.of_nat (String.length msg) ≤ 10 * 1024 * 1024
  ∧ tx c' = tx c ∧ tx_room c' = tx_room c ∧ tx_errors c' = tx_errors c.
Proof.
  unfold Server.read_message, Server.read_loop.
  unfold mbind, M_bind, mthrow, M_throw, mret, M_ret.
  destruct (decide (4 ≤ length (rx c))%nat) as [H4|]; [|done].
  cbn [rx tx tx_room tx_errors].
  pose proof (decode_length_bounds (take 4 (rx c))) as Hb.
  set (L := Server.decode_length (take 4 (rx c))) in *.
  destruct ((L =? 0) || (L >? Server.MAX_LENGTH)) eqn:Hbad; [done|].
  apply orb_false_iff in Hbad as [H0 Hmax].
  apply Z.eqb_neq in H0. rewrite Z.gtb_ltb in Hmax. apply Z.ltb_ge in Hmax.
  unfold Server.MAX_LENGTH in Hmax. cbn [rx tx tx_room tx_errors].
  destruct (decide (Z.to_nat L ≤ length (drop 4 (rx c)))%nat) as [Hp|]; [|done].
  intros [= <- <-]. cbn [rx tx tx_room tx_errors].
  assert (Hlen : String.length
                   (string_of_list_byte (take (Z.to_nat L) (drop 4 (rx c))))
                 = Z.to_nat L).
  { rewrite length_string_of_list_byte, length_take. lia. }
  split_and!; [|lia|lia|done|done|done].
  unfold frame. rewrite Hlen, list_byte_of_string_of_list_byte.
  subst L. rewrite encode_decode_length by (rewrite length_take; lia).
  by rewrite <- app_assoc, take_drop, take_drop.
Qed.

(** An instance of X3: the frame of "x" followed by one more byte. *)
Lemma read_message_accepts_frames_only_witness :
  rx (mkConn (frame_not_json ++ [Byte.x0a]) 0 [] 0)
  = frame "x" ++ rx (mkConn [Byte.x0a] 0 [] 0)
  ∧ (0 < String.length "x")%nat
  ∧ Z.of_nat (String.length "x") ≤ 10 * 1024 * 1024
  ∧ tx (mkConn [Byte.x0a] 0 [] 0)
    = tx (mkConn (frame_not_json ++ [Byte.x0a]) 0 [] 0)
  ∧ tx_room (mkConn [Byte.x0a] 0 [] 0)
    = tx_room (mkConn (frame_not_json ++ [Byte.x0a]) 0 [] 0)
  ∧ tx_errors (mkConn [Byte.x0a] 0 [] 0)
    = tx_errors (mkConn (frame_not_json ++ [Byte.x0a]) 0 [] 0).
Proof.
  apply (read_message_accepts_frames_only "x"
           (mkConn (frame_not_json ++ [Byte.x0a]) 0 [] 0)
           (mkConn [Byte.x0a] 0 [] 0)).
  reflexivity.
Defined.

(** X4. A frame cut short is rejected: when the stream ends inside the
    frame of a message, [read_message] throws "Failed to read message
    length" if fewer than 4 bytes arrived and "Failed to read message
    payload" otherwise. *)
Theorem truncated_frame_is_rejected msg k room out errors :
  (0 < String.length msg)%nat →
  Z.of_nat (String.length msg) ≤ 10 * 1024 * 1024 →
  (k < length (frame msg))%nat →
  Server.read_message (mkConn (take k (frame msg)) room out errors)
  = (Throw (runtime_error
              (if decide (k < 4)%nat then "Failed to read message length"
               else "Failed to read message payload")),
     mkConn [] room out errors).
Proof.
  intros Hpos Hmax Hk. rewrite length_frame in Hk.
  unfold Server.read_message, Server.read_loop.
  unfold mbind, M_bind, mthrow, M_throw, mret, M_ret. cbn [rx tx tx_room tx_errors].
  destruct (decide (k < 4)%nat) as [H4|H4].
  - by rewrite decide_False by (rewrite length_take, length_frame; lia).
  - rewrite decide_True by (rewrite length_take, length_frame; lia).
    unfold frame.
    rewrite take_app_ge by (rewrite length_encode_length; lia).
    rewrite length_encode_length.
    rewrite take_app_length' by done. rewrite drop_app_length' by done.
    rewrite decode_encode_length, Z.mod_small by lia.
    assert ((Z.of_nat (String.length msg) =? 0)
            || (Z.of_nat (String.length msg) >? Server.MAX_LENGTH) = false)
      as ->.
    { apply orb_false_iff. split; [apply Z.eqb_neq; lia|].
      unfold Server.MAX_LENGTH. rewrite Z.gtb_ltb. apply Z.ltb_ge. lia. }
    rewrite Nat2Z.id. cbn [rx tx tx_room tx_errors].
    by rewrite decide_False
      by (rewrite length_take, length_list_byte_of_string; lia).
Qed.

(** An instance of X4: the frame of "{}" cut after 2 and after 5 of its
    6 bytes. *)
Lemma truncated_frame_is_rejected_witness :
  Server.read_message (mkConn (take 2 (frame "{}")) 0 [] 0)
  = (Throw (runtime_error "Failed to read message length"), mkConn [] 0 [] 0)
  ∧ Server.read_message (mkConn (take 5 (frame "{}")) 0 [] 0)
    = (Throw (runtime_error "Failed to read message payload"),
       mkConn [] 0 [] 0).
Proof.
  split.
  - apply (truncated_frame_is_rejected "{}" 2 0 [] 0); simpl; lia.
  - apply (truncated_frame_is_rejected "{}" 5 0 [] 0); simpl; lia.
Defined.

End Framing.

(** ** One request: what the store and the peer see of it *)

Section Exchange.

Context `{std : !StdSort}.

Variable hash : string → N.
Variable parse : string → result json.
Variable dump : json → result string.

Implicit Types (request : json) (db : VectorDB) (c : Conn).

Lemma handle_store_all_or_nothing request db :
  field request "action" = Some (JString "store") →
  (Server.handle_store hash request db).2 = db
  ∨ ∃ cid did txt,
      field request "chunk_id" = Some (JString cid)
      ∧ field request "doc_id" = Some (JString did)
      ∧ field request "text" = Some (JString txt)
      ∧ Server.handle_store hash request db
        = (Ok (JObject [("status", JString "ok")]),
           VectorDB.store cid did txt
             (default (JObject []) (field request "metadata"))
             (embed hash txt) db).
Proof.
  intros Ha.
  destruct (field request "chunk_id") as [vc|] eqn:Hc;
    [|left; rewrite handle_store_missing; auto].
  destruct (field request "doc_id") as [vd|] eqn:Hd;
    [|left; rewrite handle_store_missing; auto].
  destruct (field request "text") as [vt|] eqn:Ht;
    [|left; rewrite handle_store_missing; auto].
  assert (Hthrow : ∀ w,
    Json.get_ref_string vc = Throw w ∨ Json.get_ref_string vd = Throw w
    ∨ Json.get_ref_string vt = Throw w →
    (Server.handle_store hash request db).2 = db).
  { intros w Hw. unfold Server.handle_store.
    rewrite (contains_true _ _ _ Hc), (contains_true _ _ _ Hd),
            (contains_true _ _ _ Ht).
    rewrite (at_key_field _ _ _ Hc), (at_key_field _ _ _ Hd),
            (at_key_field _ _ _ Ht).
    unfold mbind, M_bind, call, mret, M_ret. cbn [negb orb].
    destruct (Json.get_ref_string vc); [|done..].
    destruct (Json.get_ref_string vd); [|done..].
    destruct (Json.get_ref_string vt); [|done..].
    by destruct Hw as [|[|]]. }
  destruct vc as [| | | |cid| |];
    try (left; eapply Hthrow; left; reflexivity).
  destruct vd as [| | | |did| |];
    try (left; eapply Hthrow; right; left; reflexivity).
  destruct vt as [| | | |txt| |];
    try (left; eapply Hthrow; right; right; reflexivity).
  right. exists cid, did, txt. split_and!; try done.
  by apply handle_store_ok.
Qed.

(** X5. A request is carried out as a whole or not at all: either
    [dispatch] leaves the store as it was (whatever it returns or
    throws), or the request is a store request with string chunk_id,
    doc_id and text, the answer is {"status": "ok"}, and the store is
    the old one after one [VectorDB::store] of these fields, the
    metadata (an empty object when absent) and the embedding of the
    text. *)
Theorem dispatch_all_or_nothing request db :
  (Server.dispatch hash request db).2 = db
  ∨ ∃ cid did txt,
      field request "action" = Some (JString "store")
      ∧ field request "chunk_id" = Some (JString cid)
      ∧ field request "doc_id" = Some (JString did)
      ∧ field request "text" = Some (JString txt)
      ∧ Server.dispatch hash request db
        = (Ok (JObject [("status", JString "ok")]),
           VectorDB.store cid did txt
             (default (JObject []) (field request "metadata"))
             (embed hash txt) db).
Proof.
  destruct (field request "action") as [v|] eqn:Hv.
  2: { left. rewrite dispatch_no_action; [done|]. by rewrite Hv. }
  destruct v as [| | | |a| |];
    try (left; rewrite dispatch_no_action; [done|by rewrite Hv]).
  rewrite (dispatch_action hash _ _ _ Hv).
  case_bool_decide as Hs.
  - subst a.
    destruct (handle_store_all_or_nothing request db Hv)
      as [?|(cid & did & txt & ? & ? & ? & ?)]; [by left|].
    right. by exists cid, did, txt.
  - left. case_bool_decide; [apply handle_search_state|done].
Qed.

Lemma dispatch_throw_state request db e db' :
  Server.dispatch hash request db = (Throw e, db') → db' = db.
Proof.
  intros H.
  destruct (field request "action") as [v|] eqn:Hv.
  2: { rewrite dispatch_no_action in H; [done|]. by rewrite Hv. }
  destruct v as [| | | |a| |];
    try (rewrite dispatch_no_action in H; [done|by rewrite Hv]).
  rewrite (dispatch_action hash _ _ _ Hv) in H.
  case_bool_decide as Hs.
  - subst a.
    destruct (handle_store_all_or_nothing request db Hv)
      as [Hsame|(cid & did & txt & _ & _ & _ & Hok)].
    + by rewrite H in Hsame.
    + by rewrite Hok in H.
  - case_bool_decide; [|by simplify_eq].
    pose proof (handle_search_state hash request db) as Hsame.
    by rewrite H in Hsame.
Qed.

(** X6. One exchange that goes well: the peer sends the frame of a
    message the parser accepts, [dispatch] returns a response, and the
    peer takes the reply. The handler returns, the store is the one
    [dispatch] left, the peer has received exactly the frame of the
    serialised response, and what the peer sent after its frame is left
    unread. *)
Theorem exchange_replies_with_the_response
    db msg rest room errors request response db' out :
  (0 < String.length msg)%nat →
  Z.of_nat (String.length msg) ≤ 10 * 1024 * 1024 →
  parse msg = Ok request →
  Server.dispatch hash request db = (Ok response, db') →
  dump response = Ok out →
  (4 + String.length out ≤ room)%nat →
  Server.handle_connection hash parse dump
    (mkState db (mkConn (frame msg ++ rest) room [] errors))
  = (Ok (),
     mkState db' (mkConn rest (room - length (frame out)) (frame out) errors)).
Proof.
  intros Hpos Hmax Hp Hd Ho Hroom. unfold Server.handle_connection.
  unfold try_catch, mbind, M_bind, on_fd, on_db, call, mret, M_ret.
  cbn [db_ client_fd].
  rewrite read_message_frame by done. cbn [db_ client_fd].
  rewrite Hp, Hd. cbn [db_ client_fd]. rewrite Ho.
  by rewrite write_message_ok by done.
Qed.

(** X7. A body the parser rejects. When the error document, whose
    message is "JSON parse error: " followed by the parser's text, can
    be serialised and the peer takes the reply, the peer receives its
    frame, the handler returns, and the store is untouched. When [dump]
    throws on the error document (the parser's text quotes the body,
    and [dump] refuses a string that is not UTF-8), the exception is
    thrown inside the handler of [parse_error], outside any [try]: it
    leaves [handle_connection] and [run], nothing is written to the
    peer, the store is untouched and the events that follow are not
    served. *)
Theorem parse_error_is_answered_when_dump_returns
    db msg rest room errors w events :
  (0 < String.length msg)%nat →
  Z.of_nat (String.length msg) ≤ 10 * 1024 * 1024 →
  parse msg = Throw (parse_error w) →
  (∀ out,
     dump (Server.error_response ("JSON parse error: " +:+ w)) = Ok out →
     (4 + String.length out ≤ room)%nat →
     Server.handle_connection hash parse dump
       (mkState db (mkConn (frame msg ++ rest) room [] errors))
     = (Ok (),
        mkState db
          (mkConn rest (room - length (frame out)) (frame out) errors)))
  ∧ (∀ e,
       dump (Server.error_response ("JSON parse error: " +:+ w)) = Throw e →
       Server.handle_connection hash parse dump
         (mkState db (mkConn (frame msg ++ rest) room [] errors))
       = (Throw e, mkState db (mkConn rest room [] errors))
       ∧ run hash parse dump
           (ev_client (frame msg ++ rest) room errors :: events) db
         = mkRun (Fatal e) db [[]]).
Proof.
  intros Hpos Hmax Hp.
  assert (Hthrow : ∀ e,
    dump (Server.error_response ("JSON parse error: " +:+ w)) = Throw e →
    Server.handle_connection hash parse dump
      (mkState db (mkConn (frame msg ++ rest) room [] errors))
    = (Throw e, mkState db (mkConn rest room [] errors))).
  { intros e Ho. unfold Server.handle_connection.
    unfold try_catch, mbind, M_bind, on_fd, on_db, call, mret, M_ret.
    cbn [db_ client_fd].
    rewrite read_message_frame by done. cbn [db_ client_fd].
    rewrite Hp. cbn [db_ client_fd]. by rewrite Ho. }
  split.
  - intros out Ho Hroom. unfold Server.handle_connection.
    unfold try_catch, mbind, M_bind, on_fd, on_db, call, mret, M_ret.
    cbn [db_ client_fd].
    rewrite read_message_frame by done. cbn [db_ client_fd].
    rewrite Hp. cbn [db_ client_fd]. rewrite Ho.
    by rewrite write_message_ok by done.
  - intros e Ho. split; [by apply Hthrow|].
    cbn [run]. by rewrite (Hthrow e Ho).
Qed.

(** X8. Nothing is rolled back when the reply cannot be delivered: if
    the peer stops taking bytes before the whole reply frame is written,
    the peer has received only the first bytes of the frame and the
    store keeps what [dispatch] did (a store request has taken effect
    although its sender saw no answer). No exception leaves the
    handler, but it writes an error document to the same socket: it
    returns when the failing [write] of the reply and that of the error
    document both return an error (or when the error document cannot
    be serialised); when either raises SIGPIPE the process is killed. *)
Theorem undelivered_reply_keeps_the_store
    db msg rest room errors request response db' out :
  (0 < String.length msg)%nat →
  Z.of_nat (String.length msg) ≤ 10 * 1024 * 1024 →
  parse msg = Ok request →
  Server.dispatch hash request db = (Ok response, db') →
  dump response = Ok out →
  (room < 4 + String.length out)%nat →
  let handled :=
    Server.handle_connection hash parse dump
      (mkState db (mkConn (frame msg ++ rest) room [] errors)) in
  let failure :=
    if decide (4 ≤ room)%nat then "Failed to write message payload"
    else "Failed to write message length" in
  db_ handled.2 = db'
  ∧ rx (client_fd handled.2) = rest
  ∧ tx (client_fd handled.2) = take room (frame out)
  ∧ (∀ e, handled.1 ≠ Throw e)
  ∧ (errors = 0%nat → handled.1 = Sigpipe)
  ∧ (errors = 1%nat →
     ∀ out2, dump (Server.error_response failure) = Ok out2 →
             handled.1 = Sigpipe)
  ∧ ((2 ≤ errors)%nat →
     ∀ out2, dump (Server.error_response failure) = Ok out2 →
             handled.1 = Ok ())
  ∧ ((1 ≤ errors)%nat →
     ∀ e, dump (Server.error_response failure) = Throw e →
          handled.1 = Ok ()).
Proof.
  intros Hpos Hmax Hp Hd Ho Hroom handled failure.
  subst handled. unfold Server.handle_connection.
  unfold try_catch, mbind, M_bind, on_fd, on_db, call, mret, M_ret.
  cbn [db_ client_fd].
  rewrite read_message_frame by done. cbn [db_ client_fd].
  rewrite Hp, Hd. cbn [db_ client_fd]. rewrite Ho.
  rewrite write_message_outcome. cbn [db_ client_fd rx tx tx_room tx_errors].
  rewrite decide_False by (rewrite length_frame; lia).
  fold failure.
  destruct errors as [|errors];
    cbn [db_ client_fd rx tx tx_room tx_errors fst snd what pred app].
  { split_and!; try done; lia. }
  destruct (dump (Server.error_response failure)) as [out2|e2|] eqn:Ho2;
    cbn [db_ client_fd rx tx tx_room tx_errors fst snd].
  - rewrite write_message_outcome.
    cbn [db_ client_fd rx tx tx_room tx_errors].
    rewrite decide_False by (rewrite length_frame; lia).
    rewrite take_0, app_nil_r.
    destruct errors as [|errors];
      cbn [db_ client_fd rx tx tx_room tx_errors fst snd];
      split_and!; try done; lia.
  - split_and!; try done; lia.
  - split_and!; try done.
Qed.

(** X9. A request on which [dispatch] throws (a field of the wrong
    type), from a peer that takes the reply: the peer receives the
    frame of the error document whose message is the text of the
    exception, the handler returns, and the store is untouched. *)
Theorem dispatch_exception_is_answered
    db msg rest room errors request e db' out :
  (0 < String.length msg)%nat →
  Z.of_nat (String.length msg) ≤ 10 * 1024 * 1024 →
  parse msg = Ok request →
  Server.dispatch hash request db = (Throw e, db') →
  dump (Server.error_response (what e)) = Ok out →
  (4 + String.length out ≤ room)%nat →
  Server.handle_connection hash parse dump
    (mkState db (mkConn (frame msg ++ rest) room [] errors))
  = (Ok (),
     mkState db (mkConn rest (room - length (frame out)) (frame out) errors)).
Proof.
  intros Hpos Hmax Hp Hd Ho Hroom.
  pose proof (dispatch_throw_state _ _ _ _ Hd) as ->.
  destruct (dispatch_throws hash _ _ _ _ Hd) as [w ->].
  unfold Server.handle_connection.
  unfold try_catch, mbind, M_bind, on_fd, on_db, call, mret, M_ret.
  cbn [db_ client_fd].
  rewrite read_message_frame by done. cbn [db_ client_fd].
  rewrite Hp, Hd. cbn [db_ client_fd]. rewrite Ho.
  by rewrite write_message_ok by done.
Qed.

End Exchange.

(** An instance of X6: a store request to the empty store, from a peer
    that takes 10 bytes. *)
Lemma exchange_replies_with_the_response_witness :
  Server.handle_connection sample_hash sample_parse_requests sample_dump
    (mkState VectorDB.empty (mkConn (frame "store" ++ [Byte.x0a]) 10 [] 0))
  = (Ok (),
     mkState (VectorDB.store "c1" "d1" "cat sat on mat" (JObject [])
                (embed sample_hash "cat sat on mat") VectorDB.empty)
             (mkConn [Byte.x0a] (10 - length (frame "object"))
                     (frame "object") 0)).
Proof.
  apply (exchange_replies_with_the_response sample_hash sample_parse_requests
           sample_dump VectorDB.empty "store" [Byte.x0a] 10 0
           sample_store_request (JObject [("status", JString "ok")]) _
           "object");
    [simpl; lia|simpl; lia|reflexivity|vm_compute; reflexivity|reflexivity
    |simpl; lia].
Defined.

(** An instance of X7: the body "x", from a peer that takes 10 bytes;
    and a body of the one byte 0xFF, which the parser's message quotes
    and [dump] then refuses: the client behind it is not served. *)
Lemma parse_error_is_answered_when_dump_returns_witness :
  Server.handle_connection sample_hash sample_parse_requests sample_dump
    (mkState (after sample_ops) (mkConn (frame "x" ++ []) 10 [] 0))
  = (Ok (),
     mkState (after sample_ops)
             (mkConn [] (10 - length (frame "object")) (frame "object") 0))
  ∧ run sample_hash sample_quoting_parse sample_utf8_dump
      [ev_client (frame body_not_utf8 ++ []) 10 0;
       ev_client frame_empty_object 64 0]
      (after sample_ops)
    = mkRun (Fatal (type_error "invalid UTF-8 byte")) (after sample_ops) [[]].
Proof.
  split.
  - apply (proj1 (parse_error_is_answered_when_dump_returns
                    sample_hash sample_parse_requests
                    sample_dump (after sample_ops) "x" [] 10 0
                    "syntax error while parsing value" []
                    ltac:(simpl; lia) ltac:(simpl; lia) eq_refl)
             "object");
      [reflexivity|simpl; lia].
  - apply (proj2 (parse_error_is_answered_when_dump_returns
                    sample_hash sample_quoting_parse
                    sample_utf8_dump (after sample_ops) body_not_utf8 [] 10 0
                    _ [ev_client frame_empty_object 64 0]
                    ltac:(simpl; lia) ltac:(simpl; lia) eq_refl)
             (type_error "invalid UTF-8 byte")).
    reflexivity.
Defined.

(** An instance of X8: the store request of X6 from a peer that takes
    3 bytes only and whose socket then returns one error: the store
    has the entry, and the process is killed by the write of the error
    document. *)
Lemma undelivered_reply_keeps_the_store_witness :
  db_ (Server.handle_connection sample_hash sample_parse_requests sample_dump
         (mkState VectorDB.empty (mkConn (frame "store" ++ []) 3 [] 1))).2
  = VectorDB.store "c1" "d1" "cat sat on mat" (JObject [])
      (embed sample_hash "cat sat on mat") VectorDB.empty
  ∧ tx (client_fd
          (Server.handle_connection sample_hash sample_parse_requests
             sample_dump
             (mkState VectorDB.empty (mkConn (frame "store" ++ []) 3 [] 1))).2)
    = take 3 (frame "object")
  ∧ (Server.handle_connection sample_hash sample_parse_requests sample_dump
       (mkState VectorDB.empty (mkConn (frame "store" ++ []) 3 [] 1))).1
    = Sigpipe.
Proof.
  destruct (undelivered_reply_keeps_the_store sample_hash
              sample_parse_requests
              sample_dump VectorDB.empty "store" [] 3 1
              sample_store_request (JObject [("status", JString "ok")]) _
              "object"
              ltac:(simpl; lia) ltac:(simpl; lia) eq_refl
              ltac:(vm_compute; reflexivity) eq_refl ltac:(simpl; lia))
    as (Hdb & _ & Htx & _ & _ & Hkill & _).
  split; [exact Hdb|]. split; [exact Htx|].
  exact (Hkill eq_refl "object" eq_refl).
Defined.

(** An instance of X9: a store request whose chunk_id is the number 1. *)
Lemma dispatch_exception_is_answered_witness :
  Server.handle_connection sample_hash sample_parse_requests sample_dump
    (mkState (after sample_ops) (mkConn (frame "bad" ++ []) 10 [] 0))
  = (Ok (),
     mkState (after sample_ops)
             (mkConn [] (10 - length (frame "object")) (frame "object") 0)).
Proof.
  apply (dispatch_exception_is_answered sample_hash sample_parse_requests
           sample_dump (after sample_ops) "bad" [] 10 0
           sample_bad_store_request
           (type_error
              "incompatible ReferenceType for get_ref, actual type is number")
           (after sample_ops) "object");
    [simpl; lia|simpl; lia|reflexivity|vm_compute; reflexivity|reflexivity
    |simpl; lia].
Defined.

(** ** The accept loop: what a sequence of events does to the store *)

Section Loop.

Context `{std : !StdSort}.

Variable hash : string → N.
Variable parse : string → result json.
Variable dump : json → result string.

Implicit Types (db : VectorDB) (events : list event).

Lemma dispatch_store_or_same request db :
  (Server.dispatch hash request db).2 = db
  ∨ ∃ cid did txt meta,
      (Server.dispatch hash request db).2
      = VectorDB.store cid did txt meta (embed hash txt) db.
Proof.
  destruct (field request "action") as [v|] eqn:Hv.
  2: { left. rewrite dispatch_no_action; [done|]. by rewrite Hv. }
  destruct v as [| | | |a| |];
    try (left; rewrite dispatch_no_action; [done|by rewrite Hv]).
  rewrite (dispatch_action hash _ _ _ Hv).
  case_bool_decide as Hs.
  - subst a.
    destruct (handle_store_all_or_nothing hash request db Hv)
      as [?|(cid & did & txt & _ & _ & _ & Hok)]; [by left|].
    right. exists cid, did, txt. eexists. by rewrite Hok.
  - left. case_bool_decide; [apply handle_search_state|done].
Qed.

(** The connection handler touches the store through [dispatch] only. *)
Lemma handle_connection_db st r st' :
  Server.handle_connection hash parse dump st = (r, st') →
  db_ st' = db_ st
  ∨ ∃ request, db_ st' = (Server.dispatch hash request (db_ st)).2.
Proof.
  unfold Server.handle_connection.
  assert (Hhandler : ∀ e st1,
    db_ ((match e with
          | parse_error w =>
              out ← call (dump (Server.error_response
                                  ("JSON parse error: " +:+ w)));
              on_fd (Server.write_message out)
          | _ => try_catch
                   (out ← call (dump (Server.error_response (what e)));
                    on_fd (Server.write_message out))
                   (λ _, mret ())
          end) st1 : result unit * State).2 = db_ st1).
  { intros e st1.
    destruct e as [w|w|w];
      unfold try_catch, mbind, M_bind, on_fd, call, mret, M_ret;
      (destruct (dump _) as [out|e'|]; [|done..]);
      (destruct (Server.write_message out (client_fd st1)) as [[[]|e'|] c'']);
      done. }
  unfold try_catch at 1.
  destruct ((msg ← on_fd Server.read_message;
             request ← call (parse msg);
             response ← on_db (Server.dispatch hash request);
             out ← call (dump response);
             on_fd (Server.write_message out)) st) as [r1 st1] eqn:Hbody.
  assert (Hb : db_ st1 = db_ st
               ∨ ∃ request, db_ st1 = (Server.dispatch hash request (db_ st)).2).
  { revert Hbody. unfold mbind, M_bind, on_fd, on_db, call. simpl.
    destruct (Server.read_message (client_fd st)) as [[msg|e1|] c1]; simpl;
      [|intros [= _ <-]; by left..].
    destruct (parse msg) as [request|e2|]; simpl;
      [|intros [= _ <-]; by left..].
    destruct (Server.dispatch hash request (db_ st)) as [[response|e3|] db1]
      eqn:Hd; simpl;
      [|intros [= _ <-]; right; exists request; by rewrite Hd..].
    destruct (dump response) as [out|e4|]; simpl;
      [|intros [= _ <-]; right; exists request; by rewrite Hd..].
    destruct (Server.write_message out c1) as [r5 c2]; simpl.
    intros [= _ <-]. right. exists request. by rewrite Hd. }
  destruct r1 as [[]|e|].
  - by intros [= _ <-].
  - intros Hh. pose proof (Hhandler e st1) as Hdb. rewrite Hh in Hdb.
    cbn [snd] in Hdb. by rewrite Hdb.
  - by intros [= _ <-].
Qed.

(** A property of the store that every [VectorDB::store] of an embedded
    text keeps is kept by the whole loop. *)
Lemma run_db_invariant (P : VectorDB → Prop) events db :
  (∀ db cid did txt meta,
     P db → P (VectorDB.store cid did txt meta (embed hash txt) db)) →
  P db → P (run_db (run hash parse dump events db)).
Proof.
  intros Hstore. revert db.
  induction events as [|ev events IH]; intros db HP; [done|].
  destruct ev as [| | | | | |crx croom cerr]; simpl; try done; try by apply IH.
  destruct (Server.handle_connection hash parse dump
              (mkState db (mkConn crx croom [] cerr))) as [r st] eqn:Hh.
  assert (P (db_ st)) as HP'.
  { destruct (handle_connection_db _ _ _ Hh) as [->|[request ->]]; [done|].
    cbn [db_].
    destruct (dispatch_store_or_same request db)
      as [->|(cid & did & txt & meta & ->)]; [done|]. by apply Hstore. }
  destruct r as [[]|e|]; simpl; [by apply IH|done..].
Qed.

(** X10. The loop serves its events in sequence and stops at the first
    stop: the run over [events1 ++ events2] is the run over [events1]
    when that ends the loop (a signal, a failure of [select], an
    exception that escapes, a SIGPIPE that kills the process); otherwise it is the run over [events2]
    from the store the first run left, with the replies of both. *)
Theorem run_serves_in_sequence events1 events2 db :
  run hash parse dump (events1 ++ events2) db
  = match run_status (run hash parse dump events1 db) with
    | Accepting =>
        let r1 := run hash parse dump events1 db in
        let r2 := run hash parse dump events2 (run_db r1) in
        mkRun (run_status r2) (run_db r2) (run_replies r1 ++ run_replies r2)
    | _ => run hash parse dump events1 db
    end.
Proof.
  revert db. induction events1 as [|ev events1 IH]; intros db.
  - simpl. by destruct (run hash parse dump events2 db).
  - destruct ev as [| | | | | |crx croom cerr]; simpl; try done; try apply IH.
    destruct (Server.handle_connection hash parse dump
                (mkState db (mkConn crx croom [] cerr))) as [[[]|e|] st];
      [|done..].
    rewrite IH.
    destruct (run hash parse dump events1 (db_ st)) as [s d rs]; simpl.
    by destruct s.
Qed.

(** X11. A timeout of [select], an interrupted [select] or [accept] and
    a failed [accept] leave no trace: the run is the one without the
    event. *)
Theorem run_skips_idle_events events1 ev events2 db :
  ev = ev_select_timeout ∨ ev = ev_select_eintr
  ∨ ev = ev_accept_eintr ∨ ev = ev_accept_error →
  run hash parse dump (events1 ++ ev :: events2) db
  = run hash parse dump (events1 ++ events2) db.
Proof.
  intros Hev. revert db. induction events1 as [|ev1 events1 IH]; intros db.
  - by destruct Hev as [Hev|[Hev|[Hev|Hev]]]; subst ev.
  - destruct ev1 as [| | | | | |crx croom cerr]; simpl; try done; try apply IH.
    destruct (Server.handle_connection hash parse dump
                (mkState db (mkConn crx croom [] cerr))) as [[[]|e|] st];
      [|done..].
    by rewrite IH.
Qed.

(** X12. Whatever the clients send, the loop keeps the entry map and the
    doc index consistent: started on a consistent store, every run ends
    on one (each key is its entry's chunk_id; a bucket lists, without
    repetition, chunks stored under its doc_id; every entry is listed in
    the bucket of its doc_id; no bucket is empty). *)
Theorem run_keeps_store_consistent events db :
  consistent db → consistent (run_db (run hash parse dump events db)).
Proof.
  apply run_db_invariant. intros db' cid did txt meta Hc.
  by apply consistent_store.
Qed.

End Loop.

(** An instance of X11: a timeout between two clients. *)
Lemma run_skips_idle_events_witness :
  run sample_hash sample_parse sample_dump
    ([ev_client frame_length_zero 0 1]
     ++ ev_select_timeout :: [ev_client frame_empty_object 64 0])
    (after sample_ops)
  = run sample_hash sample_parse sample_dump
      ([ev_client frame_length_zero 0 1]
       ++ [ev_client frame_empty_object 64 0])
      (after sample_ops).
Proof.
  apply (run_skips_idle_events sample_hash sample_parse sample_dump
           [ev_client frame_length_zero 0 1] ev_select_timeout
           [ev_client frame_empty_object 64 0] (after sample_ops)).
  left. reflexivity.
Defined.

(** An instance of X12: a store request and a malformed frame, on the
    empty store. *)
Lemma run_keeps_store_consistent_witness :
  consistent
    (run_db (run sample_hash sample_parse_requests sample_dump
               [ev_client (frame "store") 10 0;
                ev_client frame_length_zero 0 1]
               VectorDB.empty)).
Proof.
  apply (run_keeps_store_consistent sample_hash sample_parse_requests
           sample_dump
           [ev_client (frame "store") 10 0; ev_client frame_length_zero 0 1]
           VectorDB.empty).
  apply consistent_empty.
Defined.

(** ** The store as a function of the calls made *)

Section StoreHistory.

Implicit Types (db : VectorDB) (ops : list store_op) (op : store_op).

Lemma erase_remove_app cid (l1 l2 : list string) :
  VectorDB.erase_remove cid (l1 ++ l2)
  = VectorDB.erase_remove cid l1 ++ VectorDB.erase_remove cid l2.
Proof. unfold VectorDB.erase_remove. apply filter_app. Qed.

Lemma erase_remove_idemp cid (l : list string) :
  VectorDB.erase_remove cid (VectorDB.erase_remove cid l)
  = VectorDB.erase_remove cid l.
Proof.
  apply erase_remove_absent. rewrite erase_remove_elem. by intros [? _].
Qed.

Lemma erase_remove_fmap cid ops :
  VectorDB.erase_remove cid (op_chunk_id <$> ops)
  = op_chunk_id <$> filter (λ o, op_chunk_id o ≠ cid) ops.
Proof.
  unfold VectorDB.erase_remove.
  induction ops as [|o ops IH]; [done|].
  rewrite fmap_cons, !filter_cons.
  destruct (decide (op_chunk_id o ≠ cid)); [|done].
  by rewrite fmap_cons, IH.
Qed.

Lemma live_snoc ops op :
  live (ops ++ [op])
  = filter (λ o, op_chunk_id o ≠ op_chunk_id op) (live ops) ++ [op].
Proof.
  induction ops as [|o ops IH]; [done|].
  change ((o :: ops) ++ [op]) with (o :: (ops ++ [op])). cbn [live].
  rewrite IH.
  assert (Hin : op_chunk_id o ∈ op_chunk_id <$> (ops ++ [op])
                ↔ op_chunk_id o ∈ op_chunk_id <$> ops
                  ∨ op_chunk_id o = op_chunk_id op).
  { rewrite fmap_app, elem_of_app. cbn [fmap list_fmap].
    by rewrite list_elem_of_singleton. }
  destruct (decide (op_chunk_id o ∈ op_chunk_id <$> ops)) as [Ho|Ho].
  - rewrite !bool_decide_eq_true_2 by tauto. done.
  - rewrite (bool_decide_eq_false_2 _ Ho).
    destruct (decide (op_chunk_id o = op_chunk_id op)) as [Heq|Hne].
    + rewrite bool_decide_eq_true_2 by tauto.
      by rewrite filter_cons, decide_False by (by intros ?).
    + rewrite bool_decide_eq_false_2 by tauto.
      by rewrite filter_cons, decide_True by done.
Qed.

(** X13. Last write wins: after any sequence of calls of [store], the
    entry found under a chunk_id is the one written by the last call
    that named this chunk_id (with its doc_id, text, metadata and
    embedding), and there is none when no call named it. *)
Theorem store_last_write_wins ops c :
  entries_ (after ops) !! c
  = entry_of <$> last (filter (λ op, op_chunk_id op = c) ops).
Proof.
  induction ops as [|op ops IH] using rev_ind; [done|].
  rewrite after_snoc, filter_app, filter_cons, filter_nil.
  unfold apply_op. cbn [entries_ VectorDB.store].
  destruct (decide (op_chunk_id op = c)) as [<-|Hne].
  - rewrite lookup_insert_eq, last_snoc. done.
  - rewrite lookup_insert_ne by done. by rewrite app_nil_r.
Qed.

(** X14. After any sequence of calls of [store], the bucket of a doc_id
    lists exactly the chunk_ids whose last call gave this doc_id, each
    once, in the order of these last calls; the doc index has no bucket
    for a doc_id that no chunk has any more. *)
Theorem bucket_lists_current_chunks ops d :
  bucket (after ops) d
  = op_chunk_id <$> filter (λ op, op_doc_id op = d) (live ops)
  ∧ (doc_index_ (after ops) !! d = None
     ↔ filter (λ op, op_doc_id op = d) (live ops) = []).
Proof.
  assert (Hb : ∀ ops, bucket (after ops) d
               = op_chunk_id <$> filter (λ op, op_doc_id op = d) (live ops)).
  { clear ops. intros ops.
    induction ops as [|op ops IH] using rev_ind; [done|].
    rewrite after_snoc, live_snoc. unfold apply_op.
    rewrite bucket_store by apply consistent_after.
    rewrite IH, erase_remove_fmap.
    rewrite filter_app, fmap_app, filter_cons, filter_nil.
    rewrite !list_filter_filter.
    f_equal.
    - f_equal. apply list_filter_iff. intros o. tauto.
    - destruct (decide (d = op_doc_id op)) as [->|Hne].
      + by rewrite decide_True.
      + by rewrite decide_False by (by intros ?). }
  split; [apply Hb|].
  pose proof (consistent_after ops) as Hc. split.
  - intros Hnone. pose proof (Hb ops) as Hbo. unfold bucket in Hbo.
    rewrite Hnone in Hbo. simpl in Hbo. symmetry in Hbo.
    by apply fmap_nil_inv in Hbo.
  - intros Hnil. apply bucket_nil_lookup; [done|]. by rewrite Hb, Hnil.
Qed.

(** X15. Storing under the same chunk_id twice is storing once: on a
    consistent store, a call of [store] followed by a second call with
    the same chunk_id leaves the store exactly as the second call alone
    does (in particular, repeating a call changes nothing). *)
Theorem store_overwrite_absorbs db cid did1 txt1 meta1 emb1 did2 txt2 meta2 emb2 :
  consistent db →
  VectorDB.store cid did2 txt2 meta2 emb2
    (VectorDB.store cid did1 txt1 meta1 emb1 db)
  = VectorDB.store cid did2 txt2 meta2 emb2 db.
Proof.
  intros Hc.
  pose proof (consistent_store db cid did1 txt1 meta1 emb1 Hc) as Hc1.
  set (db1 := VectorDB.store cid did1 txt1 meta1 emb1 db) in *.
  assert (Hentries : entries_ (VectorDB.store cid did2 txt2 meta2 emb2 db1)
                     = entries_ (VectorDB.store cid did2 txt2 meta2 emb2 db)).
  { subst db1. cbn [entries_ VectorDB.store]. apply insert_insert_eq. }
  assert (Hindex : doc_index_ (VectorDB.store cid did2 txt2 meta2 emb2 db1)
                   = doc_index_ (VectorDB.store cid did2 txt2 meta2 emb2 db)).
  { apply map_eq. intros d. rewrite !doc_index_store by done.
    rewrite !bucket_store by done. subst db1.
    rewrite bucket_store by done.
    rewrite erase_remove_app, erase_remove_idemp.
    assert (VectorDB.erase_remove cid (if decide (d = did1) then [cid] else [])
            = []) as ->; [|by rewrite app_nil_r].
    destruct (decide (d = did1)); [|done].
    unfold VectorDB.erase_remove. by rewrite filter_cons, decide_False by auto. }
  destruct (VectorDB.store cid did2 txt2 meta2 emb2 db1) as [e1 i1].
  destruct (VectorDB.store cid did2 txt2 meta2 emb2 db) as [e2 i2].
  simpl in Hentries, Hindex. by subst.
Qed.

End StoreHistory.

(** An instance of X15: moving "c1" to another document and back, and
    repeating the call that stored it. *)
Lemma store_overwrite_absorbs_witness :
  VectorDB.store "c1" "d1" "cat sat on mat" JNull [F32.one; F32.zero]
    (VectorDB.store "c1" "d2" "moved" JNull [] (after sample_ops))
  = VectorDB.store "c1" "d1" "cat sat on mat" JNull [F32.one; F32.zero]
      (after sample_ops).
Proof.
  apply (store_overwrite_absorbs (after sample_ops) "c1" "d2" "moved" JNull []
           "d1" "cat sat on mat" JNull [F32.one; F32.zero]).
  apply consistent_after.
Defined.

(** ** The search: which chunks, how many, and in what order *)

Section SearchResults.

Context `{std : !StdSort, std_spec : !StdSortSpec}.

Implicit Types (q : list F32.float) (db : VectorDB) (top_k : Z).

Lemma chunk_ids_omap_sublist q db (ids : list string) :
  (∀ c e, entries_ db !! c = Some e → chunk_id e = c) →
  (λ p : F32.float * VectorEntry, chunk_id p.2)
    <$> omap (λ cid, VectorDB.score_entry q <$> entries_ db !! cid) ids
  `sublist_of` ids.
Proof.
  intros Hkey. induction ids as [|cid ids IH]; [done|].
  cbn [omap list_omap].
  destruct (entries_ db !! cid) as [e|] eqn:He; simpl.
  - rewrite (Hkey _ _ He). by apply sublist_skip.
  - by apply sublist_cons.
Qed.

Lemma candidate_ids_NoDup q f db :
  consistent db → NoDup (candidate_ids q f db).
Proof.
  intros Hc. unfold candidate_ids, VectorDB.scored_candidates.
  destruct (negb (bool_decide (f = ""))).
  - destruct (doc_index_ db !! f) as [ids|] eqn:Hids; [|constructor].
    eapply sublist_NoDup;
      [|apply chunk_ids_omap_sublist, (key_is_chunk_id _ Hc)].
    rewrite <- (bucket_lookup _ _ _ Hids). apply (bucket_NoDup _ Hc).
  - rewrite <- list_fmap_compose.
    match goal with
    | |- NoDup (?g <$> _) =>
        replace (g <$> map_to_list (entries_ db))
          with ((map_to_list (entries_ db)).*1)
    end; [apply NoDup_fst_map_to_list|].
    apply list_fmap_ext.
    intros i [k e] Hi%list_elem_of_lookup_2%elem_of_map_to_list. simpl.
    symmetry. apply (key_is_chunk_id _ Hc _ _ Hi).
Qed.

Lemma search_chunk_ids q top_k f db :
  r_chunk_id <$> VectorDB.search q top_k f db
  = (λ p : F32.float * VectorEntry, chunk_id p.2)
      <$> take (Z.to_nat (Z.min top_k
                            (Json.to_int
                               (Z.of_nat (length (std_sort
                                  (VectorDB.scored_candidates q f db)))))))
               (std_sort (VectorDB.scored_candidates q f db)).
Proof. unfold VectorDB.search. by rewrite <- list_fmap_compose. Qed.

(** X16. No chunk is returned twice: on a consistent store the
    chunk_ids of the results of a search are pairwise different. *)
Theorem search_results_are_distinct q top_k f db :
  consistent db → NoDup (r_chunk_id <$> VectorDB.search q top_k f db).
Proof.
  intros Hc. rewrite search_chunk_ids.
  eapply sublist_NoDup; [|apply fmap_sublist, sublist_take].
  rewrite std_sort_Permutation. by apply candidate_ids_NoDup.
Qed.

Lemma chunk_ids_of_doc_NoDup db d : NoDup (chunk_ids_of_doc db d).
Proof.
  unfold chunk_ids_of_doc.
  eapply sublist_NoDup; [|apply fmap_sublist, sublist_filter].
  apply NoDup_fst_map_to_list.
Qed.

Lemma filtered_candidates_complete q D db c e :
  D ≠ "" → consistent db →
  entries_ db !! c = Some e → doc_id e = D → c ∈ candidate_ids q D db.
Proof.
  intros HD Hc He Hd. unfold candidate_ids, VectorDB.scored_candidates.
  rewrite bool_decide_eq_false_2 by done. cbn [negb].
  pose proof (index_complete _ Hc _ _ He) as Hin. rewrite Hd in Hin.
  unfold bucket in Hin.
  destruct (doc_index_ db !! D) as [ids|]; [|by apply elem_of_nil in Hin].
  simpl in Hin. apply list_elem_of_fmap.
  exists (VectorDB.score_entry q e). split.
  - simpl. by rewrite (key_is_chunk_id _ Hc _ _ He).
  - apply list_elem_of_omap. exists c. split; [done|]. by rewrite He.
Qed.

(** X17. A filtered search that asks for enough results returns the
    document, all of it: on a consistent store, with a non-empty doc_id
    filter [D] and a [top_k] not below the number of chunks of [D], the
    chunk_ids of the results are exactly the chunk_ids of the entries
    stored under [D], each once (the doc index misses no chunk that a
    scan of the entries would find). *)
Theorem filtered_search_returns_the_document q top_k D db :
  D ≠ "" → consistent db → is_int top_k →
  Z.of_nat (length (chunk_ids_of_doc db D)) ≤ top_k →
  r_chunk_id <$> VectorDB.search q top_k D db ≡ₚ chunk_ids_of_doc db D.
Proof.
  intros HD Hc Hint Hk.
  assert (Hcand : candidate_ids q D db ≡ₚ chunk_ids_of_doc db D).
  { apply NoDup_Permutation;
      [by apply candidate_ids_NoDup|apply chunk_ids_of_doc_NoDup|].
    intros c. rewrite elem_of_chunk_ids_of_doc. split.
    - by apply elem_of_filtered_candidates.
    - intros (e & He & Hd). by eapply filtered_candidates_complete. }
  rewrite search_all; [| done |].
  - by rewrite <- list_fmap_compose.
  - apply Permutation_length in Hcand. unfold candidate_ids in Hcand.
    rewrite length_fmap in Hcand. lia.
Qed.

(** X18. The results are the best candidates: the candidates of a
    search split into the results and the rest, the results are as many
    as [top_k] allows (all candidates when there are fewer, none when
    [top_k] is negative), and, when no candidate's score is NaN, no
    candidate left out has a strictly greater score than a result.
    (With a NaN among the scores the comparator of the sort is no strict
    weak ordering, and [std::sort] promises no order.) *)
Theorem search_returns_the_best q top_k f db :
  Z.of_nat (length (VectorDB.scored_candidates q f db)) < 2 ^ 31 →
  ∃ rest,
    VectorDB.to_result <$> VectorDB.scored_candidates q f db
    ≡ₚ VectorDB.search q top_k f db ++ rest
    ∧ length (VectorDB.search q top_k f db)
      = Z.to_nat (Z.min top_k
                    (Z.of_nat (length (VectorDB.scored_candidates q f db))))
    ∧ (Forall (λ p, F32.is_nan p.1 = false)
              (VectorDB.scored_candidates q f db) →
       ∀ r o, r ∈ VectorDB.search q top_k f db → o ∈ rest → not_below r o).
Proof.
  intros Hsmall. unfold VectorDB.search.
  pose proof (std_sort_Permutation (VectorDB.scored_candidates q f db)) as Hp.
  pose proof (std_sort_sorted (VectorDB.scored_candidates q f db)) as Hs.
  rewrite (Permutation_length Hp).
  rewrite to_int_small by (unfold is_int; lia).
  set (sorted := std_sort (VectorDB.scored_candidates q f db)) in *.
  set (k := Z.to_nat (Z.min top_k
              (Z.of_nat (length (VectorDB.scored_candidates q f db))))).
  exists (VectorDB.to_result <$> drop k sorted). split_and!.
  - by rewrite <- fmap_app, take_drop, Hp.
  - rewrite length_fmap, length_take, (Permutation_length Hp). lia.
  - intros Hnan r o ([s e] & -> & Hr)%list_elem_of_fmap
                     ([s' e'] & -> & Ho)%list_elem_of_fmap.
    specialize (Hs Hnan).
    rewrite <- (take_drop k sorted) in Hs.
    apply (StronglySorted_app_1_elem_of _ _ _ _ _ Hs Hr Ho).
Qed.

(** X19. A smaller [top_k] returns a prefix of what a larger one
    returns: the same query on the same store with [top_k1 ≤ top_k2]
    gives the first [top_k1] results of the longer answer. *)
Theorem search_smaller_top_k_is_a_prefix q top_k1 top_k2 f db :
  top_k1 ≤ top_k2 →
  VectorDB.search q top_k1 f db
  = take (Z.to_nat top_k1) (VectorDB.search q top_k2 f db).
Proof.
  intros Hle. unfold VectorDB.search.
  rewrite <- fmap_take, take_take. do 2 f_equal. lia.
Qed.

End SearchResults.

(** An instance of X16. *)
Lemma search_results_are_distinct_witness :
  NoDup (r_chunk_id
           <$> VectorDB.search [F32.one; F32.zero] 5 "" (after sample_ops)).
Proof.
  apply (search_results_are_distinct [F32.one; F32.zero] 5 ""
           (after sample_ops)).
  apply consistent_after.
Defined.

(** An instance of X17: the two chunks of "d1". *)
Lemma filtered_search_returns_the_document_witness :
  r_chunk_id <$> VectorDB.search [F32.one; F32.zero] 5 "d1" (after sample_ops)
  ≡ₚ chunk_ids_of_doc (after sample_ops) "d1".
Proof.
  apply (filtered_search_returns_the_document [F32.one; F32.zero] 5 "d1"
           (after sample_ops)).
  - done.
  - apply consistent_after.
  - unfold is_int. lia.
  - vm_compute. discriminate.
Defined.

(** An instance of X18: [top_k = 1] on two entries, neither score a
    NaN. *)
Lemma search_returns_the_best_witness :
  ∃ rest,
    VectorDB.to_result
      <$> VectorDB.scored_candidates [F32.one; F32.zero] "" (after sample_ops)
    ≡ₚ VectorDB.search [F32.one; F32.zero] 1 "" (after sample_ops) ++ rest
    ∧ length (VectorDB.search [F32.one; F32.zero] 1 "" (after sample_ops))
      = Z.to_nat (Z.min 1
                    (Z.of_nat (length (VectorDB.scored_candidates
                                         [F32.one; F32.zero] ""
                                         (after sample_ops)))))
    ∧ ∀ r o, r ∈ VectorDB.search [F32.one; F32.zero] 1 "" (after sample_ops)
             → o ∈ rest → not_below r o.
Proof.
  destruct (search_returns_the_best [F32.one; F32.zero] 1 ""
              (after sample_ops))
    as (rest & Hp & Hl & Hbest).
  { vm_compute. reflexivity. }
  exists rest. split; [exact Hp|]. split; [exact Hl|].
  apply Hbest. vm_compute. repeat constructor.
Defined.

(** An instance of X19. *)
Lemma search_smaller_top_k_is_a_prefix_witness :
  VectorDB.search [F32.one; F32.zero] 1 "" (after sample_ops)
  = take (Z.to_nat 1)
         (VectorDB.search [F32.one; F32.zero] 5 "" (after sample_ops)).
Proof.
  apply (search_smaller_top_k_is_a_prefix [F32.one; F32.zero] 1 5 ""
           (after sample_ops)).
  lia.
Defined.

(** ** The dot product and the tokens of a text *)

Lemma SFmul_comm (x y : spec_float) : SFmul 24 128 x y = SFmul 24 128 y x.
Proof.
  destruct x as [sx|sx| |sx mx ex], y as [sy|sy| |sy my ey]; simpl;
    try done; try (by rewrite xorb_comm).
  by rewrite xorb_comm, Pos.mul_comm, Z.add_comm.
Qed.

(** X20. The dot product is symmetric: [dot_product a b] and
    [dot_product b a] are the same float, whatever the two vectors
    (rounding, infinities and NaN included). *)
Theorem dot_product_symmetric (a b : list F32.float) :
  VectorDB.dot_product a b = VectorDB.dot_product b a.
Proof.
  unfold VectorDB.dot_product. rewrite (Nat.min_comm (length b)).
  assert (H : ∀ (l : list nat) (acc : F32.float),
    fold_left (λ sum i, F32.add sum (F32.mul (nth i a F32.zero)
                                             (nth i b F32.zero))) l acc
    = fold_left (λ sum i, F32.add sum (F32.mul (nth i b F32.zero)
                                               (nth i a F32.zero))) l acc).
  { induction l as [|i l IH]; intros acc; [done|].
    cbn [fold_left]. rewrite IH. do 2 f_equal. apply SFmul_comm. }
  apply H.
Qed.

Section Tokens.

Variable hash : string → N.

Lemma isalnum_tolower c : isalnum (tolower c) = isalnum c.
Proof. by destruct c as [[] [] [] [] [] [] [] []]. Qed.

Lemma tolower_idemp c : tolower (tolower c) = tolower c.
Proof. by destruct c as [[] [] [] [] [] [] [] []]. Qed.

Lemma tokens_from_lower s token :
  tokens_from (lower s) token = tokens_from s token.
Proof.
  revert token. induction s as [|c rest IH]; intros token; [done|].
  cbn [lower tokens_from]. rewrite isalnum_tolower, tolower_idemp.
  destruct (isalnum c); [apply IH|].
  destruct (negb (bool_decide (token = ""))); by rewrite IH.
Qed.

(** The bucket a token is counted in. *)
Lemma counts_buckets s :
  counts hash s
  = fold_left (λ v i, alter (λ x, F32.add x F32.one) i v)
      ((λ t, N.to_nat (hash t mod N.of_nat EMBED_DIM)) <$> tokens s)
      (replicate EMBED_DIM F32.zero).
Proof.
  rewrite counts_tokens.
  generalize (replicate EMBED_DIM F32.zero).
  induction (tokens s) as [|t ts IH]; intros vec; [done|].
  cbn [fold_left fmap list_fmap]. by rewrite IH.
Qed.

Lemma fold_alter_Permutation (f : F32.float → F32.float) (l1 l2 : list nat) :
  l1 ≡ₚ l2 →
  ∀ vec : list F32.float,
    fold_left (λ v i, alter f i v) l1 vec
    = fold_left (λ v i, alter f i v) l2 vec.
Proof.
  induction 1 as [|i l1 l2 _ IH|i j l|l1 l2 l3 _ IH1 _ IH2]; intros vec.
  - done.
  - cbn [fold_left]. apply IH.
  - cbn [fold_left]. f_equal.
    destruct (decide (i = j)) as [->|Hne]; [done|].
    by apply list_alter_alter_ne.
  - by rewrite IH1, IH2.
Qed.

(** X21. The embedding is a bag of hashed words: two texts whose tokens
    fall into the same buckets the same number of times (in any order)
    have the same embedding. In particular the order of the words does
    not matter, and neither does the difference between two words that
    [std::hash] sends to the same bucket modulo 4096. *)
Theorem embed_is_a_bag_of_buckets s1 s2 :
  (λ t, N.to_nat (hash t mod N.of_nat EMBED_DIM)) <$> tokens s1
  ≡ₚ (λ t, N.to_nat (hash t mod N.of_nat EMBED_DIM)) <$> tokens s2 →
  embed hash s1 = embed hash s2.
Proof.
  intros Hp. unfold embed. f_equal. rewrite !counts_buckets.
  by apply fold_alter_Permutation.
Qed.

(** X22. The embedding ignores the case of the letters: two texts that
    are equal once lower-cased have the same tokens and the same
    embedding. *)
Theorem embed_ignores_case s1 s2 :
  lower s1 = lower s2 →
  tokens s1 = tokens s2 ∧ embed hash s1 = embed hash s2.
Proof.
  intros Hl.
  assert (Ht : tokens s1 = tokens s2).
  { unfold tokens.
    by rewrite <- (tokens_from_lower s1), <- (tokens_from_lower s2), Hl. }
  split; [done|]. unfold embed. by rewrite !counts_tokens, Ht.
Qed.

Lemma tokens_from_split s1 c s2 token :
  isalnum c = false →
  tokens_from (s1 +:+ String c s2) token
  = tokens_from s1 token ++ tokens s2.
Proof.
  intros Hc. revert token.
  induction s1 as [|c1 s1 IH]; intros token.
  - change ("" +:+ String c s2) with (String c s2).
    cbn [tokens_from]. rewrite Hc.
    case_bool_decide; by subst.
  - change (String c1 s1 +:+ String c s2)
      with (String c1 (s1 +:+ String c s2)).
    cbn [tokens_from].
    destruct (isalnum c1); [apply IH|].
    destruct (negb (bool_decide (token = ""))); by rewrite IH.
Qed.

(** X23. Any character that is no letter and no digit separates words,
    and the embedding does not see the order of the two parts: for such
    a character [c], the tokens of [s1 c s2] are those of [s1] followed
    by those of [s2], and [s1 c s2] and [s2 c s1] have the same
    embedding. *)
Theorem embed_ignores_word_order s1 s2 c :
  isalnum c = false →
  tokens (s1 +:+ String c s2) = tokens s1 ++ tokens s2
  ∧ embed hash (s1 +:+ String c s2) = embed hash (s2 +:+ String c s1).
Proof.
  intros Hc. split; [by apply tokens_from_split|].
  unfold embed. f_equal. rewrite !counts_buckets. unfold tokens.
  rewrite !tokens_from_split by done.
  apply fold_alter_Permutation. rewrite !fmap_app. apply Permutation_app_comm.
Qed.

Lemma tokens_from_shape (P : ascii → Prop) s token :
  (∀ c, isalnum c = true → P (tolower c)) →
  Forall P (list_ascii_of_string token) →
  Forall (λ t, t ≠ "" ∧ Forall P (list_ascii_of_string t))
         (tokens_from s token).
Proof.
  intros HP. revert token. induction s as [|c rest IH]; intros token Htok.
  - cbn [tokens_from]. case_bool_decide; simpl; [constructor|].
    by repeat constructor.
  - cbn [tokens_from]. destruct (isalnum c) eqn:Hc.
    + apply IH.
      assert (Happ : ∀ t, list_ascii_of_string (t +:+ String (tolower c) "")
                          = list_ascii_of_string t ++ [tolower c]).
      { intros t. induction t as [|a t IHt]; [done|]. simpl. by rewrite IHt. }
      rewrite Happ. apply Forall_app. split; [done|].
      constructor; [by apply HP|constructor].
    + case_bool_decide; simpl.
      * by apply IH.
      * constructor; [done|]. apply IH. constructor.
Qed.

(** X24. What counts as a word: every token of a text is a non-empty
    string of digits and lower-case letters (no upper-case letter, no
    space, no punctuation, no byte outside ASCII). *)
Theorem tokens_are_lower_case_words s :
  Forall (λ t, t ≠ ""
               ∧ Forall (λ c, (48 ≤ N_of_ascii c ≤ 57)%N
                              ∨ (97 ≤ N_of_ascii c ≤ 122)%N)
                        (list_ascii_of_string t))
         (tokens s).
Proof.
  apply tokens_from_shape; [|constructor].
  intros c Hc.
  destruct c as [[] [] [] [] [] [] [] []]; try discriminate Hc;
    vm_compute; (by left; split; intros [=]) || (by right; split; intros [=]).
Qed.

End Tokens.

(** An instance of X21: with the stand-in hash (the length of the
    word), "on cat" and "sat in" fill the same buckets. *)
Lemma embed_is_a_bag_of_buckets_witness :
  embed sample_hash "on cat" = embed sample_hash "sat in".
Proof.
  apply (embed_is_a_bag_of_buckets sample_hash "on cat" "sat in").
  vm_compute. apply perm_swap.
Defined.

(** An instance of X22. *)
Lemma embed_ignores_case_witness :
  tokens "Cat SAT" = tokens "cat sat"
  ∧ embed sample_hash "Cat SAT" = embed sample_hash "cat sat".
Proof.
  apply (embed_ignores_case sample_hash "Cat SAT" "cat sat"). reflexivity.
Defined.

(** An instance of X23. *)
Lemma embed_ignores_word_order_witness :
  tokens ("dog bites" +:+ String " " "man") = tokens "dog bites" ++ tokens "man"
  ∧ embed sample_hash ("dog bites" +:+ String " " "man")
    = embed sample_hash ("man" +:+ String " " "dog bites").
Proof.
  apply (embed_ignores_word_order sample_hash "dog bites" "man" " ").
  reflexivity.
Defined.

(** ** The score of a text against itself *)

Section Similarity.

Local Open Scope R_scope.

Variable hash : string → N.

Lemma fold_seq_nth {A} (g : A → spec_float → A) (l pre : list spec_float)
    (acc : A) :
  fold_left (λ a i, g a (nth i (pre ++ l) F32.zero))
            (seq (length pre) (length l)) acc
  = fold_left g l acc.
Proof.
  revert pre acc. induction l as [|x l IH]; intros pre acc; [done|].
  cbn [length seq fold_left].
  rewrite app_nth2, Nat.sub_diag by lia. cbn [nth].
  specialize (IH (pre ++ [x]) (g acc x)).
  rewrite <- app_assoc, length_app in IH. cbn [length app] in IH.
  rewrite Nat.add_1_r in IH. exact IH.
Qed.

(** The dot product of a vector with itself is the loop [norm += v * v]
    of the embedder. *)
Lemma dot_product_self (v : list F32.float) :
  VectorDB.dot_product v v = sum_squares v.
Proof.
  unfold VectorDB.dot_product, sum_squares. rewrite Nat.min_id.
  exact (fold_seq_nth (λ a x, F32.add a (F32.mul x x)) v [] F32.zero).
Qed.

(** One turn of [sum += a[i] * b[i]] on a vector and itself. *)
Lemma rsum_step (S : R) (n : nat) (acc v : spec_float) :
  (n < 4100)%nat → rsum_inv S n acc → component v →
  S + val v * val v <= 2 →
  rsum_inv (S + val v * val v) (Datatypes.S n) (F32.add acc (F32.mul v v)).
Proof.
  intros Hn Hacc Hv HS2. pose proof eps_bounds as Hu.
  pose proof (pow_1_minus_eps_le_1 n) as HL.
  pose proof (pow_1_plus_eps_ge_1 n) as HU.
  assert (HU2 : (1 + eps) ^ n <= 2).
  { destruct (pow_1_plus_eps_small n ltac:(lia)) as [_ ?]. lra. }
  destruct Hv as [->|[Hg He]].
  - change (F32.mul F32.zero F32.zero) with F32.zero.
    replace (S + val F32.zero * val F32.zero) with S by (simpl; lra).
    destruct Hacc as [[-> ->]|(HS1 & Hn1 & Hga & Hb)]; [by left|right].
    destruct Hga as (m & e & -> & Hd & Hee).
    change (F32.add (S754_finite false m e) F32.zero)
      with (S754_finite false m e).
    split_and!; [done|lia|by exists m, e|..]; simpl pow;
      apply (widen_bounds S ((1 - eps) ^ n) ((1 + eps) ^ n)
               (1 - eps) (1 + eps));
      (done || lra).
  - destruct (mul_pos_normal v v Hg Hg ltac:(lia)) as [Hgt Hbt].
    pose proof (pos_normal_pos v Hg) as Hvpos.
    set (k := val v * val v) in *.
    assert (Hk : 0 < k) by (unfold k; nra).
    right.
    destruct Hacc as [[-> ->]|(HS1 & Hn1 & Hga & Hb)].
    + destruct Hgt as (m & e & Hsq & Hd & Hee). rewrite Hsq in *.
      change (F32.add F32.zero (S754_finite false m e))
        with (S754_finite false m e).
      rewrite Rplus_0_l.
      split_and!; [done|lia|by exists m, e|..]; simpl pow;
        apply (first_bounds k ((1 - eps) ^ n) ((1 + eps) ^ n)
                 (1 - eps) (1 + eps));
        (done || lra).
    + assert (n ≠ 0)%nat as Hn0 by lia.
      assert (exponent acc ≤ 102)%Z as Hea.
      { pose proof (exponent_bounds acc (-149) 2 Hga) as Hx.
        assert (bpow (-149) <= val acc).
        { pose proof (pos_normal_val acc Hga)
            as (m & e & _ & _ & [Hlo _] & Hrange & _).
          apply Rle_trans with (bpow (e + 23)); [apply bpow_le; lia|done]. }
        assert (val acc <= bpow 2).
        { rewrite (bpow_IZR 2) by lia. change (IZR (2 ^ 2)) with 4. nra. }
        specialize (Hx ltac:(done) ltac:(done)). lia. }
      assert (exponent (F32.mul v v) ≤ 102)%Z as Hes.
      { pose proof (exponent_bounds (F32.mul v v) (-149) 2 Hgt) as Hx.
        assert (bpow (-149) <= val (F32.mul v v)).
        { pose proof (pos_normal_val _ Hgt)
            as (m & e & _ & _ & [Hlo _] & Hrange & _).
          apply Rle_trans with (bpow (e + 23)); [apply bpow_le; lia|done]. }
        assert (val (F32.mul v v) <= bpow 2).
        { rewrite (bpow_IZR 2) by lia. change (IZR (2 ^ 2)) with 4. nra. }
        specialize (Hx ltac:(done) ltac:(done)). lia. }
      destruct (add_pos_normal acc (F32.mul v v) Hga Hgt Hea Hes)
        as [Hgw Hbw].
      split_and!; [lra|lia|done|..]; simpl pow;
        apply (add_bounds S k ((1 - eps) ^ n) ((1 + eps) ^ n)
                 (1 - eps) (1 + eps) (val acc) (val (F32.mul v v)));
        try done; try lra.
      all: try (split; [lra|apply pow_succ_le; [lra|done]]).
      all: try (apply pow_succ_ge; [lra|done]).
Qed.

Lemma rsum_fold (l : list spec_float) :
  Forall component l →
  ∀ S n acc,
    rsum_inv S n acc → S + sq_sum l <= 2 → (n + length l ≤ 4100)%nat →
    rsum_inv (S + sq_sum l) (n + length l)
      (fold_left (λ a v, F32.add a (F32.mul v v)) l acc).
Proof.
  induction 1 as [|v l Hv _ IH]; intros S n acc Hinv HS Hlen.
  - simpl. by rewrite Rplus_0_r, Nat.add_0_r.
  - cbn [length] in Hlen. cbn [fold_left sq_sum foldr length].
    fold (sq_sum l). fold (sq_sum l) in HS. cbn [sq_sum foldr] in HS.
    fold (sq_sum l) in HS.
    pose proof (sq_sum_nonneg l) as Hl.
    replace (S + (val v * val v + sq_sum l))
      with ((S + val v * val v) + sq_sum l) by ring.
    replace (n + Datatypes.S (length l))%nat
      with (Datatypes.S n + length l)%nat by lia.
    apply IH; [|lra|lia]. apply rsum_step; [lia|done|done|lra].
Qed.

(** The divisor of the normalisation, [std::sqrt(norm)], is a positive
    normal float between 2^-7 and 2^34. *)
Lemma sqrt_norm_range (s : string) :
  tokens s ≠ [] →
  pos_normal (F32.sqrt (sum_squares (counts hash s)))
  ∧ (-30 ≤ exponent (F32.sqrt (sum_squares (counts hash s))) ≤ 10)%Z.
Proof.
  intros Ht. pose proof eps_bounds as Hu.
  set (N := sum_squares (counts hash s)).
  destruct (counts_natfloat hash s) as (ks & Hks & Hpos).
  specialize (Hpos Ht).
  pose proof (counts_length hash s) as Hlen.
  assert (length (counts hash s) ≤ 4096)%nat as Hle
    by (rewrite Hlen; unfold EMBED_DIM; lia).
  unfold F32.float in Hlen.
  pose proof (sum_squares_inv ks (counts hash s) Hks Hle) as [HS Hinv].
  rewrite Hlen in HS, Hinv. fold N in Hinv.
  destruct Hinv as [[? _]|(_ & HgN & HbN)]; [lia|].
  set (S := sumsq_z ks) in *.
  assert (HS1 : 1 <= IZR S) by (apply IZR_le; lia).
  assert (HS2 : IZR S <= IZR (2 ^ 60)).
  { apply IZR_le. unfold EMBED_DIM in HS.
    change (2 ^ 60)%Z with (4096 * 2 ^ 48)%Z. lia. }
  pose proof (pow_1_minus_eps EMBED_DIM) as HL.
  pose proof (pow_1_minus_eps_le_1 EMBED_DIM) as HL1.
  destruct (pow_1_plus_eps_small EMBED_DIM ltac:(unfold EMBED_DIM; lia))
    as [HU _].
  pose proof (pow_1_plus_eps_ge_1 EMBED_DIM) as HU1.
  assert (HD : INR EMBED_DIM = 4096) by (unfold EMBED_DIM; simpl; lra).
  rewrite HD in HL, HU.
  set (Ln := (1 - eps) ^ EMBED_DIM) in *.
  set (Un := (1 + eps) ^ EMBED_DIM) in *.
  set (vN := val N) in *.
  assert (HvN : 1 / 2 <= vN <= IZR (2 ^ 61)).
  { change (2 ^ 61)%Z with (2 * 2 ^ 60)%Z. rewrite mult_IZR.
    rewrite eps_value in *. split; nra. }
  destruct (sqrt_pos_normal N HgN) as [HgD HbD].
  change (SFsqrt 24 128 N) with (F32.sqrt N) in HgD, HbD.
  fold vN in HbD.
  set (D := F32.sqrt N) in *. set (vD := val D) in *.
  assert (Hsq : sqrt vN * sqrt vN = vN) by (apply sqrt_sqrt; lra).
  assert (Hsq1 : 1 / 2 <= sqrt vN <= IZR (2 ^ 31)).
  { split.
    - rewrite <- (sqrt_square (1 / 2)) by lra. apply sqrt_le_1_alt. lra.
    - rewrite <- (sqrt_square (IZR (2 ^ 31))) by (apply IZR_le; lia).
      apply sqrt_le_1_alt. rewrite <- mult_IZR.
      apply Rle_trans with (IZR (2 ^ 61)); [lra|]. apply IZR_le. lia. }
  split; [done|].
  pose proof (exponent_bounds D (-2) 32 HgD) as Hx.
  assert (bpow (-2) <= val D).
  { fold vD. unfold bpow. simpl. rewrite eps_value in *. nra. }
  assert (val D <= bpow 32).
  { fold vD. rewrite (bpow_IZR 32) by lia.
    change (2 ^ 32)%Z with (2 * 2 ^ 31)%Z. rewrite mult_IZR.
    rewrite eps_value in *. nra. }
  specialize (Hx ltac:(done) ltac:(done)). lia.
Qed.

Lemma div_component (k : Z) (v D : spec_float) :
  natfloat k v → pos_normal D → (-30 ≤ exponent D ≤ 10)%Z →
  component (F32.div v D).
Proof.
  intros [[-> ->]|(Hk & Hg & Hv)] HD He; pose proof eps_bounds as Hu.
  - left. by destruct HD as (m & e & -> & _).
  - right. pose proof (natfloat_exponent k v Hk Hg Hv) as Hev.
    destruct (div_pos_normal v D Hg HD ltac:(lia)) as [Hgw Hbw].
    split; [done|].
    pose proof (pos_normal_val D HD) as (m & e & HDeq & _ & [Hlo Hhi] & _ & _).
    rewrite HDeq in He. simpl in He.
    assert (HD7 : bpow (-7) <= val D).
    { apply Rle_trans with (bpow (e + 23)); [apply bpow_le; lia|done]. }
    assert (HD34 : val D <= bpow 34).
    { apply Rle_trans with (bpow (e + 24)); [lra|apply bpow_le; lia]. }
    assert (Hk1 : 1 <= IZR k <= IZR (2 ^ 24)) by (split; apply IZR_le; lia).
    rewrite <- (bpow_IZR 24) in Hk1 by lia. rewrite Hv in Hbw.
    pose proof (bpow_pos (-7)) as H7. pose proof (bpow_pos 34) as H34.
    assert (HvD : 0 < val D) by lra.
    assert (Hq : bpow (-34) <= IZR k / val D <= bpow 31).
    { set (q := IZR k / val D).
      assert (Hqk : q * val D = IZR k) by (unfold q; field; lra).
      assert (Hab : bpow (-34) * bpow 34 = 1).
      { rewrite <- bpow_add. apply bpow_0. }
      assert (Hcd : bpow 31 * bpow (-7) = bpow 24).
      { by rewrite <- bpow_add. }
      pose proof (bpow_pos (-34)) as Ha. pose proof (bpow_pos 31) as Hc.
      split.
      - destruct (Rle_dec (bpow (-34)) q) as [|Hn]; [done|].
        apply Rnot_le_lt in Hn.
        assert (q * val D < bpow (-34) * val D)
          by (apply Rmult_lt_compat_r; lra).
        assert (bpow (-34) * val D <= bpow (-34) * bpow 34)
          by (apply Rmult_le_compat_l; lra).
        lra.
      - destruct (Rle_dec q (bpow 31)) as [|Hn]; [done|].
        apply Rnot_le_lt in Hn.
        assert (bpow 31 * val D < q * val D)
          by (apply Rmult_lt_compat_r; lra).
        assert (bpow 31 * bpow (-7) <= bpow 31 * val D)
          by (apply Rmult_le_compat_l; lra).
        lra. }
    pose proof (exponent_bounds (F32.div v D) (-35) 32 Hgw) as Hx.
    assert (bpow (-35) <= val (F32.div v D)).
    { replace (-34)%Z with (-35 + 1)%Z in Hq by lia.
      rewrite bpow_add in Hq.
      assert (bpow 1 = 2) as H1 by (unfold bpow; simpl; lra).
      rewrite H1 in Hq. pose proof (bpow_pos (-35)). nra. }
    assert (val (F32.div v D) <= bpow 32).
    { replace 32%Z with (31 + 1)%Z by lia. rewrite bpow_add.
      assert (bpow 1 = 2) as H1 by (unfold bpow; simpl; lra).
      rewrite H1. pose proof (bpow_pos 31). nra. }
    specialize (Hx ltac:(done) ltac:(done)). lia.
Qed.

Lemma div_all_component (ks : list Z) (vec : list spec_float)
    (D : spec_float) :
  Forall2 natfloat ks vec → pos_normal D → (-30 ≤ exponent D ≤ 10)%Z →
  Forall component ((λ v, F32.div v D) <$> vec).
Proof.
  intros Hks HD He. apply Forall_fmap.
  induction Hks as [|k v ks vec Hkv _ IH]; constructor; [|done].
  simpl. by apply (div_component k).
Qed.

Lemma embed_components (s : string) :
  tokens s ≠ [] → Forall component (embed hash s).
Proof.
  intros Ht.
  destruct (embed_norm_bounds hash s Ht) as (_ & _ & -> & _ & _).
  destruct (sqrt_norm_range s Ht) as [HD He].
  destruct (counts_natfloat hash s) as (ks & Hks & _).
  by apply (div_all_component ks).
Qed.

(** The score of a text with at least one word against itself. *)
Lemma self_score_bounds (s : string) :
  tokens s ≠ [] →
  pos_normal (VectorDB.dot_product (embed hash s) (embed hash s))
  ∧ Rabs (val (VectorDB.dot_product (embed hash s) (embed hash s)) - 1)
    <= 2 / 1000.
Proof.
  intros Ht. pose proof eps_bounds as Hu. rewrite dot_product_self.
  destruct (embed_norm_bounds hash s Ht) as (_ & _ & _ & _ & Hsum).
  pose proof (embed_components s Ht) as Hcomp.
  assert (Hlen : length (embed hash s) = EMBED_DIM).
  { unfold embed. rewrite normalize_length. apply counts_length. }
  unfold F32.float in Hlen.
  assert (Hinit : rsum_inv 0 0 F32.zero) by (by left).
  assert (Hle : (0 + length (embed hash s) ≤ 4100)%nat).
  { unfold F32.float. rewrite Hlen. unfold EMBED_DIM. lia. }
  pose proof (rsum_fold (embed hash s) Hcomp 0 0%nat F32.zero Hinit
                ltac:(lra) Hle) as Hinv.
  rewrite Rplus_0_l, Nat.add_0_l, Hlen in Hinv.
  fold (sum_squares (embed hash s)) in Hinv.
  destruct Hinv as [[? _]|(_ & _ & Hg & Hb)]; [lra|].
  split; [done|].
  pose proof (pow_1_minus_eps EMBED_DIM) as HL.
  pose proof (pow_1_minus_eps_le_1 EMBED_DIM) as HL1.
  destruct (pow_1_plus_eps_small EMBED_DIM ltac:(unfold EMBED_DIM; lia))
    as [HU _].
  pose proof (pow_1_plus_eps_ge_1 EMBED_DIM) as HU1.
  assert (HD : INR EMBED_DIM = 4096) by (unfold EMBED_DIM; simpl; lra).
  rewrite HD in HL, HU.
  set (Ln := (1 - eps) ^ EMBED_DIM) in *.
  set (Un := (1 + eps) ^ EMBED_DIM) in *.
  set (S := sq_sum (embed hash s)) in *.
  apply Rabs_le. rewrite eps_value in *. split; nra.
Qed.

(** One turn of [sum += a[i] * b[i]] on two embeddings. *)
Lemma dsum_step (n : nat) (acc x y : spec_float) :
  (n < 4100)%nat → dsum_inv n acc → component x → component y →
  dsum_inv (Datatypes.S n) (F32.add acc (F32.mul x y)).
Proof.
  intros Hn Hacc Hx Hy. pose proof eps_bounds as Hu.
  pose proof (pow_1_plus_eps_ge_1 n) as HU.
  assert (HU2 : (1 + eps) ^ n <= 2).
  { destruct (pow_1_plus_eps_small n ltac:(lia)) as [_ ?]. lra. }
  pose proof (bpow_pos 69) as HB.
  pose proof (pos_INR n) as HN.
  assert (HN2 : INR n <= 4100).
  { replace 4100 with (INR 4100) by (simpl; lra). apply le_INR. lia. }
  unfold dsum_inv in Hacc |- *.
  set (B := bpow 69) in *. set (U := (1 + eps) ^ n) in *.
  assert (HBU : B <= B * U) by nra.
  assert (HNBU : 0 <= INR n * B * U).
  { apply Rmult_le_pos; [apply Rmult_le_pos|]; lra. }
  assert (Hnext : INR (Datatypes.S n) * B * (1 + eps) ^ Datatypes.S n
                  = (INR n * B * U + B * U) * (1 + eps)).
  { rewrite S_INR. simpl pow. fold U. ring. }
  assert (Hmono : INR n * B * U
                  <= INR (Datatypes.S n) * B * (1 + eps) ^ Datatypes.S n).
  { rewrite Hnext. nra. }
  assert (Hadd0 : F32.add acc F32.zero = F32.zero
                  ∨ (pos_normal (F32.add acc F32.zero)
                     ∧ val (F32.add acc F32.zero)
                       <= INR (Datatypes.S n) * B
                          * (1 + eps) ^ Datatypes.S n)).
  { destruct Hacc as [->|[Hga Hb]]; [by left|right].
    destruct Hga as (m & e & -> & Hd & Hee).
    change (F32.add (S754_finite false m e) F32.zero)
      with (S754_finite false m e).
    split; [by exists m, e|]. lra. }
  destruct Hx as [->|[Hgx Hex]], Hy as [->|[Hgy Hey]].
  - exact Hadd0.
  - destruct Hgy as (m & e & -> & _).
    change (F32.mul F32.zero (S754_finite false m e)) with F32.zero.
    exact Hadd0.
  - destruct Hgx as (m & e & -> & _).
    change (F32.mul (S754_finite false m e) F32.zero) with F32.zero.
    exact Hadd0.
  - destruct (mul_pos_normal x y Hgx Hgy ltac:(lia)) as [Hgp Hbp].
    pose proof (pos_normal_pos x Hgx) as Hxpos.
    pose proof (pos_normal_pos y Hgy) as Hypos.
    assert (Hx34 : val x <= bpow 34).
    { destruct (pos_normal_val x Hgx) as (m & e & -> & _ & [_ Hhi] & _).
      simpl in Hex. apply Rlt_le, Rlt_le_trans with (bpow (e + 24)); [done|].
      apply bpow_le. lia. }
    assert (Hy34 : val y <= bpow 34).
    { destruct (pos_normal_val y Hgy) as (m & e & -> & _ & [_ Hhi] & _).
      simpl in Hey. apply Rlt_le, Rlt_le_trans with (bpow (e + 24)); [done|].
      apply bpow_le. lia. }
    set (p := F32.mul x y) in *.
    assert (Hp69 : val p <= B).
    { unfold B. change 69%Z with (34 + 34 + 1)%Z.
      rewrite !bpow_add, (bpow_IZR 1) by lia. change (IZR (2 ^ 1)) with 2.
      pose proof (bpow_pos 34).
      assert (val x * val y <= bpow 34 * bpow 34)
        by (apply Rmult_le_compat; lra).
      nra. }
    assert (Hplo : bpow (-149) <= val p).
    { pose proof (pos_normal_val p Hgp)
        as (m & e & _ & _ & [Hlo _] & Hrange & _).
      apply Rle_trans with (bpow (e + 23)); [apply bpow_le; lia|done]. }
    assert (Hep : (exponent p ≤ 102)%Z).
    { pose proof (exponent_bounds p (-149) 69 Hgp Hplo Hp69). lia. }
    right. destruct Hacc as [->|[Hga Hb]].
    + destruct Hgp as (m & e & Hpeq & Hd & Hee). rewrite Hpeq in *.
      change (F32.add F32.zero (S754_finite false m e))
        with (S754_finite false m e).
      split; [by exists m, e|]. rewrite Hnext. nra.
    + assert (Halo : bpow (-149) <= val acc).
      { pose proof (pos_normal_val acc Hga)
          as (m & e & _ & _ & [Hlo _] & Hrange & _).
        apply Rle_trans with (bpow (e + 23)); [apply bpow_le; lia|done]. }
      assert (Hahi : val acc <= bpow 83).
      { change 83%Z with (69 + 14)%Z.
        rewrite bpow_add, (bpow_IZR 14) by lia. fold B.
        change (IZR (2 ^ 14)) with 16384.
        assert (INR n * B * U <= 4100 * B * 2).
        { apply Rmult_le_compat; [|lra| |lra].
          - apply Rmult_le_pos; lra.
          - apply Rmult_le_compat_r; lra. }
        lra. }
      assert (Hea : (exponent acc ≤ 102)%Z).
      { pose proof (exponent_bounds acc (-149) 83 Hga Halo Hahi). lia. }
      destruct (add_pos_normal acc p Hga Hgp Hea Hep) as [Hgw [_ Hbw]].
      split; [done|]. rewrite Hnext.
      apply Rle_trans with ((val acc + val p) * (1 + eps)); [done|].
      apply Rmult_le_compat_r; lra.
Qed.

Lemma dsum_fold (l : list (spec_float * spec_float)) :
  Forall (λ xy, component xy.1 ∧ component xy.2) l →
  ∀ n acc,
    dsum_inv n acc → (n + length l ≤ 4100)%nat →
    dsum_inv (n + length l)
      (fold_left (λ sum xy, F32.add sum (F32.mul xy.1 xy.2)) l acc).
Proof.
  induction 1 as [|[x y] l [Hx Hy] _ IH]; intros n acc Hinv Hlen.
  - simpl. by rewrite Nat.add_0_r.
  - cbn [length] in Hlen. cbn [fold_left length].
    replace (n + Datatypes.S (length l))%nat
      with (Datatypes.S n + length l)%nat by lia.
    apply IH; [|lia]. apply dsum_step; [lia|done..].
Qed.

(** Every component of an embedding is zero or a positive normal float
    of moderate size, whatever the text. *)
Lemma embed_all_components (s : string) : Forall component (embed hash s).
Proof.
  destruct (decide (tokens s = [])) as [Ht|Ht].
  - destruct (embed_no_tokens hash s Ht) as [_ ->].
    apply Forall_replicate. by left.
  - by apply embed_components.
Qed.

(** The score of two embedded texts is zero or a positive normal
    float: never a NaN, never an infinity. *)
Lemma embedded_score (s t : string) :
  VectorDB.dot_product (embed hash s) (embed hash t) = F32.zero
  ∨ pos_normal (VectorDB.dot_product (embed hash s) (embed hash t)).
Proof.
  rewrite dot_product_zip.
  assert (Hz : Forall (λ xy : spec_float * spec_float,
                         component xy.1 ∧ component xy.2)
                      (zip (embed hash s) (embed hash t))).
  { apply Forall_forall. intros [x y] Hxy. split.
    - pose proof (embed_all_components s) as Hs.
      rewrite Forall_forall in Hs. apply Hs.
      by apply elem_of_zip_l in Hxy.
    - pose proof (embed_all_components t) as Hs.
      rewrite Forall_forall in Hs. apply Hs.
      by apply elem_of_zip_r in Hxy. }
  assert (Hlen : (0 + length (zip (embed hash s) (embed hash t)) ≤ 4100)%nat).
  { rewrite length_zip, !embed_length. lia. }
  destruct (dsum_fold _ Hz 0%nat F32.zero ltac:(by left) Hlen) as [H|[H _]];
    [by left|by right].
Qed.

End Similarity.

(** X25. A text with at least one word scores 1 against itself, up to
    rounding: the dot product of its embedding with itself is a positive
    normal float within 2/1000 of 1. A text without a word scores 0
    against itself (and against everything, its embedding being the
    zero vector). *)
Theorem text_matches_itself (hash : string → N) (s : string) :
  (tokens s ≠ [] →
   pos_normal (VectorDB.dot_product (embed hash s) (embed hash s))
   ∧ (Rabs (val (VectorDB.dot_product (embed hash s) (embed hash s)) - 1)
      <= 2 / 1000)%R)
  ∧ (tokens s = [] →
     VectorDB.dot_product (embed hash s) (embed hash s) = F32.zero).
Proof.
  split.
  - apply self_score_bounds.
  - intros Ht. rewrite dot_product_self.
    destruct (embed_no_tokens hash s Ht) as [_ ->].
    apply sum_squares_zeros.
Qed.

(** An instance of X25: "cat sat on mat", and a text of punctuation. *)
Lemma text_matches_itself_witness :
  (pos_normal (VectorDB.dot_product (embed sample_hash "cat sat on mat")
                                    (embed sample_hash "cat sat on mat"))
   ∧ (Rabs (val (VectorDB.dot_product (embed sample_hash "cat sat on mat")
                                      (embed sample_hash "cat sat on mat"))
            - 1)
      <= 2 / 1000)%R)
  ∧ VectorDB.dot_product (embed sample_hash "?!") (embed sample_hash "?!")
    = F32.zero.
Proof.
  split.
  - apply (proj1 (text_matches_itself sample_hash "cat sat on mat")).
    vm_compute. discriminate.
  - apply (proj2 (text_matches_itself sample_hash "?!")). reflexivity.
Defined.

Section Served.

Context `{std : !StdSort, std_spec : !StdSortSpec}.

Variable hash : string → N.
Variable parse : string → result json.
Variable dump : json → result string.

Implicit Types (request : json) (db : VectorDB).

Lemma embedded_store db cid did txt meta :
  embedded hash db →
  embedded hash (VectorDB.store cid did txt meta (embed hash txt) db).
Proof.
  intros He c e. cbn [entries_ VectorDB.store].
  destruct (decide (c = cid)) as [->|Hne].
  - rewrite lookup_insert_eq. by intros [= <-].
  - rewrite lookup_insert_ne by done. apply He.
Qed.

(** X26. Every entry the server holds was embedded from its own text:
    after any run of the accept loop from the empty store, the embedding
    of each entry is [embed] of the entry's text and has 4096
    components, so that the dot product of a search never runs over
    fewer than 4096 components. *)
Theorem served_embeddings_match_their_text events c e :
  entries_ (run_db (run hash parse dump events VectorDB.empty)) !! c = Some e →
  embedding e = embed hash (text e)
  ∧ length (embedding e) = 4096%nat
  ∧ ∀ query,
      Nat.min (length (embed hash query)) (length (embedding e)) = 4096%nat.
Proof.
  intros He.
  assert (Hemb : embedded hash
                   (run_db (run hash parse dump events VectorDB.empty))).
  { apply run_db_invariant.
    - intros db cid did txt meta. apply embedded_store.
    - intros c' e'. cbn. by rewrite lookup_empty. }
  pose proof (Hemb _ _ He) as Heq. split; [done|].
  rewrite Heq. split; [apply embed_length|].
  intros query. rewrite !embed_length. reflexivity.
Qed.

(** X27. What is stored is found: after a store request with string
    chunk_id, doc_id and text on a consistent store that then holds at
    most 5 entries, a search request that carries the same text as its
    query (and neither top_k nor doc_id) is answered with "ok" and a
    result for that chunk_id, with the stored text and the score of the
    text against itself. *)
Theorem stored_chunk_is_found store_request search_request db cid did txt :
  consistent db →
  field store_request "action" = Some (JString "store") →
  field store_request "chunk_id" = Some (JString cid) →
  field store_request "doc_id" = Some (JString did) →
  field store_request "text" = Some (JString txt) →
  field search_request "action" = Some (JString "search") →
  field search_request "query" = Some (JString txt) →
  field search_request "top_k" = None →
  field search_request "doc_id" = None →
  (size (entries_ (Server.dispatch hash store_request db).2) ≤ 5)%nat →
  ∃ results,
    Server.dispatch hash search_request
      (Server.dispatch hash store_request db).2
    = (Ok (JObject [("status", JString "ok"); ("results", JArray results)]),
       (Server.dispatch hash store_request db).2)
    ∧ JObject [("chunk_id", JString cid);
               ("score", JFloat (VectorDB.dot_product (embed hash txt)
                                                      (embed hash txt)));
               ("text", JString txt)] ∈ results.
Proof.
  intros Hc Ha Hcid Hdid Htxt Hsa Hq Hk Hd.
  rewrite (dispatch_action hash _ _ _ Ha), bool_decide_eq_true_2 by done.
  rewrite (handle_store_ok hash _ _ _ _ _ Ha Hcid Hdid Htxt). cbn [snd].
  set (meta := default (JObject []) (field store_request "metadata")).
  set (db' := VectorDB.store cid did txt meta (embed hash txt) db).
  intros Hsize.
  rewrite (dispatch_action hash _ _ _ Hsa).
  rewrite bool_decide_eq_false_2 by done.
  rewrite bool_decide_eq_true_2 by done.
  rewrite (handle_search_defaults hash _ _ _ Hsa Hq Hk Hd).
  eexists. split; [reflexivity|].
  set (e := mkVectorEntry cid did txt meta (embed hash txt)).
  assert (He : entries_ db' !! cid = Some e).
  { subst db'. cbn [entries_ VectorDB.store]. apply lookup_insert_eq. }
  assert (Hlen : length (VectorDB.scored_candidates (embed hash txt) "" db')
                 = size (entries_ db')).
  { rewrite unfiltered_scored, length_fmap. apply length_map_to_list. }
  assert (Hin : VectorDB.to_result (VectorDB.score_entry (embed hash txt) e)
                ∈ VectorDB.search (embed hash txt) 5 "" db').
  { rewrite search_all; [|unfold is_int; lia|rewrite Hlen; lia].
    apply list_elem_of_fmap_2. rewrite unfiltered_scored.
    apply list_elem_of_fmap. exists (cid, e). split; [done|].
    by apply elem_of_map_to_list. }
  apply list_elem_of_fmap.
  exists (VectorDB.to_result (VectorDB.score_entry (embed hash txt) e)).
  split; [done|exact Hin].
Qed.

(** X30. In the server no score is a NaN, and the results of a search
    are in order: after any run of the accept loop from the empty
    store, for the embedding of any query text, every candidate's score
    is zero or a positive normal float, and the results of the search
    are sorted by score descending, whatever [top_k] and the filter. *)
Theorem served_search_is_sorted events query top_k f :
  let db := run_db (run hash parse dump events VectorDB.empty) in
  Forall (λ p, F32.is_nan p.1 = false ∧ (p.1 = F32.zero ∨ pos_normal p.1))
         (VectorDB.scored_candidates (embed hash query) f db)
  ∧ sorted_desc (VectorDB.search (embed hash query) top_k f db).
Proof.
  intros db.
  assert (Hemb : embedded hash db).
  { apply run_db_invariant.
    - intros db' cid did txt meta. apply embedded_store.
    - intros c' e'. cbn. by rewrite lookup_empty. }
  assert (Hscore : Forall (λ p, F32.is_nan p.1 = false
                                ∧ (p.1 = F32.zero ∨ pos_normal p.1))
                     (VectorDB.scored_candidates (embed hash query) f db)).
  { apply Forall_forall. intros p Hp.
    rewrite (scored_candidates_score _ _ _ _ Hp).
    destruct (scored_candidates_stored _ _ _ _ Hp) as [c Hc].
    rewrite (Hemb _ _ Hc).
    destruct (embedded_score hash query (text p.2)) as [Hz|Hn].
    - split; [by rewrite Hz|by left].
    - split; [|by right]. by destruct Hn as (m & e & -> & _). }
  split; [exact Hscore|].
  apply search_sorted. eapply Forall_impl; [exact Hscore|].
  by intros p [? _].
Qed.

End Served.

(** An instance of X26: a store request, then a malformed frame. *)
Lemma served_embeddings_match_their_text_witness :
  embedding (mkVectorEntry "c1" "d1" "cat sat on mat" (JObject [])
               (embed sample_hash "cat sat on mat"))
  = embed sample_hash "cat sat on mat"
  ∧ length (embed sample_hash "cat sat on mat") = 4096%nat
  ∧ ∀ query,
      Nat.min (length (embed sample_hash query))
              (length (embed sample_hash "cat sat on mat")) = 4096%nat.
Proof.
  apply (served_embeddings_match_their_text sample_hash sample_parse_requests
           sample_dump
           [ev_client (frame "store") 10 0; ev_client frame_length_zero 0 1]
           "c1"
           (mkVectorEntry "c1" "d1" "cat sat on mat" (JObject [])
              (embed sample_hash "cat sat on mat"))).
  vm_compute. reflexivity.
Defined.

(** An instance of X30: a store request, then a search for "cat". *)
Lemma served_search_is_sorted_witness :
  sorted_desc
    (VectorDB.search (embed sample_hash "cat") 5 ""
       (run_db (run sample_hash sample_parse_requests sample_dump
                  [ev_client (frame "store") 10 0] VectorDB.empty))).
Proof.
  exact (proj2 (served_search_is_sorted sample_hash sample_parse_requests
                  sample_dump [ev_client (frame "store") 10 0] "cat" 5 "")).
Defined.

(** An instance of X27: the sample store request on the empty store,
    then a search for its text. *)
Lemma stored_chunk_is_found_witness :
  ∃ results,
    Server.dispatch sample_hash
      (JObject [("action", JString "search");
                ("query", JString "cat sat on mat")])
      (Server.dispatch sample_hash sample_store_request VectorDB.empty).2
    = (Ok (JObject [("status", JString "ok"); ("results", JArray results)]),
       (Server.dispatch sample_hash sample_store_request VectorDB.empty).2)
    ∧ JObject [("chunk_id", JString "c1");
               ("score", JFloat (VectorDB.dot_product
                                   (embed sample_hash "cat sat on mat")
                                   (embed sample_hash "cat sat on mat")));
               ("text", JString "cat sat on mat")] ∈ results.
Proof.
  apply (stored_chunk_is_found sample_hash sample_store_request
           (JObject [("action", JString "search");
                     ("query", JString "cat sat on mat")])
           VectorDB.empty "c1" "d1" "cat sat on mat");
    try reflexivity.
  - apply consistent_empty.
  - vm_compute. lia.
Defined.

(** ** main: the command line and the end of the process *)

Section MainFacts.

Context `{std : !StdSort}.

Variable hash : string → N.
Variable parse : string → result json.
Variable dump : json → result string.
Variable stoi : string → option Z.
Variable setup_socket : string → Z → option string.

Lemma parse_args_pairs (n : nat) :
  ∀ argv h p h' p',
    (length argv ≤ n)%nat →
    parse_args stoi argv h p = Config h' p' →
    Nat.Even (length argv)
    ∧ (∀ i arg, argv !! (2 * i)%nat = Some arg →
         arg = "--host" ∨ arg = "--port")
    ∧ (∀ v, parse_args stoi (argv ++ ["--host"; v]) h p = Config v p')
    ∧ (∀ v, parse_args stoi (argv ++ ["--port"; v]) h p
            = match stoi v with
              | Some q => Config h' q
              | None => BadPort
              end).
Proof.
  induction n as [|n IH]; intros argv h p h' p' Hlen.
  - destruct argv; [|simpl in Hlen; lia].
    cbn [parse_args]. intros [= <- <-]. split_and!.
    + exists 0%nat. reflexivity.
    + intros i arg. by rewrite lookup_nil.
    + intros v. reflexivity.
    + intros v. cbn. by destruct (stoi v).
  - destruct argv as [|arg [|value rest]].
    + apply (IH [] h p h' p'). simpl. lia.
    + cbn [parse_args]. intros [=].
    + cbn [length] in Hlen.
      change ((arg :: value :: rest) ++ ?l) with (arg :: value :: (rest ++ l)).
      cbn [parse_args].
      assert (Hstep : ∀ h0 p0,
        parse_args stoi rest h0 p0 = Config h' p' →
        arg = "--host" ∨ arg = "--port" →
        Nat.Even (length (arg :: value :: rest))
        ∧ (∀ i a, (arg :: value :: rest) !! (2 * i)%nat = Some a →
             a = "--host" ∨ a = "--port")
        ∧ (∀ v, parse_args stoi (rest ++ ["--host"; v]) h0 p0 = Config v p')
        ∧ (∀ v, parse_args stoi (rest ++ ["--port"; v]) h0 p0
                = match stoi v with
                  | Some q => Config h' q
                  | None => BadPort
                  end)).
      { intros h0 p0 Hrest Harg.
        destruct (IH rest h0 p0 h' p' ltac:(lia) Hrest)
          as ([k Hk] & Hopts & Hhost & Hport).
        split_and!; [| |done|done].
        - exists (S k). cbn [length]. lia.
        - intros [|i] a.
          + by intros [= <-].
          + replace (2 * S i)%nat with (S (S (2 * i))) by lia.
            cbn [lookup list_lookup]. apply Hopts. }
      case_bool_decide as Hh.
      * intros Hrest.
        destruct (Hstep value p Hrest ltac:(by left))
          as (He & Ho & Hhost & Hport).
        by split_and!.
      * case_bool_decide as Hp; [|intros [=]].
        destruct (stoi value) as [q|] eqn:Hq; [|intros [=]].
        intros Hrest.
        destruct (Hstep h q Hrest ltac:(by right))
          as (He & Ho & Hhost & Hport).
        by split_and!.
Qed.

(** X28. The command lines [main] accepts: when the loop over the
    arguments ends normally, the arguments are pairs of an option,
    "--host" or "--port", and its value; the last value given for an
    option is the one in force (appending "--host v" makes [v] the
    host; appending "--port v" makes [std::stoi(v)] the port, or ends
    the process when [std::stoi] throws). *)
Theorem main_accepts_option_pairs argv h p h' p' :
  parse_args stoi argv h p = Config h' p' →
  Nat.Even (length argv)
  ∧ (∀ i arg, argv !! (2 * i)%nat = Some arg →
       arg = "--host" ∨ arg = "--port")
  ∧ (∀ v, parse_args stoi (argv ++ ["--host"; v]) h p = Config v p')
  ∧ (∀ v, parse_args stoi (argv ++ ["--port"; v]) h p
          = match stoi v with
            | Some q => Config h' q
            | None => BadPort
            end).
Proof. apply (parse_args_pairs (length argv)). lia. Qed.

Lemma run_app_accepting events1 events2 db :
  run_status (run hash parse dump events1 db) = Accepting →
  run_status (run hash parse dump (events1 ++ events2) db)
  = run_status (run hash parse dump events2
                  (run_db (run hash parse dump events1 db))).
Proof.
  revert db. induction events1 as [|ev events1 IH]; intros db; [done|].
  destruct ev as [| | | | | |crx croom cerr]; simpl; try done; try apply IH.
  destruct (Server.handle_connection hash parse dump
              (mkState db (mkConn crx croom [] cerr))) as [[[]|e|] st];
    [|done..].
  simpl. apply IH.
Qed.

(** X29. How the process ends, once the command line is accepted and
    the socket is set up: a signal that arrives while the loop is
    accepting makes [main] return 0, whatever the clients before it
    sent; a client that sends a body the parser rejects and does not
    take the whole reply ends the process, whatever clients are behind
    it: [main] returns 1 when the failing [write] returns an error, and
    the process is killed by SIGPIPE when it raises the signal. *)
Theorem process_exit_codes argv host port events1 rest :
  parse_args stoi argv "localhost" 50051 = Config host port →
  setup_socket host port = None →
  run_status (run hash parse dump events1 VectorDB.empty) = Accepting →
  main hash parse dump stoi setup_socket argv (events1 ++ ev_signal :: rest)
  = Exit 0
  ∧ ∀ msg room errors w out,
      (0 < String.length msg)%nat →
      Z.of_nat (String.length msg) ≤ 10 * 1024 * 1024 →
      parse msg = Throw (parse_error w) →
      dump (Server.error_response ("JSON parse error: " +:+ w)) = Ok out →
      (room < 4 + String.length out)%nat →
      main hash parse dump stoi setup_socket argv
        (events1 ++ ev_client (frame msg) room errors :: rest)
      = match errors with
        | O => Signalled
        | S _ => Exit 1
        end.
Proof.
  intros Hargs Hsetup Hacc. unfold main, server_run.
  rewrite Hargs, Hsetup. split.
  - by rewrite (run_app_accepting _ _ _ Hacc).
  - intros msg room errors w out Hpos Hmax Hp Hd Hroom.
    rewrite (run_app_accepting _ _ _ Hacc). cbn [run].
    pose proof (read_message_frame msg [] room [] errors Hpos Hmax) as Hr.
    rewrite app_nil_r in Hr.
    rewrite (handle_connection_parse_error_reply hash parse dump
               _ _ _ _ _ _ Hr Hp Hd).
    rewrite write_message_outcome. cbn [rx tx tx_room tx_errors].
    rewrite decide_False by (rewrite length_frame; lia).
    by destruct errors.
Qed.

End MainFacts.

(** An instance of X28: a host, a port, and a second host. *)
Lemma main_accepts_option_pairs_witness :
  Nat.Even (length ["--host"; "example"; "--port"; "8080"])
  ∧ (∀ i arg, ["--host"; "example"; "--port"; "8080"] !! (2 * i)%nat
              = Some arg →
       arg = "--host" ∨ arg = "--port")
  ∧ (∀ v, parse_args sample_stoi
            (["--host"; "example"; "--port"; "8080"] ++ ["--host"; v])
            "localhost" 50051
          = Config v 8080)
  ∧ (∀ v, parse_args sample_stoi
            (["--host"; "example"; "--port"; "8080"] ++ ["--port"; v])
            "localhost" 50051
          = match sample_stoi v with
            | Some q => Config "example" q
            | None => BadPort
            end).
Proof.
  apply (main_accepts_option_pairs sample_stoi
           ["--host"; "example"; "--port"; "8080"] "localhost" 50051
           "example" 8080).
  reflexivity.
Defined.

(** An instance of X29: after a store request, a signal; after a store
    request, the body "x" from a peer that takes no reply, with one
    more client waiting: the write returns an error, or raises
    SIGPIPE. *)
Lemma process_exit_codes_witness :
  main sample_hash sample_parse_requests sample_dump sample_stoi
    sample_setup_socket ["--port"; "8080"]
    ([ev_client (frame "store") 10 0] ++ ev_signal :: [])
  = Exit 0
  ∧ main sample_hash sample_parse_requests sample_dump sample_stoi
      sample_setup_socket ["--port"; "8080"]
      ([ev_client (frame "store") 10 0]
       ++ ev_client (frame "x") 0 1 :: [ev_client (frame "search") 64 0])
    = Exit 1
  ∧ main sample_hash sample_parse_requests sample_dump sample_stoi
      sample_setup_socket ["--port"; "8080"]
      ([ev_client (frame "store") 10 0]
       ++ ev_client (frame "x") 0 0 :: [ev_client (frame "search") 64 0])
    = Signalled.
Proof.
  split; [|split].
  - apply (proj1 (process_exit_codes sample_hash sample_parse_requests
                    sample_dump sample_stoi sample_setup_socket
                    ["--port"; "8080"] "localhost" 8080
                    [ev_client (frame "store") 10 0] []
                    eq_refl eq_refl ltac:(vm_compute; reflexivity))).
  - apply (proj2 (process_exit_codes sample_hash sample_parse_requests
                    sample_dump sample_stoi sample_setup_socket
                    ["--port"; "8080"] "localhost" 8080
                    [ev_client (frame "store") 10 0]
                    [ev_client (frame "search") 64 0]
                    eq_refl eq_refl ltac:(vm_compute; reflexivity))
             "x" 0%nat 1%nat "syntax error while parsing value" "object");
      [simpl; lia|simpl; lia|reflexivity|reflexivity|simpl; lia].
  - apply (proj2 (process_exit_codes sample_hash sample_parse_requests
                    sample_dump sample_stoi sample_setup_socket
                    ["--port"; "8080"] "localhost" 8080
                    [ev_client (frame "store") 10 0]
                    [ev_client (frame "search") 64 0]
                    eq_refl eq_refl ltac:(vm_compute; reflexivity))
             "x" 0%nat 0%nat "syntax error while parsing value" "object");
      [simpl; lia|simpl; lia|reflexivity|reflexivity|simpl; lia].
Defined.
